(** * MSNumpress: the nibble integer codec and the codecs built on it

    A shallow embedding of [src/main/cpp/MSNumpress.cpp].

    - C++ [int] and [unsigned int] are 32 bits wide, [size_t] is 64 bits wide,
      [unsigned char] is 8 bits wide.  Integers are values of [Z]; the
      wrap-around of every conversion is written out ([int32], [uint32],
      [uchar]).  Signed arithmetic and shifts are two's complement and [>>]
      on a negative [int] is the arithmetic shift.
    - [double] is IEEE-754 binary64, modelled by [spec_float] with the
      operations of [SpecFloat] at precision 53 (round to nearest even).
    - [std::vector::operator[]] and raw pointer indexing are unchecked: an
      access past the end of a buffer is undefined behaviour.  It is the
      outcome [OutOfRange]; no exception is raised by it.
    - A conversion from [double] to an integer type whose truncated value is
      not representable is undefined behaviour too.  The outcome
      [BadConversion] marks it and the call is followed no further: a
      compiled program goes on with whatever the conversion instruction
      leaves, so [BadConversion] says that the value is out of the range of
      the integer type, and nothing about what the call does after it.
    - The [while] loops of the decoders are recursive on a number of
      iterations [fuel]; the decoders pass twice the byte count, which the
      loops never use up ([decodeCount_loop_safe], [decodeLinear_loop_safe]).
    - [halfBytes], an array of 10 in the source, is the list of its live
      entries [halfBytes[0..halfByteCount)]: at most one carried over and
      nine of one [encodeInt]. *)

From Stdlib Require Import ZArith QArith Qabs Qpower Lia Lqa Bool.
From Stdlib Require Import Floats.SpecFloat.
From stdpp Require Import base list.

Local Open Scope Z_scope.

(** ** Outcomes of a call *)

Inductive buffer : Set := Data | Result.

Inductive outcome (A : Type) : Type :=
| Ok (a : A)
| OutOfRange (b : buffer) (i : nat)
| BadConversion
| OutOfFuel.

Arguments Ok {A} a.
Arguments OutOfRange {A} b i.
Arguments BadConversion {A}.
Arguments OutOfFuel {A}.

#[global] Instance outcome_ret : MRet outcome := fun A a => Ok a.

#[global] Instance outcome_bind : MBind outcome := fun A B f m =>
  match m with
  | Ok a => f a
  | OutOfRange b i => OutOfRange b i
  | BadConversion => BadConversion
  | OutOfFuel => OutOfFuel
  end.

(** [v[i]] for reading, on the buffer [b]. *)
Definition vec_get {A} (b : buffer) (v : list A) (i : nat) : outcome A :=
  match v !! i with
  | Some x => Ok x
  | None => OutOfRange b i
  end.

(** [v[i] = x]. *)
Definition vec_set {A} (b : buffer) (v : list A) (i : nat) (x : A) : outcome (list A) :=
  if decide (i < length v)%nat then Ok (<[i:=x]> v) else OutOfRange b i.

(** ** Machine integers *)

Definition int32 (z : Z) : Z := (z + 2^31) mod 2^32 - 2^31.
Definition uint32 (z : Z) : Z := z mod 2^32.
Definition uchar (z : Z) : Z := z mod 256.

(** [int mask = 0xf0000000;] *)
Definition mask : Z := int32 4026531840.

(** ** The integer codec *)

(** [for (i=0; i<8; i++) { m = mask >> (4*i); if (p m) { l = i; break; } }]
    started at [i] with [n] iterations left and [l] preset to [dflt]. *)
Fixpoint scan (p : Z -> bool) (i : Z) (n : nat) (dflt : Z) : Z :=
  match n with
  | O => dflt
  | S n' => if p (Z.shiftr mask (4 * i)) then i else scan p (i + 1) n' dflt
  end.

(** [for (i=l; i<8; i++) res[1+i-l] = x >> (4*(i-l));] as the list of the
    bytes stored, [k = i - l] and [n] iterations left. *)
Fixpoint halfbytes (x : Z) (k : Z) (n : nat) : list Z :=
  match n with
  | O => []
  | S n' => uchar (Z.shiftr x (4 * k)) :: halfbytes x (k + 1) n'
  end.

(** The leading-nibble count [l] of each branch; 0 in the last branch, where
    the source has no [l]. *)
Definition encodeInt_l (x : Z) : Z :=
  let init := Z.land x mask in
  if init =? 0 then scan (fun m => negb (Z.land x m =? 0)) 0 8 8
  else if init =? mask then scan (fun m => negb (Z.land x m =? m)) 0 8 7
  else 0.

(** [encodeInt(x, res, res_length)]: the bytes stored in [res[0..]], one half
    byte each; [res_length] grows by the length of the list. *)
Definition encodeInt (x : Z) : list Z :=
  let init := Z.land x mask in
  if init =? 0 then
    let l := scan (fun m => negb (Z.land x m =? 0)) 0 8 8 in
    uchar l :: halfbytes x 0 (Z.to_nat (8 - l))
  else if init =? mask then
    let l := scan (fun m => negb (Z.land x m =? m)) 0 8 7 in
    uchar (l + 8) :: halfbytes x 0 (Z.to_nat (8 - l))
  else
    0 :: halfbytes x 0 8.

(** The half byte proper: the packing loops keep the low four bits only. *)
Definition nibble (b : Z) : Z := Z.land b 15.

(** One half byte read at [(di, half)]:
    [if (half == 0) hb = data[di] >> 4; else { hb = data[di] & 0xf; di++; }]
    followed by [half = 1 - half] (the source reaches [di] and [half]
    through pointers). *)
Definition read_half (data : list Z) (di : nat) (half : Z) : outcome (Z * nat * Z) :=
  b ← vec_get Data data di;
  if half =? 0 then Ok (Z.shiftr b 4, di, 1 - half)
  else Ok (Z.land b 15, S di, 1 - half).

(** [for (i=0; i<n; i++) { m = mask >> (4*i); res = res | m; }] *)
Fixpoint fill_ones (i : Z) (n : nat) (res : Z) : Z :=
  match n with
  | O => res
  | S n' => fill_ones (i + 1) n' (Z.lor res (Z.shiftr mask (4 * i)))
  end.

(** [for (i=n; i<8; i++) { hb = ...; res = res | (hb << ((i-n)*4)); ... }]
    with [k = i - n] and [cnt] iterations left. *)
Fixpoint decodeInt_loop (data : list Z) (cnt : nat) (k : Z) (di : nat) (half : Z) (res : Z)
  : outcome (nat * Z * Z) :=
  match cnt with
  | O => Ok (di, half, res)
  | S cnt' =>
      '(hb, di', half') ← read_half data di half;
      decodeInt_loop data cnt' (k + 1) di' half' (Z.lor res (int32 (Z.shiftl hb (k * 4))))
  end.

(** [decodeInt(data, di, half, res)]: the new values of [di], [half] and [res]. *)
Definition decodeInt (data : list Z) (di : nat) (half : Z) : outcome (nat * Z * Z) :=
  '(head, di, half) ← read_half data di half;
  let '(n, res) :=
    if head <=? 8 then (head, 0)
    else (head - 8, fill_ones 0 (Z.to_nat (head - 8)) 0) in
  if n =? 8 then Ok (di, half, res)
  else decodeInt_loop data (Z.to_nat (8 - n)) 0 di half res.

(** ** Doubles *)

Definition double : Type := spec_float.

Definition dmul : double -> double -> double := SFmul 53 1024.
Definition dadd : double -> double -> double := SFadd 53 1024.
Definition ddiv : double -> double -> double := SFdiv 53 1024.

(** The double of value [m * 2^e]; an integer below [2^53] in magnitude
    converts exactly. *)
Definition double_of (m e : Z) : double := binary_normalize 53 1024 m e false.
Definition of_int (z : Z) : double := double_of z 0.

Definition d0_5 : double := double_of 1 (-1).
Definition d100000 : double := of_int 100000.
Definition d3000 : double := of_int 3000.

(** The integer part of a finite double (conversion to an integer type
    truncates toward zero). *)
Definition trunc (d : double) : option Z :=
  match d with
  | S754_zero _ => Some 0
  | S754_finite s m e => Some (cond_Zopp s (Z.shiftl (Zpos m) e))
  | S754_infinity _ | S754_nan => None
  end.

(** Conversion to an integer type of range [lo..hi]. *)
Definition to_integer (lo hi : Z) (d : double) : outcome Z :=
  match trunc d with
  | Some z => if (lo <=? z) && (z <=? hi) then Ok z else BadConversion
  | None => BadConversion
  end.

Definition to_uint32 : double -> outcome Z := to_integer 0 (2^32 - 1).
Definition to_size_t : double -> outcome Z := to_integer 0 (2^64 - 1).
Definition to_ushort : double -> outcome Z := to_integer 0 65535.

(** ** Packing half bytes, shared by [encodeLinear] and [encodeCount] *)

(** [for (hbi=1; hbi < halfByteCount; hbi+=2) {
       result[ri] = (halfBytes[hbi-1] << 4) | (halfBytes[hbi] & 0xf); ri++; }]
    over the live part of [halfBytes]. *)
Fixpoint pack_pairs (halfBytes : list Z) (ri : nat) (result : list Z)
  : outcome (nat * list Z) :=
  match halfBytes with
  | a :: b :: rest =>
      result ← vec_set Result result ri (uchar (Z.lor (Z.shiftl a 4) (Z.land b 15)));
      pack_pairs rest (S ri) result
  | _ => Ok (ri, result)
  end.

(** [if (halfByteCount % 2 != 0) { halfBytes[0] = halfBytes[halfByteCount-1];
       halfByteCount = 1; } else halfByteCount = 0;] *)
Definition carry_over (halfBytes : list Z) : list Z :=
  if (length halfBytes mod 2 =? 0)%nat then []
  else match last halfBytes with Some h => [h] | None => [] end.

(** [if (halfByteCount == 1) { result[ri] = halfBytes[0] << 4; ri++; }
    *resultByteCount = ri;] *)
Definition flush (halfBytes : list Z) (ri : nat) (result : list Z)
  : outcome (list Z * nat) :=
  match halfBytes with
  | [h] =>
      result ← vec_set Result result ri (uchar (Z.shiftl h 4));
      Ok (result, S ri)
  | _ => Ok (result, ri)
  end.

(** ** The linear-prediction codec *)

(** [data[i] * 100000 + 0.5] stored into an [unsigned int]. *)
Definition fixed_point (d : double) : outcome Z :=
  to_uint32 (dadd (dmul d d100000) d0_5).

(** [for (i=0; i<4; i++) { result[0+i] = (ints[1] >> (i*8)) & 0xff;
                           result[4+i] = (ints[2] >> (i*8)) & 0xff; }] *)
Fixpoint write_header (n : nat) (i : nat) (ints1 ints2 : Z) (result : list Z)
  : outcome (list Z) :=
  match n with
  | O => Ok result
  | S n' =>
      result ← vec_set Result result (0 + i) (Z.land (Z.shiftr ints1 (Z.of_nat i * 8)) 255);
      result ← vec_set Result result (4 + i) (Z.land (Z.shiftr ints2 (Z.of_nat i * 8)) 255);
      write_header n' (S i) ints1 ints2 result
  end.

(** The body of [for (i=2; i<dataSize; i++)] in [encodeLinear], [n] iterations
    left.  [ints[0]] is assigned before it is read, so the state carries
    [ints[1]] and [ints[2]] only; [halfBytes] is the live part
    [halfBytes[0..halfByteCount)] of the array. *)
Fixpoint encodeLinear_loop (n : nat) (i : nat) (data : list double)
    (ints1 ints2 : Z) (halfBytes : list Z) (ri : nat) (result : list Z)
  : outcome (list Z * nat * list Z) :=
  match n with
  | O => Ok (halfBytes, ri, result)
  | S n' =>
      let ints0 := ints1 in
      let ints1 := ints2 in
      d ← vec_get Data data i;
      ints2 ← fixed_point d;
      let extrapol := int32 (uint32 (ints1 + uint32 (ints1 - ints0))) in
      let diff := int32 (uint32 (ints2 - extrapol)) in
      let halfBytes := halfBytes ++ encodeInt diff in
      '(ri, result) ← pack_pairs halfBytes ri result;
      encodeLinear_loop n' (S i) data ints1 ints2 (carry_over halfBytes) ri result
  end.

(** [encodeLinear(data, dataSize, result, resultByteCount)]: the buffer
    [result] after the call and [*resultByteCount].  [data] and [result] are
    the arrays the two pointers point into. *)
Definition encodeLinear (data : list double) (dataSize : nat) (result : list Z)
  : outcome (list Z * nat) :=
  d0 ← vec_get Data data 0;
  ints1 ← fixed_point d0;
  d1 ← vec_get Data data 1;
  ints2 ← fixed_point d1;
  result ← write_header 4 0 ints1 ints2 result;
  '(halfBytes, ri, result) ←
    encodeLinear_loop (dataSize - 2) 2 data ints1 ints2 [] 8 result;
  flush halfBytes ri result.

(** [for (i=0; i<4; i++) {
       ints[1] = ints[1] | ((0xff & (init = data[i])) << (i*8));
       ints[2] = ints[2] | ((0xff & (init = data[4+i])) << (i*8)); }] *)
Fixpoint read_header (n : nat) (i : nat) (data : list Z) (ints1 ints2 : Z)
  : outcome (Z * Z) :=
  match n with
  | O => Ok (ints1, ints2)
  | S n' =>
      b ← vec_get Data data i;
      let ints1 := Z.lor ints1 (int32 (Z.shiftl (Z.land 255 b) (Z.of_nat i * 8))) in
      b ← vec_get Data data (4 + i);
      let ints2 := Z.lor ints2 (int32 (Z.shiftl (Z.land 255 b) (Z.of_nat i * 8))) in
      read_header n' (S i) data ints1 ints2
  end.

(** [if (di == (dataSize - 1) && half == 1) { if ((data[di] & 0xf) != 0x8) break; }]:
    [true] when the loop is left. *)
Definition trailing_break (data : list Z) (di : nat) (half : Z) : outcome bool :=
  if (Nat.eqb di (length data - 1)) && (half =? 1) then
    b ← vec_get Data data di;
    Ok (negb (Z.land b 15 =? 8))
  else Ok false.

(** [while (di < dataSize) { ... }] of [decodeLinear]; every iteration that
    does not leave the loop reads at least one half byte, and [fuel] bounds
    the number of iterations. *)
Fixpoint decodeLinear_loop (fuel : nat) (data : list Z) (di : nat) (half : Z)
    (ints1 ints2 : Z) (ri : nat) (result : list double)
  : outcome (nat * list double) :=
  if decide (di < length data)%nat then
    match fuel with
    | O => OutOfFuel
    | S fuel' =>
        let ints0 := ints1 in
        let ints1 := ints2 in
        brk ← trailing_break data di half;
        if brk : bool then Ok (ri, result)
        else
          '(di, half, ints2) ← decodeInt data di half;
          let extrapol := int32 (ints1 + int32 (ints1 - ints0)) in
          let y := int32 (extrapol + ints2) in
          result ← vec_set Result result ri (ddiv (of_int y) d100000);
          decodeLinear_loop fuel' data di half ints1 y (S ri) result
    end
  else Ok (ri, result).

(** [result.resize(ri)] *)
Definition resize {A} (n : nat) (dflt : A) (v : list A) : list A :=
  take n v ++ replicate (n - length v) dflt.

Definition dzero : double := S754_zero false.

(** [decodeLinear(data, result)]: the vector [result] after the call.  No
    statement of the [try] block throws, so the [catch (...)] block, which
    only prints, is never entered. *)
Definition decodeLinear (data : list Z) (result : list double) : outcome (list double) :=
  '(ints1, ints2) ← read_header 4 0 data 0 0;
  result ← vec_set Result result 0 (ddiv (of_int ints1) d100000);
  result ← vec_set Result result 1 (ddiv (of_int ints2) d100000);
  '(ri, result) ← decodeLinear_loop (2 * length data) data 8 0 ints1 ints2 2 result;
  Ok (resize ri dzero result).

(** ** The count codec *)

(** The body of [for (i=0; i<dataSize; i++)] in [encodeCount]; [count] is a
    [size_t] and [encodeInt] takes it as an [int]. *)
Fixpoint encodeCount_loop (n : nat) (i : nat) (data : list double)
    (halfBytes : list Z) (ri : nat) (result : list Z)
  : outcome (list Z * nat * list Z) :=
  match n with
  | O => Ok (halfBytes, ri, result)
  | S n' =>
      d ← vec_get Data data i;
      count ← to_size_t (dadd d d0_5);
      let halfBytes := halfBytes ++ encodeInt (int32 count) in
      '(ri, result) ← pack_pairs halfBytes ri result;
      encodeCount_loop n' (S i) data (carry_over halfBytes) ri result
  end.

Definition encodeCount (data : list double) (dataSize : nat) (result : list Z)
  : outcome (list Z * nat) :=
  '(halfBytes, ri, result) ← encodeCount_loop dataSize 0 data [] 0 result;
  flush halfBytes ri result.

Fixpoint decodeCount_loop (fuel : nat) (data : list Z) (di : nat) (half : Z)
    (ri : nat) (result : list double)
  : outcome (nat * list double) :=
  if decide (di < length data)%nat then
    match fuel with
    | O => OutOfFuel
    | S fuel' =>
        brk ← trailing_break data di half;
        if brk : bool then Ok (ri, result)
        else
          '(di, half, count) ← decodeInt data di half;
          result ← vec_set Result result ri (of_int count);
          decodeCount_loop fuel' data di half (S ri) result
    end
  else Ok (ri, result).

(** [decodeCount(data, result)]; as in [decodeLinear] the [catch (...)] block
    is never entered. *)
Definition decodeCount (data : list Z) (result : list double) : outcome (list double) :=
  '(ri, result) ← decodeCount_loop (2 * length data) data 0 0 0 result;
  Ok (resize ri dzero result).

(** ** The two-byte float codec *)

Section TwoByteFloat.

(** [log] and [exp] of [<cmath>]. *)
Variables log exp : double -> double.

(** [for (i=0; i<dataSize; i++) {
       fp = log(data[i]) * TWO_BYTE_FLOAT_FIXED_POINT + 0.5;
       result[ri++] = fp & 0xff; result[ri++] = fp >> 8; }] *)
Fixpoint encode2ByteFloat_loop (n : nat) (i : nat) (data : list double)
    (ri : nat) (result : list Z) : outcome (list Z * nat) :=
  match n with
  | O => Ok (result, ri)
  | S n' =>
      d ← vec_get Data data i;
      fp ← to_ushort (dadd (dmul (log d) d3000) d0_5);
      result ← vec_set Result result ri (uchar (Z.land fp 255));
      result ← vec_set Result result (S ri) (uchar (Z.shiftr fp 8));
      encode2ByteFloat_loop n' (S i) data (S (S ri)) result
  end.

Definition encode2ByteFloat (data : list double) (dataSize : nat) (result : list Z)
  : outcome (list Z * nat) :=
  encode2ByteFloat_loop dataSize 0 data 0 result.

(** [for (i=0; i<dataSize; i+=2) {
       fp = data[i] | (data[i+1] << 8);
       result[ri++] = exp(fp / TWO_BYTE_FLOAT_FIXED_POINT); }]
    [data] is the memory read and [dataSize] the bound of the loop. *)
Fixpoint decode2ByteFloat_loop (fuel : nat) (data : list Z) (dataSize : nat)
    (i ri : nat) (result : list double) : outcome (list double) :=
  if decide (i < dataSize)%nat then
    match fuel with
    | O => OutOfFuel
    | S fuel' =>
        lo ← vec_get Data data i;
        hi ← vec_get Data data (i + 1);
        let fp := Z.lor lo (Z.shiftl hi 8) mod 65536 in
        result ← vec_set Result result ri (exp (ddiv (of_int fp) d3000));
        decode2ByteFloat_loop fuel' data dataSize (i + 2) (S ri) result
    end
  else Ok result.

Definition decode2ByteFloat (data : list Z) (result : list double) : outcome (list double) :=
  let dataSize := length data in
  let result := resize (dataSize / 2) dzero result in
  decode2ByteFloat_loop dataSize data dataSize 0 0 result.

(** The double [decode2ByteFloat] stores for the bytes [lo], [hi]. *)
Definition float_of (lo hi : Z) : double :=
  exp (ddiv (of_int (Z.lor lo (Z.shiftl hi 8) mod 65536)) d3000).

Fixpoint floats_of (data : list Z) : list double :=
  match data with
  | lo :: hi :: rest => float_of lo hi :: floats_of rest
  | _ => []
  end.

End TwoByteFloat.

(** * Specification-level notions *)

(** ** The integer codec *)

(** The three branches of [encodeInt], with what the scan establishes. *)
Inductive encodeInt_case (x : Z) : Prop :=
| leading_zeros (l : Z) :
    1 <= l <= 8 -> 0 <= x < 16 ^ (8 - l) -> (l < 8 -> 16 ^ (7 - l) <= x) ->
    encodeInt_l x = l ->
    encodeInt x = uchar l :: halfbytes x 0 (Z.to_nat (8 - l)) ->
    encodeInt_case x
| leading_ones (l : Z) :
    1 <= l <= 7 -> - 16 ^ (8 - l) <= x < 0 -> (l < 7 -> x < - 16 ^ (7 - l)) ->
    encodeInt_l x = l ->
    encodeInt x = uchar (l + 8) :: halfbytes x 0 (Z.to_nat (8 - l)) ->
    encodeInt_case x
| no_run :
    (x < - 2 ^ 28 \/ 2 ^ 28 <= x) ->
    encodeInt_l x = 0 ->
    encodeInt x = 0 :: halfbytes x 0 8 ->
    encodeInt_case x.

(** Two half bytes per byte, the high one first. *)
Fixpoint stream (data : list Z) : list Z :=
  match data with
  | [] => []
  | b :: rest => Z.shiftr b 4 :: Z.land b 15 :: stream rest
  end.

(** The index in [stream data] of the half byte that [(di, half)] points at. *)
Definition pos (di : nat) (half : Z) : nat := (2 * di + Z.to_nat half)%nat.

(** The low [k] half bytes of [x]; all of [x] once [k] reaches 8. *)
Definition lowpart (x k : Z) : Z := if k <? 8 then x mod 16 ^ k else x.

(** The half bytes [hbs] (their low four bits) sit in [data] from stream
    position [p] on. *)
Definition at_stream (data : list Z) (p : nat) (hbs : list Z) : Prop :=
  take (length hbs) (drop p (stream data)) = nibble <$> hbs.

(** ** What the encoders store *)

(** The bytes [pack_pairs] stores. *)
Fixpoint pack (hbs : list Z) : list Z :=
  match hbs with
  | a :: b :: rest => uchar (Z.lor (Z.shiftl a 4) (Z.land b 15)) :: pack rest
  | _ => []
  end.

(** [result] with [bytes] stored from index [ri] on. *)
Definition blit {A} (ri : nat) (bytes : list A) (result : list A) : list A :=
  take ri result ++ bytes ++ drop (ri + length bytes) result.

(** All the half bytes of a sequence of integers. *)
Definition hb_stream (xs : list Z) : list Z := xs ≫= encodeInt.

(** The byte [flush] stores: the odd half byte with a zero low half. *)
Definition last_byte (hbs : list Z) : list Z :=
  match carry_over hbs with
  | [h] => [uchar (Z.shiftl h 4)]
  | _ => []
  end.

(** The bytes of a whole encoding, and the half byte that pads it. *)
Definition packed (hbs : list Z) : list Z := pack hbs ++ last_byte hbs.

Definition padding (hbs : list Z) : list Z :=
  if (length hbs mod 2 =? 0)%nat then [] else [0].

(** The residual [encodeLinear] encodes for the fixed-point value [k2] after
    [k0] and [k1]. *)
Definition residual (k0 k1 k2 : Z) : Z :=
  int32 (uint32 (k2 - int32 (uint32 (k1 + uint32 (k1 - k0))))).

Fixpoint residuals (k0 k1 : Z) (ks : list Z) : list Z :=
  match ks with
  | [] => []
  | k :: ks' => residual k0 k1 k :: residuals k1 k ks'
  end.

(** The four bytes of a 32-bit word, least significant first. *)
Definition le32 (k : Z) : list Z :=
  [Z.land (Z.shiftr k 0) 255; Z.land (Z.shiftr k 8) 255;
   Z.land (Z.shiftr k 16) 255; Z.land (Z.shiftr k 24) 255].

(** ** What the decoders find *)

(** From [(di, half)] on, [data] holds the half bytes [hbs] and then [pad]. *)
Definition remaining (data : list Z) (di : nat) (half : Z) (hbs pad : list Z) : Prop :=
  (half = 0 \/ half = 1) /\ drop (pos di half) (stream data) = (nibble <$> hbs) ++ pad.

(** The double [decodeLinear] stores for the fixed-point value [k]. *)
Definition unfix (k : Z) : double := ddiv (of_int (int32 k)) d100000.

(** ** Two sentences of the specification, as worded *)

(** The rule as the specification words it: a trailing half byte other than
    [0x8] is decoded, [0x8] is dropped. *)
Definition trailing_rule_as_worded : Prop :=
  forall (data : list Z) (di : nat) (b : Z) (ri : nat) (result : list double),
  di = (length data - 1)%nat -> data !! di = Some b -> (ri < length result)%nat ->
  (Z.land b 15 <> 8 ->
     decodeCount_loop 1 data di 1 ri result
     = ('(di', half', count) ← decodeInt data di 1;
        result ← vec_set Result result ri (of_int count);
        decodeCount_loop 0 data di' half' (S ri) result))
  /\ (Z.land b 15 = 8 -> decodeCount_loop 1 data di 1 ri result = Ok (ri, result)).

(** ** Exact values of doubles *)

(** The rational a finite double stands for. *)
Definition Qvalue (d : double) : option Q :=
  match d with
  | S754_zero _ => Some 0%Q
  | S754_finite s m e => Some (inject_Z (cond_Zopp s (Zpos m)) * 2 ^ e)%Q
  | S754_infinity _ | S754_nan => None
  end.

(** [|a - b| <= eps], both finite. *)
Definition within (eps : Q) (a b : double) : Prop :=
  match Qvalue a, Qvalue b with
  | Some x, Some y => (Qabs (x - y) <= eps)%Q
  | _, _ => False
  end.

(** [lo <= a <= hi], [a] finite. *)
Definition in_range (lo hi : Q) (a : double) : Prop :=
  match Qvalue a with
  | Some x => (lo <= x <= hi)%Q
  | None => False
  end.

(** The precision contract as the specification words it. *)
Definition linear_precision_as_worded : Prop :=
  forall (v : list double) (result0 : list Z) (result : list double)
         (res : list Z) (n : nat) (r : list double),
  Forall (in_range (-42000) 42000) v ->
  encodeLinear v (length v) result0 = Ok (res, n) ->
  decodeLinear (take n res) result = Ok r ->
  forall (i : nat) (a d : double),
  v !! i = Some a -> r !! i = Some d -> within (5 # 1000000) d a.

(** 30000.0, 1.000005 and -0.00001 as doubles. *)
Definition d30000 : double := of_int 30000.
Definition d1_000005 : double := S754_finite false 0x1000053e2d6239 (-52).
Definition dm0_00001 : double := S754_finite true 0x14f8b588e368f1 (-69).

(** ** Notions for the further properties *)


(** The half bytes of [x] with [l] leading half bytes, all [0x0] or all
    [0xf], left out, whether or not [l] is all there are. *)
Definition run_encoding (ones : bool) (l x : Z) : list Z :=
  (if ones then l + 8 else l) :: halfbytes x 0 (Z.to_nat (8 - l)).

(** Consecutive elements of [ks] differ by the same step. *)
Definition constant_step (ks : list Z) : Prop :=
  forall (i : nat) (a b c : Z),
  ks !! i = Some a -> ks !! S i = Some b -> ks !! S (S i) = Some c -> c - b = b - a.

(** The bytes of [m] half bytes [0x8]: [0x88] for every pair and [0x80] for
    an odd one left. *)
Definition zeros_packed (m : nat) : list Z :=
  replicate (m / 2) 136 ++ (if Nat.odd m then [128] else []).

(** The integers [decodeLinear] rebuilds from the residuals [rs] after [k0]
    and [k1]: each is the linear extrapolation of the two before it plus
    its residual. *)
Fixpoint predicted (k0 k1 : Z) (rs : list Z) : list Z :=
  match rs with
  | [] => []
  | r :: rs' => let k := k1 + (k1 - k0) + r in k :: predicted k1 k rs'
  end.

(** The two bytes [encode2ByteFloat] stores for the fixed-point value [fp]. *)
Definition le16 (fp : Z) : list Z := [uchar (Z.land fp 255); uchar (Z.shiftr fp 8)].

(** The double of value [q * 2^E] and sign [s], for [0 < q < 2^53]: the
    mantissa brought to 53 digits. *)
Definition normal (s : bool) (q E : Z) : double :=
  S754_finite s (Z.to_pos (q * 2 ^ (53 - Zdigits2 q))) (E + Zdigits2 q - 53).

(** ** Notions for the rounding of doubles *)

(** The rational [a / b] lies in [m .. m + 1) at the place the round bit [r]
    and the sticky bit [s] say: on [m], below the middle, on it, above it. *)
Definition loc_ok (m : Z) (r s : bool) (a b : Z) : Prop :=
  match r, s with
  | false, false => a = m * b
  | false, true => m * b < a /\ 2 * a < (2 * m + 1) * b
  | true, false => 2 * a = (2 * m + 1) * b
  | true, true => (2 * m + 1) * b < 2 * a /\ a < (m + 1) * b
  end.

Definition loc_ok_rec (mrs : shr_record) (a b : Z) : Prop :=
  loc_ok (shr_m mrs) (shr_r mrs) (shr_s mrs) a b.

(** The double [f] is [N * 2^E], of sign [s]. *)
Definition result_is (f : double) (s : bool) (N E : Z) : Prop :=
  match f with
  | S754_zero s' => s' = s /\ N = 0
  | S754_finite s' m e => s' = s /\ E <= e /\ N = Zpos m * 2 ^ (e - E)
  | _ => False
  end.

(** Zero or a positive finite double. *)
Definition nonneg (f : double) : Prop :=
  match f with
  | S754_zero _ => True
  | S754_finite s _ _ => s = false
  | _ => False
  end.

(** * Proofs *)

Ltac conj_split := match goal with |- _ /\ _ => split end.

(** ** Bit-level facts *)

Lemma lor_disjoint (a c k : Z) :
  0 <= k -> 0 <= a < 2 ^ k -> Z.lor a (2 ^ k * c) = a + 2 ^ k * c.
Proof.
  intros Hk Ha.
  assert (Hland : Z.land a (2 ^ k * c) = 0).
  { apply Z.bits_inj'. intros n Hn. rewrite Z.land_spec, Z.bits_0.
    destruct (Z.lt_ge_cases n k) as [Hlt | Hge].
    - rewrite (Z.mul_comm (2 ^ k)), Z.mul_pow2_bits_low by lia.
      apply andb_false_r.
    - rewrite <- (Z.mod_small a (2 ^ k)) by lia.
      rewrite Z.mod_pow2_bits_high by lia. reflexivity. }
  pose proof (Z.add_lor_land a (2 ^ k * c)) as H. lia.
Qed.

Lemma land_neg_pow2 (x k : Z) :
  0 <= k -> Z.land x (- 2 ^ k) = 2 ^ k * (x / 2 ^ k).
Proof.
  intros Hk.
  replace (- 2 ^ k) with (Z.lnot (Z.ones k)).
  2:{ rewrite Z.ones_equiv. unfold Z.lnot. lia. }
  rewrite <- Z.ldiff_land, Z.ldiff_ones_r by lia.
  rewrite Z.shiftr_div_pow2, Z.shiftl_mul_pow2 by lia. lia.
Qed.

Lemma mask_eq : mask = - 2 ^ 28.
Proof. reflexivity. Qed.

Lemma shiftr_mask (i : Z) :
  0 <= i <= 7 -> Z.shiftr mask (4 * i) = - 2 ^ (28 - 4 * i).
Proof.
  intros Hi. rewrite Z.shiftr_div_pow2, mask_eq by lia.
  replace (2 ^ 28) with (2 ^ (28 - 4 * i) * 2 ^ (4 * i)).
  2:{ rewrite <- Z.pow_add_r by lia. f_equal. lia. }
  rewrite <- Z.mul_opp_l, Z.div_mul; [reflexivity | ].
  apply Z.pow_nonzero; lia.
Qed.

Lemma nibble_div (x k : Z) :
  0 <= k -> nibble (uchar (Z.shiftr x (4 * k))) = (x / 16 ^ k) mod 16.
Proof.
  intros Hk. unfold nibble, uchar.
  change 15 with (Z.ones 4). rewrite Z.land_ones by lia.
  rewrite Z.shiftr_div_pow2 by lia.
  replace (2 ^ (4 * k)) with (16 ^ k).
  2:{ change 16 with (2 ^ 4). rewrite <- Z.pow_mul_r by lia. reflexivity. }
  change (2 ^ 4) with 16. generalize (x / 16 ^ k). intros v.
  Z.div_mod_to_equations. lia.
Qed.

(** ** The scan for the first nibble that differs *)

Lemma scan_spec (p : Z -> bool) (n : nat) : forall (i dflt : Z),
  let l := scan p i n dflt in
  (l = dflt /\ forall j, i <= j < i + Z.of_nat n -> p (Z.shiftr mask (4 * j)) = false)
  \/ (i <= l < i + Z.of_nat n /\ p (Z.shiftr mask (4 * l)) = true
      /\ forall j, i <= j < l -> p (Z.shiftr mask (4 * j)) = false).
Proof.
  induction n as [| n IH]; intros i dflt; cbn [scan].
  - left. split; [reflexivity | intros j Hj; lia].
  - destruct (p (Z.shiftr mask (4 * i))) eqn:Hp.
    + right. split; [lia | ]. split; [assumption | intros j Hj; lia].
    + destruct (IH (i + 1) dflt) as [[Hl Hall] | (Hl & Hpl & Hall)].
      * left. split; [assumption | ].
        intros j Hj. destruct (Z.eq_dec j i) as [-> | Hne]; [assumption | ].
        apply Hall. lia.
      * right. split; [lia | ]. split; [assumption | ].
        intros j Hj. destruct (Z.eq_dec j i) as [-> | Hne]; [assumption | ].
        apply Hall. lia.
Qed.

Lemma length_halfbytes (x : Z) (n : nat) : forall k, length (halfbytes x k n) = n.
Proof. induction n as [| n IH]; intros k; cbn; [reflexivity | f_equal; apply IH]. Qed.

Lemma lookup_halfbytes (x : Z) (n : nat) : forall k (j : nat),
  (j < n)%nat ->
  halfbytes x k n !! j = Some (uchar (Z.shiftr x (4 * (k + Z.of_nat j)))).
Proof.
  induction n as [| n IH]; intros k j Hj; [lia | ].
  destruct j as [| j]; cbn.
  - do 3 f_equal. lia.
  - rewrite IH by lia. do 4 f_equal. lia.
Qed.

Lemma pow2_split (a b : Z) : 0 <= a -> 0 <= b -> 2 ^ (a + b) = 2 ^ a * 2 ^ b.
Proof. intros. apply Z.pow_add_r; lia. Qed.

Lemma pow16_pow2 (k : Z) : 0 <= k -> 16 ^ k = 2 ^ (4 * k).
Proof. intros. change 16 with (2 ^ 4). rewrite <- Z.pow_mul_r by lia. reflexivity. Qed.

Lemma land_shiftr_mask (x j : Z) :
  0 <= j <= 7 -> Z.land x (Z.shiftr mask (4 * j)) = 2 ^ (28 - 4 * j) * (x / 2 ^ (28 - 4 * j)).
Proof. intros Hj. rewrite shiftr_mask by lia. apply land_neg_pow2. lia. Qed.

Lemma encodeInt_cases (x : Z) : - 2 ^ 31 <= x < 2 ^ 31 -> encodeInt_case x.
Proof.
  intros Hx.
  assert (Hinit : Z.land x mask = 2 ^ 28 * (x / 2 ^ 28)).
  { rewrite mask_eq. apply land_neg_pow2. lia. }
  assert (Hpos : forall j, 0 <= j <= 7 -> 0 < 2 ^ (28 - 4 * j)).
  { intros j Hj. apply Z.pow_pos_nonneg; lia. }
  pose proof (eq_refl (encodeInt x)) as Ee. unfold encodeInt at 2 in Ee.
  pose proof (eq_refl (encodeInt_l x)) as El. unfold encodeInt_l at 2 in El.
  cbv zeta in Ee, El.
  destruct (Z.eqb_spec (Z.land x mask) 0) as [H0 | H0].
  - (* leading zero nibbles *)
    assert (Hx0 : 0 <= x < 2 ^ 28).
    { rewrite Hinit in H0. Z.div_mod_to_equations. lia. }
    pose proof (scan_spec (fun m => negb (Z.land x m =? 0)) 8 0 8) as Hs.
    cbv zeta in Hs.
    set (l := scan _ 0 8 8) in *.
    assert (Hfalse : forall j, 0 <= j <= 7 ->
      negb (Z.land x (Z.shiftr mask (4 * j)) =? 0) = false -> x < 2 ^ (28 - 4 * j)).
    { intros j Hj Hb. apply negb_false_iff, Z.eqb_eq in Hb.
      rewrite land_shiftr_mask in Hb by lia.
      specialize (Hpos j Hj). Z.div_mod_to_equations. nia. }
    assert (Htrue : forall j, 0 <= j <= 7 ->
      negb (Z.land x (Z.shiftr mask (4 * j)) =? 0) = true -> 2 ^ (28 - 4 * j) <= x).
    { intros j Hj Hb. apply negb_true_iff, Z.eqb_neq in Hb.
      rewrite land_shiftr_mask in Hb by lia.
      specialize (Hpos j Hj).
      destruct (Z.lt_ge_cases x (2 ^ (28 - 4 * j))) as [Hlt | Hge]; [ | lia].
      rewrite Z.div_small in Hb by lia. lia. }
    destruct Hs as [[Hl Hall] | (Hl & Hpl & Hall)].
    + rewrite Hl in Ee, El.
      apply (leading_zeros x 8); try lia; try assumption.
      pose proof (Hfalse 7 ltac:(lia) (Hall 7 ltac:(lia))) as H7.
      change (2 ^ (28 - 4 * 7)) with 1 in H7. change (16 ^ (8 - 8)) with 1. lia.
    + assert (Hl1 : 1 <= l).
      { destruct (Z.eq_dec l 0) as [E | E]; [ | lia].
        rewrite E in Hpl. apply Htrue in Hpl; [ | lia]. change (2 ^ (28 - 4 * 0)) with (2 ^ 28) in Hpl. lia. }
      apply (leading_zeros x l); try lia; try assumption.
      * pose proof (Hfalse (l - 1) ltac:(lia) (Hall (l - 1) ltac:(lia))) as Hlt.
        rewrite pow16_pow2 by lia. replace (4 * (8 - l)) with (28 - 4 * (l - 1)) by lia. lia.
      * intros _. apply Htrue in Hpl; [ | lia].
        rewrite pow16_pow2 by lia. replace (4 * (7 - l)) with (28 - 4 * l) by lia. lia.
  - destruct (Z.eqb_spec (Z.land x mask) mask) as [H1 | H1].
    + (* leading 0xf nibbles *)
      assert (Hx0 : - 2 ^ 28 <= x < 0).
      { rewrite Hinit, mask_eq in H1. Z.div_mod_to_equations. lia. }
      pose proof (scan_spec (fun m => negb (Z.land x m =? m)) 8 0 7) as Hs.
      cbv zeta in Hs.
      set (l := scan _ 0 8 7) in *.
      assert (Hfalse : forall j, 0 <= j <= 7 ->
        negb (Z.land x (Z.shiftr mask (4 * j)) =? Z.shiftr mask (4 * j)) = false ->
        - 2 ^ (28 - 4 * j) <= x).
      { intros j Hj Hb. apply negb_false_iff, Z.eqb_eq in Hb.
        rewrite land_shiftr_mask in Hb by lia. rewrite shiftr_mask in Hb by lia.
        specialize (Hpos j Hj). Z.div_mod_to_equations. nia. }
      assert (Htrue : forall j, 0 <= j <= 7 ->
        negb (Z.land x (Z.shiftr mask (4 * j)) =? Z.shiftr mask (4 * j)) = true ->
        x < - 2 ^ (28 - 4 * j)).
      { intros j Hj Hb. apply negb_true_iff, Z.eqb_neq in Hb.
        rewrite land_shiftr_mask in Hb by lia. rewrite shiftr_mask in Hb by lia.
        specialize (Hpos j Hj).
        destruct (Z.lt_ge_cases x (- 2 ^ (28 - 4 * j))) as [Hlt | Hge]; [lia | ].
        exfalso. apply Hb.
        assert (x / 2 ^ (28 - 4 * j) = -1); [ | lia].
        Z.div_mod_to_equations. nia. }
      destruct Hs as [[Hl Hall] | (Hl & Hpl & Hall)].
      * rewrite Hl in Ee, El.
        apply (leading_ones x 7); try lia; try assumption.
        pose proof (Hfalse 7 ltac:(lia) (Hall 7 ltac:(lia))) as H7.
        change (2 ^ (28 - 4 * 7)) with 1 in H7. change (16 ^ (8 - 7)) with 16. lia.
      * assert (Hl1 : 1 <= l).
        { destruct (Z.eq_dec l 0) as [E | E]; [ | lia].
          rewrite E in Hpl. apply Htrue in Hpl; [ | lia].
          change (2 ^ (28 - 4 * 0)) with (2 ^ 28) in Hpl. lia. }
        apply (leading_ones x l); try lia; try assumption.
        -- pose proof (Hfalse (l - 1) ltac:(lia) (Hall (l - 1) ltac:(lia))) as Hlt.
           rewrite pow16_pow2 by lia. replace (4 * (8 - l)) with (28 - 4 * (l - 1)) by lia. lia.
        -- intros _. apply Htrue in Hpl; [ | lia].
           rewrite pow16_pow2 by lia. replace (4 * (7 - l)) with (28 - 4 * l) by lia. lia.
    + apply no_run; try assumption.
      rewrite Hinit in H0, H1. rewrite mask_eq in H1.
      Z.div_mod_to_equations. lia.
Qed.

(** ** The half-byte stream of a byte buffer *)

Lemma stream_lookup (data : list Z) : forall (di : nat) (h : nat) v,
  (h < 2)%nat ->
  stream data !! (2 * di + h)%nat = Some v ->
  exists b, data !! di = Some b /\ v = if Nat.eqb h 0 then Z.shiftr b 4 else Z.land b 15.
Proof.
  induction data as [| b data IH]; intros di h v Hh Hv; [discriminate | ].
  destruct di as [| di].
  - exists b. split; [reflexivity | ].
    destruct h as [| [| h]]; [ | | lia]; cbn in Hv |- *; congruence.
  - replace (2 * S di + h)%nat with (S (S (2 * di + h))) in Hv by lia.
    cbn in Hv. apply IH in Hv; [ | assumption]. exact Hv.
Qed.

Lemma length_stream (data : list Z) : length (stream data) = (2 * length data)%nat.
Proof. induction data as [| b data IH]; cbn; [reflexivity | rewrite IH; lia]. Qed.

Lemma read_half_stream (data : list Z) (di : nat) (half v : Z) :
  half = 0 \/ half = 1 ->
  stream data !! pos di half = Some v ->
  exists di' half',
    read_half data di half = Ok (v, di', half')
    /\ pos di' half' = S (pos di half) /\ (half' = 0 \/ half' = 1).
Proof.
  intros Hh Hv. unfold pos in Hv.
  apply stream_lookup in Hv as (b & Hb & ->); [ | destruct Hh as [-> | ->]; cbn; lia].
  unfold read_half, vec_get. rewrite Hb. cbn.
  destruct Hh as [-> | ->]; cbn.
  - exists di, 1. split; [reflexivity | ]. unfold pos. cbn. split; [lia | auto].
  - exists (S di), 0. split; [reflexivity | ]. unfold pos. cbn. split; [lia | auto].
Qed.

(** ** Reassembling an integer from its half bytes *)

Lemma lor_insert (lo nib c k : Z) :
  0 <= k -> 0 <= lo < 2 ^ k -> 0 <= nib < 16 ->
  Z.lor (lo + 2 ^ (k + 4) * c) (2 ^ k * nib) = lo + 2 ^ k * nib + 2 ^ (k + 4) * c.
Proof.
  intros Hk Hlo Hnib.
  assert (Hhi : Z.lor (2 ^ k * (16 * c)) (2 ^ k * nib) = 2 ^ k * (nib + 16 * c)).
  { rewrite !(Z.mul_comm (2 ^ k)), <- !Z.shiftl_mul_pow2 by lia.
    rewrite <- Z.shiftl_lor. f_equal.
    rewrite Z.lor_comm. apply (lor_disjoint nib c 4); lia. }
  rewrite pow2_split by lia. change (2 ^ 4) with 16.
  rewrite <- Z.mul_assoc, <- (lor_disjoint lo (16 * c) k) by lia.
  rewrite <- Z.lor_assoc, Hhi, lor_disjoint by lia. lia.
Qed.

Lemma int32_small (z : Z) : - 2 ^ 31 <= z < 2 ^ 31 -> int32 z = z.
Proof. intros Hz. unfold int32. rewrite Z.mod_small by lia. lia. Qed.

Lemma int32_range (z : Z) : - 2 ^ 31 <= int32 z < 2 ^ 31.
Proof. unfold int32. pose proof (Z.mod_pos_bound (z + 2 ^ 31) (2 ^ 32)). lia. Qed.

Lemma lor_step (x k m c : Z) :
  - 2 ^ 31 <= x < 2 ^ 31 -> 0 <= k < m -> m <= 8 -> (m = 8 -> c = 0) ->
  Z.lor (lowpart x k + 16 ^ m * c) (int32 (Z.shiftl ((x / 16 ^ k) mod 16) (k * 4)))
  = lowpart x (k + 1) + 16 ^ m * c.
Proof.
  intros Hx Hk Hm Hc.
  assert (Hnib : 0 <= (x / 16 ^ k) mod 16 < 16) by (apply Z.mod_pos_bound; lia).
  assert (H16 : 0 < 16 ^ k) by (apply Z.pow_pos_nonneg; lia).
  rewrite Z.shiftl_mul_pow2 by lia.
  replace (2 ^ (k * 4)) with (16 ^ k) by (rewrite pow16_pow2 by lia; f_equal; lia).
  unfold lowpart. destruct (Z.ltb_spec k 8) as [_ | ?]; [ | lia].
  destruct (Z.ltb_spec (k + 1) 8) as [Hk7 | Hk7].
  - (* the half byte lands below bit 28 *)
    assert (Hlt : 16 ^ k <= 16 ^ 6) by (apply Z.pow_le_mono_r; lia).
    rewrite int32_small by (change (16 ^ 6) with 16777216 in Hlt; nia).
    replace (16 ^ m * c) with (2 ^ (4 * k + 4) * (16 ^ (m - k - 1) * c)).
    2:{ rewrite Z.mul_assoc. f_equal.
        replace (4 * k + 4) with (4 * (k + 1)) by lia.
        rewrite <- pow16_pow2, <- Z.pow_add_r by lia. f_equal. lia. }
    rewrite (Z.mul_comm _ (16 ^ k)), (pow16_pow2 k) by lia.
    rewrite lor_insert; try lia.
    2:{ rewrite <- pow16_pow2 by lia. apply Z.mod_pos_bound. lia. }
    rewrite <- !pow16_pow2 by lia.
    rewrite (Z.pow_add_r 16 k 1) by lia. change (16 ^ 1) with 16.
    rewrite (Z.rem_mul_r x (16 ^ k) 16) by lia. reflexivity.
    rewrite <- pow16_pow2 by lia. assumption.
  - (* the last of eight half bytes: bits 28 to 31 *)
    assert (k = 7) by lia. subst k.
    assert (m = 8) by lia. subst m. rewrite (Hc eq_refl).
    change (16 ^ 7) with (2 ^ 28) in *.
    assert (Hq : int32 ((x / 2 ^ 28) mod 16 * 2 ^ 28) = 2 ^ 28 * (x / 2 ^ 28)).
    { unfold int32. Z.div_mod_to_equations. lia. }
    rewrite Hq, Z.mul_0_r, Z.add_0_r, lor_disjoint; try lia.
    + pose proof (Z.div_mod x (2 ^ 28)). lia.
    + apply Z.mod_pos_bound. lia.
Qed.

Lemma decodeInt_loop_spec (data : list Z) (x m c : Z) :
  - 2 ^ 31 <= x < 2 ^ 31 -> m <= 8 -> (m = 8 -> c = 0) ->
  forall (cnt : nat) (k : Z) (di : nat) (half : Z),
  half = 0 \/ half = 1 -> 0 <= k -> k + Z.of_nat cnt = m ->
  (forall j : nat, (j < cnt)%nat ->
     stream data !! (pos di half + j)%nat = Some ((x / 16 ^ (k + Z.of_nat j)) mod 16)) ->
  exists di' half',
    decodeInt_loop data cnt k di half (lowpart x k + 16 ^ m * c)
    = Ok (di', half', lowpart x m + 16 ^ m * c)
    /\ pos di' half' = (pos di half + cnt)%nat /\ (half' = 0 \/ half' = 1).
Proof.
  intros Hx Hm Hc cnt.
  induction cnt as [| cnt IH]; intros k di half Hh Hk Hkm Hs.
  - exists di, half. cbn. replace m with k by lia.
    split; [reflexivity | ]. split; [lia | assumption].
  - pose proof (Hs 0%nat ltac:(lia)) as H0.
    rewrite Nat.add_0_r, Z.add_0_r in H0.
    destruct (read_half_stream _ _ _ _ Hh H0) as (di1 & half1 & Hr & Hp & Hh1).
    cbn [decodeInt_loop]. rewrite Hr. cbn.
    rewrite lor_step by lia.
    destruct (IH (k + 1) di1 half1 Hh1 ltac:(lia) ltac:(lia)) as (di' & half' & Hd & Hp' & Hh').
    { intros j Hj. rewrite Hp. specialize (Hs (S j) ltac:(lia)).
      replace (pos di half + S j)%nat with (S (pos di half) + j)%nat in Hs by lia.
      replace (k + 1 + Z.of_nat j) with (k + Z.of_nat (S j)) by lia. exact Hs. }
    exists di', half'. split; [exact Hd | ]. split; [unfold pos in *; lia | assumption].
Qed.

Lemma at_stream_lookup (data : list Z) (p : nat) (hbs : list Z) :
  at_stream data p hbs ->
  forall (j : nat) (b : Z), hbs !! j = Some b -> stream data !! (p + j)%nat = Some (nibble b).
Proof.
  intros Hat j b Hb.
  rewrite <- lookup_drop, <- (lookup_take_lt _ (length hbs)).
  - rewrite Hat, list_lookup_fmap, Hb. reflexivity.
  - apply lookup_lt_Some in Hb. exact Hb.
Qed.

Lemma nibble_small (l : Z) : 0 <= l < 16 -> nibble (uchar l) = l.
Proof.
  intros Hl. unfold nibble, uchar. rewrite Z.mod_small by lia.
  change 15 with (Z.ones 4). rewrite Z.land_ones by lia. apply Z.mod_small. lia.
Qed.

Lemma at_stream_halfbytes (data : list Z) (p : nat) (h x : Z) (n : nat) :
  at_stream data p (h :: halfbytes x 0 n) ->
  forall j : nat, (j < n)%nat ->
    stream data !! (S p + j)%nat = Some ((x / 16 ^ (0 + Z.of_nat j)) mod 16).
Proof.
  intros Hat' j Hj. pose proof (at_stream_lookup _ _ _ Hat') as Hat.
  specialize (Hat (S j) (uchar (Z.shiftr x (4 * (0 + Z.of_nat j))))).
  replace (p + S j)%nat with (S p + j)%nat in Hat by lia.
  rewrite Hat.
  - rewrite nibble_div by lia. reflexivity.
  - cbn. apply lookup_halfbytes. assumption.
Qed.

Lemma fill_ones_spec (l : Z) :
  1 <= l <= 7 -> fill_ones 0 (Z.to_nat l) 0 = 16 ^ (8 - l) * -1.
Proof.
  intros Hl.
  assert (l = 1 \/ l = 2 \/ l = 3 \/ l = 4 \/ l = 5 \/ l = 6 \/ l = 7) as Hcase by lia.
  repeat destruct Hcase as [-> | Hcase]; try subst l; reflexivity.
Qed.

Lemma decodeInt_encodeInt_at (x : Z) (data : list Z) (di : nat) (half : Z) :
  - 2 ^ 31 <= x < 2 ^ 31 ->
  half = 0 \/ half = 1 ->
  at_stream data (pos di half) (encodeInt x) ->
  exists di' half',
    decodeInt data di half = Ok (di', half', x)
    /\ pos di' half' = (pos di half + length (encodeInt x))%nat
    /\ (half' = 0 \/ half' = 1).
Proof.
  intros Hx Hh Hat.
  destruct (encodeInt_cases x Hx) as [l Hl Hxl _ _ He | l Hl Hxl _ _ He | _ _ He];
    rewrite He in Hat |- *; cbn [length]; rewrite length_halfbytes.
  - (* header l, then 8 - l half bytes *)
    pose proof (at_stream_lookup _ _ _ Hat 0%nat _ eq_refl) as H0.
    rewrite Nat.add_0_r, nibble_small in H0 by lia.
    destruct (read_half_stream _ _ _ _ Hh H0) as (di1 & half1 & Hr & Hp & Hh1).
    unfold decodeInt. rewrite Hr. cbn.
    destruct (Z.leb_spec l 8) as [_ | ?]; [ | lia].
    destruct (Z.eqb_spec l 8) as [-> | Hne].
    + exists di1, half1. change (16 ^ (8 - 8)) with 1 in Hxl.
      replace x with 0 by lia. split; [reflexivity | ]. split; [unfold pos in *; lia | assumption].
    + destruct (decodeInt_loop_spec data x (8 - l) 0 Hx ltac:(lia) ltac:(lia)
                  (Z.to_nat (8 - l)) 0 di1 half1 Hh1 ltac:(lia) ltac:(lia))
        as (di' & half' & Hd & Hp' & Hh').
      { rewrite Hp. apply (at_stream_halfbytes _ _ _ _ _ Hat). }
      exists di', half'.
      replace (lowpart x 0 + 16 ^ (8 - l) * 0) with 0 in Hd
        by (unfold lowpart; cbn; rewrite Z.mod_1_r; lia).
      replace (lowpart x (8 - l) + 16 ^ (8 - l) * 0) with x in Hd.
      2:{ unfold lowpart. destruct (Z.ltb_spec (8 - l) 8) as [_ | ?]; [ | lia].
          rewrite Z.mod_small by lia. lia. }
      split; [exact Hd | ]. split; [unfold pos in *; lia | assumption].
  - (* header l + 8, the top l half bytes filled with ones *)
    pose proof (at_stream_lookup _ _ _ Hat 0%nat _ eq_refl) as H0.
    rewrite Nat.add_0_r, nibble_small in H0 by lia.
    destruct (read_half_stream _ _ _ _ Hh H0) as (di1 & half1 & Hr & Hp & Hh1).
    unfold decodeInt. rewrite Hr. cbn.
    destruct (Z.leb_spec (l + 8) 8) as [? | _]; [lia | ].
    replace (l + 8 - 8) with l by lia.
    destruct (Z.eqb_spec l 8) as [? | _]; [lia | ].
    rewrite fill_ones_spec by lia.
    destruct (decodeInt_loop_spec data x (8 - l) (-1) Hx ltac:(lia) ltac:(lia)
                (Z.to_nat (8 - l)) 0 di1 half1 Hh1 ltac:(lia) ltac:(lia))
      as (di' & half' & Hd & Hp' & Hh').
    { rewrite Hp. apply (at_stream_halfbytes _ _ _ _ _ Hat). }
    exists di', half'.
    replace (lowpart x 0 + 16 ^ (8 - l) * -1) with (16 ^ (8 - l) * -1) in Hd
      by (unfold lowpart; cbn; rewrite Z.mod_1_r; lia).
    replace (lowpart x (8 - l) + 16 ^ (8 - l) * -1) with x in Hd.
    2:{ unfold lowpart. destruct (Z.ltb_spec (8 - l) 8) as [_ | ?]; [ | lia].
        rewrite <- (Z.mod_unique x (16 ^ (8 - l)) (-1) (x + 16 ^ (8 - l))) by lia. lia. }
    split; [exact Hd | ]. split; [unfold pos in *; lia | assumption].
  - (* header 0, then all eight half bytes *)
    pose proof (at_stream_lookup _ _ _ Hat 0%nat _ eq_refl) as H0.
    rewrite Nat.add_0_r in H0. change (nibble 0) with 0 in H0.
    destruct (read_half_stream _ _ _ _ Hh H0) as (di1 & half1 & Hr & Hp & Hh1).
    unfold decodeInt. rewrite Hr. cbn.
    destruct (decodeInt_loop_spec data x 8 0 Hx ltac:(lia) ltac:(lia)
                8%nat 0 di1 half1 Hh1 ltac:(lia) ltac:(lia))
      as (di' & half' & Hd & Hp' & Hh').
    { rewrite Hp. apply (at_stream_halfbytes _ _ _ _ _ Hat). }
    exists di', half'.
    replace (lowpart x 0 + 16 ^ 8 * 0) with 0 in Hd
      by (unfold lowpart; cbn; rewrite Z.mod_1_r; lia).
    replace (lowpart x 8 + 16 ^ 8 * 0) with x in Hd by (unfold lowpart; cbn; lia).
    split; [exact Hd | ]. split; [unfold pos in *; lia | assumption].
Qed.

(** ** Packing *)

Lemma pair_ind {A} (P : list A -> Prop) :
  P [] -> (forall a, P [a]) -> (forall a b l, P l -> P (a :: b :: l)) ->
  forall l, P l.
Proof.
  intros H0 H1 H2.
  assert (H : forall l, P l /\ forall a, P (a :: l)).
  { induction l as [| b l [IH1 IH2]]; split; auto. }
  intros l. apply H.
Qed.

Lemma length_pack (hbs : list Z) : length (pack hbs) = (length hbs / 2)%nat.
Proof.
  induction hbs as [| a | a b l IH] using pair_ind; [reflexivity | reflexivity | ].
  cbn [pack length]. rewrite IH.
  replace (S (S (length l))) with (1 * 2 + length l)%nat by lia.
  rewrite (Nat.div_add_l 1 2 (length l)) by lia. reflexivity.
Qed.

Lemma blit_insert {A} (ri : nat) (b : A) (bytes result : list A) :
  (ri + S (length bytes) <= length result)%nat ->
  blit (S ri) bytes (<[ri:=b]> result) = blit ri (b :: bytes) result.
Proof.
  intros Hlen. unfold blit.
  rewrite take_insert_lt, drop_insert_lt by lia.
  destruct (lookup_lt_is_Some_2 result ri ltac:(lia)) as [x Hx].
  rewrite (take_S_r _ _ _ Hx).
  assert (Hlt : length (take ri result) = ri) by (rewrite length_take; lia).
  rewrite insert_app_r_alt by lia.
  rewrite Hlt, Nat.sub_diag. cbn.
  rewrite <- app_assoc. cbn. rewrite <- Nat.add_succ_r. reflexivity.
Qed.

Lemma length_blit {A} (ri : nat) (bytes result : list A) :
  (ri + length bytes <= length result)%nat -> length (blit ri bytes result) = length result.
Proof.
  intros Hlen. unfold blit. rewrite !length_app, length_take, length_drop. lia.
Qed.

Lemma pack_pairs_spec (hbs : list Z) : forall (ri : nat) (result : list Z),
  (ri + length (pack hbs) <= length result)%nat ->
  pack_pairs hbs ri result = Ok ((ri + length (pack hbs))%nat, blit ri (pack hbs) result).
Proof.
  induction hbs as [| a | a b l IH] using pair_ind; intros ri result Hlen.
  - cbn. rewrite Nat.add_0_r. unfold blit. cbn. rewrite Nat.add_0_r, take_drop. reflexivity.
  - cbn. rewrite Nat.add_0_r. unfold blit. cbn. rewrite Nat.add_0_r, take_drop. reflexivity.
  - cbn [pack pack_pairs length] in *. unfold vec_set.
    destruct (decide (ri < length result)%nat) as [_ | ?]; [ | lia]. cbn.
    rewrite IH by (rewrite length_insert; lia).
    rewrite blit_insert by lia. do 2 f_equal. lia.
Qed.

Lemma carry_over_cons2 (a b : Z) (l : list Z) : carry_over (a :: b :: l) = carry_over l.
Proof.
  unfold carry_over. cbn [length].
  change (S (S (length l))) with (2 + length l)%nat.
  replace ((2 + length l) mod 2)%nat with (length l mod 2)%nat.
  2:{ rewrite <- (Nat.Div0.add_mod_idemp_l 2 (length l) 2). reflexivity. }
  destruct (length l mod 2 =? 0)%nat eqn:E; [reflexivity | ].
  destruct l as [| c l]; [discriminate | reflexivity].
Qed.

Lemma length_carry_over (hbs : list Z) : length (carry_over hbs) = (length hbs mod 2)%nat.
Proof.
  induction hbs as [| a | a b l IH] using pair_ind; [reflexivity | reflexivity | ].
  rewrite carry_over_cons2, IH. cbn [length].
  change (S (S (length l))) with (2 + length l)%nat.
  rewrite <- (Nat.Div0.add_mod_idemp_l 2 (length l) 2). reflexivity.
Qed.

(** Packing in two rounds, the odd half byte carried over, stores the same
    bytes as packing at once. *)
Lemma pack_app (h1 h2 : list Z) :
  pack (h1 ++ h2) = pack h1 ++ pack (carry_over h1 ++ h2).
Proof.
  induction h1 as [| a | a b l IH] using pair_ind; [reflexivity | reflexivity | ].
  rewrite carry_over_cons2. cbn. rewrite IH. reflexivity.
Qed.

Lemma carry_over_app (h1 h2 : list Z) :
  carry_over (h1 ++ h2) = carry_over (carry_over h1 ++ h2).
Proof.
  induction h1 as [| a | a b l IH] using pair_ind; [reflexivity | reflexivity | ].
  rewrite carry_over_cons2. cbn [app]. rewrite carry_over_cons2. exact IH.
Qed.

Lemma carry_over_idemp (h : list Z) : carry_over (carry_over h) = carry_over h.
Proof.
  induction h as [| a | a b l IH] using pair_ind; [reflexivity | reflexivity | ].
  rewrite carry_over_cons2. exact IH.
Qed.

Lemma pack_carry_over (h : list Z) : pack (carry_over h) = [].
Proof.
  induction h as [| a | a b l IH] using pair_ind; [reflexivity | reflexivity | ].
  rewrite carry_over_cons2. exact IH.
Qed.

Lemma blit_blit {A} (ri : nat) (b1 b2 result : list A) :
  (ri + length b1 + length b2 <= length result)%nat ->
  blit (ri + length b1) b2 (blit ri b1 result) = blit ri (b1 ++ b2) result.
Proof.
  intros Hlen. unfold blit.
  assert (Ht : length (take ri result) = ri) by (rewrite length_take; lia).
  rewrite (app_assoc (take ri result) b1).
  assert (Ht' : length (take ri result ++ b1) = (ri + length b1)%nat)
    by (rewrite length_app; lia).
  rewrite take_app_length' by lia.
  rewrite drop_app_ge by lia. rewrite Ht', drop_drop, length_app, <- !app_assoc.
  do 4 f_equal. lia.
Qed.

(** The state of an encoder loop once the half bytes [H] are produced: what
    is stored in [result] from [ri0] on, [ri], and the half byte kept. *)
Lemma encode_step (H : list Z) (x : Z) (ri0 : nat) (result0 : list Z) :
  (ri0 + length (pack (H ++ encodeInt x)) <= length result0)%nat ->
  pack_pairs (carry_over H ++ encodeInt x) (ri0 + length (pack H)) (blit ri0 (pack H) result0)
  = Ok ((ri0 + length (pack (H ++ encodeInt x)))%nat, blit ri0 (pack (H ++ encodeInt x)) result0).
Proof.
  intros Hlen. rewrite pack_app, length_app in Hlen.
  rewrite pack_pairs_spec by (rewrite length_blit; lia).
  rewrite blit_blit by lia. rewrite <- pack_app, (pack_app H), length_app.
  do 2 f_equal. lia.
Qed.

Lemma length_pack_app_le (h1 h2 : list Z) :
  (length (pack h1) <= length (pack (h1 ++ h2)))%nat.
Proof. rewrite pack_app, length_app. lia. Qed.

(** ** The byte of two half bytes *)

Lemma byte_high (a b : Z) :
  Z.shiftr (uchar (Z.lor (Z.shiftl a 4) (Z.land b 15))) 4 = nibble a.
Proof.
  unfold uchar, nibble. change 15 with (Z.ones 4). rewrite !Z.land_ones by lia.
  rewrite Z.shiftl_mul_pow2, Z.shiftr_div_pow2, Z.lor_comm, Z.mul_comm by lia.
  rewrite lor_disjoint by (try apply Z.mod_pos_bound; lia).
  change (2 ^ 4) with 16. Z.div_mod_to_equations. lia.
Qed.

Lemma byte_low (a b : Z) :
  Z.land (uchar (Z.lor (Z.shiftl a 4) (Z.land b 15))) 15 = nibble b.
Proof.
  unfold uchar, nibble. change 15 with (Z.ones 4). rewrite !Z.land_ones by lia.
  rewrite Z.shiftl_mul_pow2, Z.lor_comm, Z.mul_comm by lia.
  rewrite lor_disjoint by (try apply Z.mod_pos_bound; lia).
  change (2 ^ 4) with 16. Z.div_mod_to_equations. lia.
Qed.

Lemma pad_high (h : Z) : Z.shiftr (uchar (Z.shiftl h 4)) 4 = nibble h.
Proof.
  unfold uchar, nibble. change 15 with (Z.ones 4). rewrite Z.land_ones by lia.
  rewrite Z.shiftl_mul_pow2, Z.shiftr_div_pow2 by lia.
  change (2 ^ 4) with 16. Z.div_mod_to_equations. lia.
Qed.

Lemma pad_low (h : Z) : Z.land (uchar (Z.shiftl h 4)) 15 = 0.
Proof.
  unfold uchar. change 15 with (Z.ones 4). rewrite Z.land_ones by lia.
  rewrite Z.shiftl_mul_pow2 by lia.
  change (2 ^ 4) with 16. Z.div_mod_to_equations. lia.
Qed.

Lemma stream_app (d1 d2 : list Z) : stream (d1 ++ d2) = stream d1 ++ stream d2.
Proof. induction d1 as [| b d1 IH]; cbn; [reflexivity | rewrite IH; reflexivity]. Qed.

Lemma stream_packed (hbs : list Z) : stream (packed hbs) = (nibble <$> hbs) ++ padding hbs.
Proof.
  unfold packed, last_byte, padding.
  induction hbs as [| a | a b l IH] using pair_ind.
  - reflexivity.
  - cbn. rewrite pad_high, pad_low. reflexivity.
  - rewrite carry_over_cons2. cbn [pack app stream fmap list_fmap length].
    rewrite byte_high, byte_low. rewrite IH.
    replace (S (S (length l))) with (2 + length l)%nat by lia.
    rewrite <- (Nat.Div0.add_mod_idemp_l 2 (length l) 2). reflexivity.
Qed.

Lemma flush_spec (H : list Z) (ri0 : nat) (result0 : list Z) :
  (ri0 + length (packed H) <= length result0)%nat ->
  flush (carry_over H) (ri0 + length (pack H)) (blit ri0 (pack H) result0)
  = Ok (blit ri0 (packed H) result0, (ri0 + length (packed H))%nat).
Proof.
  unfold packed, last_byte. intros Hlen. rewrite length_app in Hlen.
  pose proof (length_carry_over H) as Hc.
  pose proof (Nat.mod_upper_bound (length H) 2 ltac:(lia)) as Hm.
  destruct (carry_over H) as [| h [| h' t]]; cbn [flush length] in *.
  - rewrite !app_nil_r. reflexivity.
  - unfold vec_set. rewrite length_blit by lia.
    destruct (decide (ri0 + length (pack H) < length result0)%nat) as [_ | ?]; [ | lia].
    cbn. rewrite <- (blit_blit ri0 (pack H) [_]) by (cbn; lia).
    rewrite <- (blit_insert _ _ []) by (rewrite length_blit; cbn; lia).
    rewrite length_app. cbn.
    replace (blit (S (ri0 + length (pack H))) [] _) with
      (<[(ri0 + length (pack H))%nat:=uchar (Z.shiftl h 4)]> (blit ri0 (pack H) result0)).
    2:{ unfold blit at 2. cbn. rewrite Nat.add_0_r, take_drop. reflexivity. }
    do 2 f_equal. lia.
  - lia.
Qed.

Lemma blit_nil {A} (ri : nat) (result : list A) : blit ri [] result = result.
Proof. unfold blit. cbn. rewrite Nat.add_0_r. apply take_drop. Qed.

Lemma vec_set_blit {A} (b : buffer) (ri0 : nat) (vs result0 : list A) (v : A) :
  (ri0 + length vs < length result0)%nat ->
  vec_set b (blit ri0 vs result0) (ri0 + length vs) v = Ok (blit ri0 (vs ++ [v]) result0).
Proof.
  intros Hlen. unfold vec_set. rewrite length_blit by lia.
  destruct (decide (ri0 + length vs < length result0)%nat) as [_ | ?]; [ | lia].
  rewrite <- (blit_blit ri0 vs [v]) by (cbn; lia).
  rewrite <- (blit_insert _ _ []) by (rewrite length_blit; cbn; lia).
  rewrite blit_nil. reflexivity.
Qed.

(** ** The encoder loops *)

Lemma hb_stream_cons (x : Z) (xs : list Z) : hb_stream (x :: xs) = encodeInt x ++ hb_stream xs.
Proof. reflexivity. Qed.

Lemma encodeCount_loop_spec (post : list double) (ri0 : nat) (result0 : list Z) :
  forall (ds : list double) (cs : list Z),
  Forall2 (fun d c => to_size_t (dadd d d0_5) = Ok c) ds cs ->
  forall (pre : list double) (H : list Z),
  (ri0 + length (pack (H ++ hb_stream (int32 <$> cs))) <= length result0)%nat ->
  encodeCount_loop (length ds) (length pre) (pre ++ ds ++ post)
    (carry_over H) (ri0 + length (pack H)) (blit ri0 (pack H) result0)
  = Ok (carry_over (H ++ hb_stream (int32 <$> cs)),
        (ri0 + length (pack (H ++ hb_stream (int32 <$> cs))))%nat,
        blit ri0 (pack (H ++ hb_stream (int32 <$> cs))) result0).
Proof.
  induction 1 as [| d c ds cs Hc _ IH]; intros pre H Hlen.
  - cbn. rewrite app_nil_r. reflexivity.
  - cbn [length encodeCount_loop]. unfold vec_get.
    rewrite lookup_app_r, Nat.sub_diag by lia. cbn [app lookup list_lookup mbind outcome_bind].
    rewrite Hc. cbn [mbind outcome_bind].
    rewrite fmap_cons, hb_stream_cons, app_assoc in Hlen |- *.
    rewrite encode_step.
    2:{ pose proof (length_pack_app_le (H ++ encodeInt (int32 c)) (hb_stream (int32 <$> cs))). lia. }
    cbn [mbind outcome_bind]. rewrite <- carry_over_app.
    specialize (IH (pre ++ [d]) (H ++ encodeInt (int32 c)) Hlen).
    rewrite length_app, <- app_assoc in IH. cbn in IH.
    replace (S (length pre)) with (length pre + 1)%nat by lia. exact IH.
Qed.

Lemma encodeLinear_loop_spec (post : list double) (ri0 : nat) (result0 : list Z) :
  forall (ds : list double) (ks : list Z),
  Forall2 (fun d k => fixed_point d = Ok k) ds ks ->
  forall (pre : list double) (H : list Z) (k0 k1 : Z),
  (ri0 + length (pack (H ++ hb_stream (residuals k0 k1 ks))) <= length result0)%nat ->
  encodeLinear_loop (length ds) (length pre) (pre ++ ds ++ post) k0 k1
    (carry_over H) (ri0 + length (pack H)) (blit ri0 (pack H) result0)
  = Ok (carry_over (H ++ hb_stream (residuals k0 k1 ks)),
        (ri0 + length (pack (H ++ hb_stream (residuals k0 k1 ks))))%nat,
        blit ri0 (pack (H ++ hb_stream (residuals k0 k1 ks))) result0).
Proof.
  induction 1 as [| d k ds ks Hk _ IH]; intros pre H k0 k1 Hlen.
  - cbn. rewrite app_nil_r. reflexivity.
  - cbn [length encodeLinear_loop]. unfold vec_get.
    rewrite lookup_app_r, Nat.sub_diag by lia. cbn [app lookup list_lookup mbind outcome_bind].
    rewrite Hk. cbn [mbind outcome_bind].
    cbn [residuals] in Hlen |- *. rewrite hb_stream_cons, app_assoc in Hlen |- *.
    fold (residual k0 k1 k).
    rewrite encode_step.
    2:{ pose proof (length_pack_app_le (H ++ encodeInt (residual k0 k1 k))
                      (hb_stream (residuals k1 k ks))). lia. }
    cbn [mbind outcome_bind]. rewrite <- carry_over_app.
    specialize (IH (pre ++ [d]) (H ++ encodeInt (residual k0 k1 k)) k1 k Hlen).
    rewrite length_app, <- app_assoc in IH. cbn in IH.
    replace (S (length pre)) with (length pre + 1)%nat by lia. exact IH.
Qed.

(** ** The fixed-point header *)

Lemma vec_set_ok {A} (b : buffer) (v : list A) (i : nat) (x : A) :
  (i < length v)%nat -> vec_set b v i x = Ok (<[i:=x]> v).
Proof. intros Hi. unfold vec_set. destruct (decide (i < length v)%nat); [reflexivity | lia]. Qed.

Lemma vec_set_out {A} (b : buffer) (v : list A) (i : nat) (x : A) :
  (length v <= i)%nat -> vec_set b v i x = OutOfRange b i.
Proof. intros Hi. unfold vec_set. destruct (decide (i < length v)%nat); [lia | reflexivity]. Qed.

Lemma write_header_spec (k1 k2 : Z) (result : list Z) :
  (8 <= length result)%nat ->
  write_header 4 0 k1 k2 result = Ok (le32 k1 ++ le32 k2 ++ drop 8 result).
Proof.
  intros Hlen. cbn [write_header].
  repeat (rewrite vec_set_ok by (rewrite ?length_insert; cbn; lia); cbn [mbind outcome_bind]).
  do 8 (destruct result as [| ? result]; [cbn in Hlen; lia | ]).
  reflexivity.
Qed.

Lemma write_header_short (k1 k2 : Z) (result : list Z) :
  (length result < 8)%nat ->
  exists i, write_header 4 0 k1 k2 result = OutOfRange Result i.
Proof.
  intros Hlen.
  do 8 (try destruct result as [| ? result]); cbn in Hlen; try lia;
    cbv; eexists; reflexivity.
Qed.

Lemma le32_value (k : Z) :
  0 <= k < 2 ^ 32 ->
  match le32 k with
  | [b0; b1; b2; b3] =>
      Z.lor (Z.lor (Z.lor (Z.lor 0 (int32 (Z.shiftl (Z.land 255 b0) (0 * 8))))
                          (int32 (Z.shiftl (Z.land 255 b1) (1 * 8))))
                   (int32 (Z.shiftl (Z.land 255 b2) (2 * 8))))
            (int32 (Z.shiftl (Z.land 255 b3) (3 * 8)))
  | _ => 0
  end = int32 k.
Proof.
  intros Hk. unfold le32.
  rewrite !(Z.land_comm 255). change 255 with (Z.ones 8).
  rewrite !Z.land_ones, !Z.shiftr_div_pow2, !Z.shiftl_mul_pow2 by lia.
  rewrite !Zmod_mod.
  change (2 ^ 0) with 1. change (2 ^ (0 * 8)) with 1. rewrite Z.div_1_r, Z.mul_1_r.
  set (b0 := k mod 2 ^ 8). set (b1 := (k / 2 ^ 8) mod 2 ^ 8).
  set (b2 := (k / 2 ^ 16) mod 2 ^ 8). set (b3 := (k / 2 ^ 24) mod 2 ^ 8).
  assert (H0 : 0 <= b0 < 2 ^ 8) by (apply Z.mod_pos_bound; lia).
  assert (H1 : 0 <= b1 < 2 ^ 8) by (apply Z.mod_pos_bound; lia).
  assert (H2 : 0 <= b2 < 2 ^ 8) by (apply Z.mod_pos_bound; lia).
  assert (H3 : 0 <= b3 < 2 ^ 8) by (apply Z.mod_pos_bound; lia).
  assert (Hsum : k = b0 + 2 ^ 8 * b1 + 2 ^ 16 * b2 + 2 ^ 24 * b3).
  { subst b0 b1 b2 b3. Z.div_mod_to_equations. lia. }
  rewrite (int32_small b0), (int32_small (b1 * _)), (int32_small (b2 * _)) by lia.
  assert (H3' : int32 (b3 * 2 ^ (3 * 8)) = 2 ^ 24 * (b3 - 256 * (b3 / 128))).
  { unfold int32. Z.div_mod_to_equations. lia. }
  rewrite H3', Z.lor_0_l.
  rewrite (Z.mul_comm b1), (Z.mul_comm b2).
  change (1 * 8) with 8. change (2 * 8) with 16.
  rewrite (lor_disjoint b0 b1 8) by lia.
  rewrite (lor_disjoint _ b2 16) by lia.
  rewrite (lor_disjoint _ _ 24) by lia.
  clearbody b0 b1 b2 b3. subst k. unfold int32. Z.div_mod_to_equations. lia.
Qed.

Lemma read_header_spec (k1 k2 : Z) (rest : list Z) :
  0 <= k1 < 2 ^ 32 -> 0 <= k2 < 2 ^ 32 ->
  read_header 4 0 (le32 k1 ++ le32 k2 ++ rest) 0 0 = Ok (int32 k1, int32 k2).
Proof.
  intros H1 H2.
  pose proof (le32_value k1 H1) as E1. pose proof (le32_value k2 H2) as E2.
  unfold le32 in *. cbn [read_header app vec_get lookup list_lookup Nat.add mbind outcome_bind].
  change (Z.of_nat 0) with 0. change (Z.of_nat 1) with 1.
  change (Z.of_nat 2) with 2. change (Z.of_nat 3) with 3.
  rewrite E1, E2. reflexivity.
Qed.

(** ** Length of one encoding *)

Lemma length_encodeInt (x : Z) :
  - 2 ^ 31 <= x < 2 ^ 31 ->
  0 <= encodeInt_l x <= 8
  /\ Z.of_nat (length (encodeInt x)) = 1 + (8 - encodeInt_l x).
Proof.
  intros Hx.
  destruct (encodeInt_cases x Hx) as [l Hl _ _ El He | l Hl _ _ El He | _ El He];
    rewrite El, He; cbn [length]; rewrite length_halfbytes; lia.
Qed.

Lemma encodeInt_single (x : Z) :
  - 2 ^ 31 <= x < 2 ^ 31 -> length (encodeInt x) = 1%nat -> encodeInt x = [8].
Proof.
  intros Hx Hlen.
  destruct (encodeInt_cases x Hx) as [l Hl _ _ El He | l Hl _ _ El He | _ El He];
    rewrite He in Hlen |- *; cbn [length] in Hlen; rewrite length_halfbytes in Hlen; try lia.
  replace l with 8 by lia. reflexivity.
Qed.

(** ** The decoder loops on the bytes an encoder stores *)

Lemma pos_lt (data : list Z) (di : nat) (half : Z) :
  half = 0 \/ half = 1 ->
  (pos di half < 2 * length data)%nat <-> (di < length data)%nat.
Proof. intros [-> | ->]; unfold pos; cbn; lia. Qed.

Lemma decode_step (data : list Z) (di : nat) (half x : Z) (rest pad : list Z) :
  - 2 ^ 31 <= x < 2 ^ 31 ->
  remaining data di half (encodeInt x ++ rest) pad ->
  (di < length data)%nat
  /\ trailing_break data di half = Ok false
  /\ exists di' half',
       decodeInt data di half = Ok (di', half', x)
       /\ remaining data di' half' rest pad
       /\ (pos di half < pos di' half')%nat.
Proof.
  intros Hx [Hh Hdrop].
  destruct (length_encodeInt x Hx) as [Hl Hlen].
  assert (Hcount : (2 * length data - pos di half
                    = length (encodeInt x) + length rest + length pad)%nat).
  { rewrite <- length_stream, <- length_drop, Hdrop.
    rewrite length_app, length_fmap, length_app. lia. }
  assert (Hdi : (di < length data)%nat) by (apply (pos_lt data di half Hh); lia).
  split; [exact Hdi | ]. split.
  - unfold trailing_break.
    destruct (Nat.eqb_spec di (length data - 1)) as [Hlast | _]; [ | reflexivity].
    destruct (Z.eqb_spec half 1) as [Hhalf | _]; [ | reflexivity].
    cbn [andb].
    assert (Hp : pos di half = (2 * length data - 1)%nat) by (unfold pos; subst half; cbn; lia).
    assert (He : encodeInt x = [8]) by (apply encodeInt_single; [exact Hx | lia]).
    assert (Hs : stream data !! pos di half = Some 8).
    { rewrite <- (Nat.add_0_r (pos di half)), <- lookup_drop, Hdrop, He. reflexivity. }
    unfold pos in Hs. subst half.
    apply stream_lookup in Hs as (b & Hb & Hv); [ | cbn; lia].
    unfold vec_get. rewrite Hb. change (Z.to_nat 1) with 1%nat in Hv.
    cbn [Nat.eqb] in Hv. cbn [mbind outcome_bind]. rewrite <- Hv. reflexivity.
  - assert (Hat : at_stream data (pos di half) (encodeInt x)).
    { unfold at_stream. rewrite Hdrop, fmap_app, <- app_assoc.
      apply take_app_length'. rewrite length_fmap. reflexivity. }
    destruct (decodeInt_encodeInt_at x data di half Hx Hh Hat) as (di' & half' & Hd & Hp & Hh').
    exists di', half'. split; [exact Hd | ]. split; [ | lia].
    split; [exact Hh' | ].
    rewrite Hp, <- drop_drop, Hdrop, fmap_app, <- app_assoc.
    apply drop_app_length'. rewrite length_fmap. reflexivity.
Qed.

Lemma decode_end (data : list Z) (di : nat) (half : Z) (pad : list Z) :
  remaining data di half [] pad ->
  (pad = [] -> ~ (di < length data)%nat)
  /\ (pad = [0] -> (di < length data)%nat /\ trailing_break data di half = Ok true).
Proof.
  intros [Hh Hdrop]. cbn [fmap list_fmap app] in Hdrop.
  assert (Hcount : (2 * length data - pos di half = length pad)%nat).
  { rewrite <- length_stream, <- length_drop, Hdrop. reflexivity. }
  split; intros ->; cbn [length] in Hcount.
  - rewrite <- (pos_lt data di half Hh). lia.
  - assert (Hdi : (di < length data)%nat) by (apply (pos_lt data di half Hh); lia).
    split; [exact Hdi | ].
    assert (Hs : stream data !! pos di half = Some 0).
    { rewrite <- (Nat.add_0_r (pos di half)), <- lookup_drop, Hdrop. reflexivity. }
    assert (Hhalf : half = 1 /\ di = (length data - 1)%nat)
      by (destruct Hh as [-> | ->]; unfold pos in Hcount; cbn in Hcount; lia).
    destruct Hhalf as [-> Hlast]. unfold pos in Hs.
    apply stream_lookup in Hs as (b & Hb & Hv); [ | cbn; lia].
    unfold trailing_break, vec_get.
    rewrite <- Hlast, Nat.eqb_refl, Hb. change (Z.to_nat 1) with 1%nat in Hv.
    cbn [Nat.eqb] in Hv. cbn [mbind outcome_bind andb Z.eqb]. rewrite <- Hv. reflexivity.
Qed.

Lemma fuel_left (data : list Z) (di : nat) (half : Z) (fuel : nat) :
  half = 0 \/ half = 1 -> (di < length data)%nat ->
  (2 * length data <= fuel + pos di half)%nat ->
  exists fuel', fuel = S fuel'.
Proof.
  intros Hh Hdi Hfuel. apply (pos_lt data di half Hh) in Hdi.
  destruct fuel as [| fuel']; [lia | eauto].
Qed.

Lemma decodeCount_loop_spec (data : list Z) (pad : list Z) (result0 : list double) :
  pad = [] \/ pad = [0] ->
  forall (xs : list Z),
  Forall (fun x => - 2 ^ 31 <= x < 2 ^ 31) xs ->
  forall (fuel : nat) (di : nat) (half : Z) (vs : list double),
  remaining data di half (hb_stream xs) pad ->
  (2 * length data <= fuel + pos di half)%nat ->
  (length vs + length xs <= length result0)%nat ->
  decodeCount_loop fuel data di half (length vs) (blit 0 vs result0)
  = Ok ((length vs + length xs)%nat, blit 0 (vs ++ (of_int <$> xs)) result0).
Proof.
  intros Hpad xs Hxs.
  induction Hxs as [| x xs Hx _ IH]; intros fuel di half vs Hrem Hfuel Hlen.
  - destruct (decode_end _ _ _ _ Hrem) as [Hnil Hzero].
    cbn [fmap list_fmap length]. rewrite app_nil_r, Nat.add_0_r.
    destruct fuel as [| fuel']; cbn [decodeCount_loop];
      destruct (decide (di < length data)%nat) as [Hdi | Hdi]; try reflexivity;
      destruct Hpad as [-> | ->]; try (exfalso; apply Hnil; [reflexivity | exact Hdi]).
    + destruct Hrem as [Hh _]. apply (pos_lt data di half Hh) in Hdi. lia.
    + destruct (Hzero eq_refl) as [_ ->]. reflexivity.
  - rewrite hb_stream_cons in Hrem.
    destruct (decode_step _ _ _ _ _ _ Hx Hrem) as (Hdi & Hbrk & di' & half' & Hd & Hrem' & Hp).
    destruct (fuel_left data di half fuel (proj1 Hrem) Hdi Hfuel) as [fuel' ->].
    cbn [decodeCount_loop].
    destruct (decide (di < length data)%nat) as [_ | ?]; [ | lia].
    rewrite Hbrk. cbn [mbind outcome_bind]. rewrite Hd. cbn [mbind outcome_bind].
    cbn [length] in Hlen.
    rewrite (vec_set_blit Result 0 vs result0) by lia. cbn [mbind outcome_bind].
    specialize (IH fuel' di' half' (vs ++ [of_int x]) Hrem' ltac:(lia)).
    rewrite length_app in IH. cbn [length] in IH.
    replace (S (length vs)) with (length vs + 1)%nat by lia.
    rewrite IH by lia. cbn [fmap list_fmap length]. rewrite <- app_assoc.
    do 2 f_equal. lia.
Qed.

Lemma predict_residual (k0 k1 k : Z) :
  int32 (int32 (int32 k1 + int32 (int32 k1 - int32 k0)) + residual k0 k1 k) = int32 k.
Proof. unfold residual, int32, uint32. Z.div_mod_to_equations. lia. Qed.

Lemma decodeLinear_loop_spec (data : list Z) (pad : list Z) (result0 : list double) :
  pad = [] \/ pad = [0] ->
  forall (ks : list Z) (fuel : nat) (di : nat) (half : Z) (k0 k1 : Z) (vs : list double),
  remaining data di half (hb_stream (residuals k0 k1 ks)) pad ->
  (2 * length data <= fuel + pos di half)%nat ->
  (length vs + length ks <= length result0)%nat ->
  decodeLinear_loop fuel data di half (int32 k0) (int32 k1) (length vs) (blit 0 vs result0)
  = Ok ((length vs + length ks)%nat, blit 0 (vs ++ (unfix <$> ks)) result0).
Proof.
  intros Hpad ks.
  induction ks as [| k ks IH]; intros fuel di half k0 k1 vs Hrem Hfuel Hlen.
  - destruct (decode_end _ _ _ _ Hrem) as [Hnil Hzero].
    cbn [fmap list_fmap length]. rewrite app_nil_r, Nat.add_0_r.
    destruct fuel as [| fuel']; cbn [decodeLinear_loop];
      destruct (decide (di < length data)%nat) as [Hdi | Hdi]; try reflexivity;
      destruct Hpad as [-> | ->]; try (exfalso; apply Hnil; [reflexivity | exact Hdi]).
    + destruct Hrem as [Hh _]. apply (pos_lt data di half Hh) in Hdi. lia.
    + destruct (Hzero eq_refl) as [_ ->]. reflexivity.
  - cbn [residuals] in Hrem. rewrite hb_stream_cons in Hrem.
    assert (Hx : - 2 ^ 31 <= residual k0 k1 k < 2 ^ 31) by apply int32_range.
    destruct (decode_step _ _ _ _ _ _ Hx Hrem) as (Hdi & Hbrk & di' & half' & Hd & Hrem' & Hp).
    destruct (fuel_left data di half fuel (proj1 Hrem) Hdi Hfuel) as [fuel' ->].
    cbn [decodeLinear_loop].
    destruct (decide (di < length data)%nat) as [_ | ?]; [ | lia].
    rewrite Hbrk. cbn [mbind outcome_bind]. rewrite Hd. cbn [mbind outcome_bind].
    cbn [length] in Hlen.
    rewrite predict_residual. fold (unfix k).
    rewrite (vec_set_blit Result 0 vs result0) by lia. cbn [mbind outcome_bind].
    specialize (IH fuel' di' half' k1 k (vs ++ [unfix k]) Hrem' ltac:(lia)).
    rewrite length_app in IH. cbn [length] in IH.
    replace (S (length vs)) with (length vs + 1)%nat by lia.
    rewrite IH by lia. cbn [fmap list_fmap length]. rewrite <- app_assoc.
    do 2 f_equal. lia.
Qed.

(** ** Whole-array round trips *)

Lemma to_integer_range (lo hi : Z) (d : double) (z : Z) :
  to_integer lo hi d = Ok z -> lo <= z <= hi.
Proof.
  unfold to_integer. destruct (trunc d) as [t | ]; [ | discriminate].
  destruct (Z.leb_spec lo t), (Z.leb_spec t hi); cbn; intros E; inversion E; subst; lia.
Qed.

Lemma fixed_point_range (d : double) (k : Z) : fixed_point d = Ok k -> 0 <= k < 2 ^ 32.
Proof. intros E. apply to_integer_range in E. lia. Qed.

Lemma length_hb_stream (xs : list Z) :
  Forall (fun x => - 2 ^ 31 <= x < 2 ^ 31) xs ->
  (length (hb_stream xs) <= 9 * length xs)%nat.
Proof.
  induction 1 as [| x xs Hx _ IH]; [cbn; lia | ].
  rewrite hb_stream_cons, length_app. cbn [length].
  destruct (length_encodeInt x Hx) as [Hl Hlen]. lia.
Qed.

Lemma length_packed (hbs : list Z) : length (packed hbs) = ((length hbs + 1) / 2)%nat.
Proof.
  unfold packed, last_byte. rewrite length_app, length_pack.
  pose proof (length_carry_over hbs) as Hc.
  pose proof (Nat.div_mod_eq (length hbs) 2) as Hdm.
  pose proof (Nat.mod_upper_bound (length hbs) 2 ltac:(lia)) as Hm.
  destruct (carry_over hbs) as [| h [| h' t]]; cbn [length] in *; try lia.
  - apply (Nat.div_unique _ 2 _ 1); lia.
  - apply (Nat.div_unique _ 2 _ 0); lia.
Qed.

Lemma padding_cases (hbs : list Z) : padding hbs = [] \/ padding hbs = [0].
Proof. unfold padding. destruct (_ =? _)%nat; auto. Qed.

Lemma remaining_packed (pre hbs : list Z) :
  remaining (pre ++ packed hbs) (length pre) 0 hbs (padding hbs).
Proof.
  split; [auto | ].
  rewrite stream_app, stream_packed.
  apply drop_app_length'. unfold pos. rewrite length_stream. cbn. lia.
Qed.

Lemma resize_blit {A} (dflt : A) (vs result : list A) (n : nat) :
  n = length vs -> (n <= length result)%nat -> resize n dflt (blit 0 vs result) = vs.
Proof.
  intros -> Hlen. unfold resize, blit. rewrite take_0. cbn [app Nat.add].
  rewrite take_app_length, length_app, length_drop.
  replace (length vs - _)%nat with 0%nat by lia. apply app_nil_r.
Qed.

Lemma take_blit {A} (pre vs result : list A) :
  (length pre + length vs <= length pre + length result)%nat ->
  take (length pre + length vs) (blit (length pre) vs (pre ++ result)) = pre ++ vs.
Proof.
  intros Hlen. unfold blit. rewrite take_app_length, app_assoc.
  apply take_app_length'. rewrite length_app. reflexivity.
Qed.

Lemma take_blit_0 {A} (vs result : list A) :
  take (length vs) (blit 0 vs result) = vs.
Proof. unfold blit. rewrite take_0. cbn [app]. apply take_app_length. Qed.

Lemma blit_after {A} (pre vs rest : list A) :
  blit (length pre) vs (pre ++ rest) = pre ++ vs ++ drop (length vs) rest.
Proof.
  unfold blit. rewrite take_app_length, drop_app_ge by lia.
  do 3 f_equal. lia.
Qed.

Lemma Forall2_int32_range {A} (R : A -> Z -> Prop) (ds : list A) (cs : list Z) :
  Forall2 R ds cs -> Forall (fun x => - 2 ^ 31 <= x < 2 ^ 31) (int32 <$> cs).
Proof.
  induction 1; cbn; constructor; [apply int32_range | assumption].
Qed.

Lemma encodeCount_packed (ds : list double) (cs : list Z) (result0 : list Z) :
  Forall2 (fun d c => to_size_t (dadd d d0_5) = Ok c) ds cs ->
  (length (packed (hb_stream (int32 <$> cs))) <= length result0)%nat ->
  encodeCount ds (length ds) result0
  = Ok (blit 0 (packed (hb_stream (int32 <$> cs))) result0,
        length (packed (hb_stream (int32 <$> cs)))).
Proof.
  intros Hcs Hlen. unfold encodeCount.
  pose proof (encodeCount_loop_spec [] 0 result0 ds cs Hcs [] []) as Hloop.
  rewrite app_nil_r in Hloop. cbn [app length pack carry_over Nat.add] in Hloop.
  rewrite blit_nil in Hloop. change (carry_over []) with (@nil Z) in Hloop.
  rewrite Hloop.
  2:{ unfold packed in Hlen. rewrite length_app in Hlen. lia. }
  cbn [mbind outcome_bind].
  apply (flush_spec _ 0 result0). exact Hlen.
Qed.

Lemma decodeCount_packed (xs : list Z) (result : list double) :
  Forall (fun x => - 2 ^ 31 <= x < 2 ^ 31) xs ->
  (length xs <= length result)%nat ->
  decodeCount (packed (hb_stream xs)) result = Ok (of_int <$> xs).
Proof.
  intros Hxs Hlen. unfold decodeCount.
  pose proof (decodeCount_loop_spec (packed (hb_stream xs)) (padding (hb_stream xs)) result
                (padding_cases _) xs Hxs (2 * length (packed (hb_stream xs))) 0 0 []
                (remaining_packed [] _) ltac:(lia) Hlen) as Hloop.
  rewrite blit_nil in Hloop. cbn [length app Nat.add] in Hloop.
  rewrite Hloop. cbn [mbind outcome_bind]. f_equal.
  apply resize_blit; [rewrite length_fmap; reflexivity | exact Hlen].
Qed.

(** [decodeCount] after [encodeCount]: every count comes back as the
    [int] it was encoded as. *)
Lemma count_round_trip (ds : list double) (cs : list Z) (result0 : list Z) (result : list double) :
  Forall2 (fun d c => to_size_t (dadd d d0_5) = Ok c) ds cs ->
  (5 * length ds <= length result0)%nat ->
  (length ds <= length result)%nat ->
  exists res n,
    encodeCount ds (length ds) result0 = Ok (res, n)
    /\ (n <= 5 * length ds)%nat
    /\ decodeCount (take n res) result = Ok (of_int <$> (int32 <$> cs)).
Proof.
  intros Hcs Hcap Hres.
  pose proof (Forall2_int32_range _ _ _ Hcs) as Hxs.
  pose proof (length_hb_stream _ Hxs) as Hhb.
  pose proof (Forall2_length _ _ _ Hcs) as Hl.
  rewrite length_fmap in Hhb.
  assert (Hp : (length (packed (hb_stream (int32 <$> cs))) <= 5 * length ds)%nat).
  { rewrite length_packed.
    pose proof (Nat.div_mod_eq (length (hb_stream (int32 <$> cs)) + 1) 2).
    pose proof (Nat.mod_upper_bound (length (hb_stream (int32 <$> cs)) + 1) 2 ltac:(lia)).
    lia. }
  eexists _, _. split; [apply encodeCount_packed; [exact Hcs | lia] | ].
  split; [exact Hp | ].
  rewrite take_blit_0.
  apply decodeCount_packed; [exact Hxs | rewrite length_fmap; lia].
Qed.

Lemma encodeLinear_packed (d0 d1 : double) (ds : list double) (k0 k1 : Z) (ks : list Z)
    (result0 : list Z) :
  fixed_point d0 = Ok k0 -> fixed_point d1 = Ok k1 ->
  Forall2 (fun d k => fixed_point d = Ok k) ds ks ->
  (8 + length (packed (hb_stream (residuals k0 k1 ks))) <= length result0)%nat ->
  encodeLinear (d0 :: d1 :: ds) (length (d0 :: d1 :: ds)) result0
  = Ok (blit 8 (packed (hb_stream (residuals k0 k1 ks))) (le32 k0 ++ le32 k1 ++ drop 8 result0),
        (8 + length (packed (hb_stream (residuals k0 k1 ks))))%nat).
Proof.
  intros H0 H1 Hks Hlen. unfold encodeLinear.
  cbn [vec_get lookup list_lookup mbind outcome_bind].
  rewrite H0. cbn [mbind outcome_bind]. rewrite H1. cbn [mbind outcome_bind].
  rewrite write_header_spec by lia. cbn [mbind outcome_bind].
  set (result1 := le32 k0 ++ le32 k1 ++ drop 8 result0).
  assert (Hl1 : length result1 = length result0).
  { unfold result1. rewrite !length_app, length_drop. cbn [le32 length]. lia. }
  pose proof (encodeLinear_loop_spec [] 8 result1 ds ks Hks [d0; d1] [] k0 k1) as Hloop.
  rewrite app_nil_r in Hloop.
  cbn [app length pack Nat.add] in Hloop. rewrite blit_nil in Hloop.
  change (carry_over []) with (@nil Z) in Hloop.
  replace (length (d0 :: d1 :: ds) - 2)%nat with (length ds) by (cbn [length]; lia).
  rewrite Hloop.
  2:{ unfold packed in Hlen. rewrite length_app in Hlen. lia. }
  cbn [mbind outcome_bind].
  apply (flush_spec _ 8 result1). lia.
Qed.

Lemma decodeLinear_packed (k0 k1 : Z) (ks : list Z) (result : list double) :
  0 <= k0 < 2 ^ 32 -> 0 <= k1 < 2 ^ 32 ->
  (2 + length ks <= length result)%nat ->
  decodeLinear (le32 k0 ++ le32 k1 ++ packed (hb_stream (residuals k0 k1 ks))) result
  = Ok (unfix <$> k0 :: k1 :: ks).
Proof.
  intros H0 H1 Hlen. unfold decodeLinear.
  rewrite read_header_spec by assumption. cbn [mbind outcome_bind].
  fold (unfix k0). fold (unfix k1).
  rewrite vec_set_ok by lia. cbn [mbind outcome_bind].
  rewrite vec_set_ok by (rewrite length_insert; lia). cbn [mbind outcome_bind].
  assert (E : <[1%nat:=unfix k1]> (<[0%nat:=unfix k0]> result) = blit 0 [unfix k0; unfix k1] result).
  { destruct result as [| r0 [| r1 result]]; cbn [length] in Hlen; try lia. reflexivity. }
  rewrite E.
  set (H := hb_stream (residuals k0 k1 ks)).
  set (data := le32 k0 ++ le32 k1 ++ packed H).
  pose proof (decodeLinear_loop_spec data (padding H) result (padding_cases _)
                ks (2 * length data) 8 0 k0 k1 [unfix k0; unfix k1]) as Hloop.
  cbn [length] in Hloop. rewrite Hloop; [ | | lia | lia].
  - cbn [mbind outcome_bind]. f_equal.
    apply resize_blit; [cbn [length app]; rewrite length_fmap; reflexivity | lia].
  - unfold data. rewrite app_assoc.
    apply (remaining_packed (le32 k0 ++ le32 k1) H).
Qed.

Lemma Forall_residuals (ks : list Z) : forall k0 k1,
  Forall (fun x => - 2 ^ 31 <= x < 2 ^ 31) (residuals k0 k1 ks).
Proof.
  induction ks as [| k ks IH]; intros k0 k1; cbn [residuals]; constructor;
    [apply int32_range | apply IH].
Qed.

Lemma length_residuals (ks : list Z) : forall k0 k1, length (residuals k0 k1 ks) = length ks.
Proof.
  induction ks as [| k ks IH]; intros k0 k1; cbn [residuals length];
    [reflexivity | rewrite IH; reflexivity].
Qed.

Lemma length_packed_residuals (k0 k1 : Z) (ks : list Z) :
  (8 + length (packed (hb_stream (residuals k0 k1 ks))) <= 5 * (2 + length ks))%nat.
Proof.
  pose proof (length_hb_stream _ (Forall_residuals ks k0 k1)) as Hhb.
  rewrite length_residuals in Hhb. rewrite length_packed.
  pose proof (Nat.div_mod_eq (length (hb_stream (residuals k0 k1 ks)) + 1) 2).
  pose proof (Nat.mod_upper_bound (length (hb_stream (residuals k0 k1 ks)) + 1) 2 ltac:(lia)).
  lia.
Qed.

(** [decodeLinear] after [encodeLinear]: every value comes back as its
    fixed-point integer, read as an [int], over 100000. *)
Lemma linear_round_trip (ds : list double) (ks : list Z)
    (result0 : list Z) (result : list double) :
  Forall2 (fun d k => fixed_point d = Ok k) ds ks ->
  (2 <= length ds)%nat ->
  (5 * length ds <= length result0)%nat ->
  (length ds <= length result)%nat ->
  exists res n,
    encodeLinear ds (length ds) result0 = Ok (res, n)
    /\ (n <= 5 * length ds)%nat
    /\ take 8 res = take 8 (le32 (default 0 (ks !! 0%nat)) ++ le32 (default 0 (ks !! 1%nat)))
    /\ decodeLinear (take n res) result = Ok (unfix <$> ks).
Proof.
  intros Hks Hn Hcap Hres.
  destruct Hks as [| d0 k0 ds ks H0 Hks]; [cbn in Hn; lia | ].
  destruct Hks as [| d1 k1 ds ks H1 Hks]; [cbn in Hn; lia | ].
  pose proof (Forall2_length _ _ _ Hks) as Hl.
  pose proof (length_packed_residuals k0 k1 ks) as Hp.
  set (P := packed (hb_stream (residuals k0 k1 ks))) in *.
  cbn [length] in Hcap, Hres.
  assert (E : blit 8 P (le32 k0 ++ le32 k1 ++ drop 8 result0)
              = (le32 k0 ++ le32 k1) ++ P ++ drop (length P) (drop 8 result0)).
  { rewrite (app_assoc (le32 k0)). apply (blit_after (le32 k0 ++ le32 k1)). }
  eexists _, _. split; [apply encodeLinear_packed; try eassumption; fold P; lia | ].
  fold P. rewrite E.
  split; [cbn [length]; lia | ]. split; [reflexivity | ].
  rewrite (app_assoc _ P), take_app_length'
    by (rewrite !length_app; cbn [le32 length]; lia).
  rewrite <- app_assoc.
  apply decodeLinear_packed;
    [apply (fixed_point_range d0), H0 | apply (fixed_point_range d1), H1 | lia].
Qed.

(** ** The half byte left in the last byte *)

(** A trailing [0x8] is the whole encoding of 0. *)
Lemma decodeInt_trailing_8 (data : list Z) (di : nat) (b : Z) :
  data !! di = Some b -> Z.land b 15 = 8 ->
  decodeInt data di 1 = Ok (S di, 0, 0).
Proof.
  intros Hb H8. unfold decodeInt, read_half, vec_get. rewrite Hb.
  cbn [mbind outcome_bind]. change (1 =? 0) with false. cbn iota. cbn [mbind outcome_bind].
  rewrite H8. reflexivity.
Qed.

Lemma trailing_break_last (data : list Z) (di : nat) (b : Z) :
  di = (length data - 1)%nat -> data !! di = Some b ->
  trailing_break data di 1 = Ok (negb (Z.land b 15 =? 8)).
Proof.
  intros Hdi Hb. unfold trailing_break, vec_get.
  rewrite <- Hdi, Nat.eqb_refl, Hb. reflexivity.
Qed.

Lemma trailing_break_other (data : list Z) (di : nat) (half : Z) :
  ~ (di = (length data - 1)%nat /\ half = 1) -> trailing_break data di half = Ok false.
Proof.
  intros Hn. unfold trailing_break.
  destruct (Nat.eqb_spec di (length data - 1)), (Z.eqb_spec half 1); try reflexivity.
  exfalso. auto.
Qed.

(** ** Bounds of [encodeLinear] on any input *)

Lemma to_integer_cases (lo hi : Z) (d : double) :
  (exists z, to_integer lo hi d = Ok z) \/ to_integer lo hi d = BadConversion.
Proof.
  unfold to_integer. destruct (trunc d) as [t | ]; [ | right; reflexivity].
  destruct ((lo <=? t) && (t <=? hi)); [left; eauto | right; reflexivity].
Qed.

Lemma encodeLinear_loop_safe (data : list double) :
  forall (n i : nat) (k0 k1 : Z) (hbs : list Z) (ri : nat) (result : list Z),
  (length hbs <= 1)%nat -> (i + n <= length data)%nat ->
  (2 * ri + length hbs + 9 * n <= 2 * length result)%nat ->
  match encodeLinear_loop n i data k0 k1 hbs ri result with
  | Ok (hbs', ri', result') =>
      (length hbs' <= 1)%nat
      /\ (ri <= ri')%nat
      /\ (2 * ri' + length hbs' <= 2 * ri + length hbs + 9 * n)%nat
      /\ length result' = length result
  | BadConversion => True
  | _ => False
  end.
Proof.
  induction n as [| n IH]; intros i k0 k1 hbs ri result Hhbs Hdata Hcap.
  - cbn. lia.
  - cbn [encodeLinear_loop]. unfold vec_get.
    destruct (lookup_lt_is_Some_2 data i ltac:(lia)) as [d Hd]. rewrite Hd.
    cbn [mbind outcome_bind].
    destruct (to_integer_cases 0 (2 ^ 32 - 1) (dadd (dmul d d100000) d0_5)) as [[k Hk] | Hk];
      unfold fixed_point, to_uint32; rewrite Hk; cbn [mbind outcome_bind]; [ | exact I].
    set (diff := int32 (uint32 (k - int32 (uint32 (k1 + uint32 (k1 - k0)))))).
    destruct (length_encodeInt diff (int32_range _)) as [Hl Hlen].
    set (hbs2 := hbs ++ encodeInt diff).
    assert (Hlen2 : length hbs2 = (length hbs + length (encodeInt diff))%nat)
      by apply length_app.
    pose proof (Nat.div_mod_eq (length hbs2) 2) as Hdm.
    pose proof (Nat.mod_upper_bound (length hbs2) 2 ltac:(lia)) as Hm.
    pose proof (length_pack hbs2) as Hp.
    pose proof (length_carry_over hbs2) as Hc.
    rewrite pack_pairs_spec by lia.
    cbn [mbind outcome_bind].
    pose proof (length_blit ri (pack hbs2) result ltac:(lia)) as Hb.
    specialize (IH (S i) k1 k (carry_over hbs2) (ri + length (pack hbs2))%nat
                  (blit ri (pack hbs2) result) ltac:(lia) ltac:(lia) ltac:(lia)).
    destruct (encodeLinear_loop n (S i) data k1 k (carry_over hbs2) _ _)
      as [[[hbs' ri'] result'] | | | ]; try exact IH.
    lia.
Qed.

Lemma encodeLinear_safe (data : list double) (dataSize : nat) (result : list Z) :
  (2 <= dataSize)%nat -> (dataSize <= length data)%nat ->
  (5 * dataSize <= length result)%nat ->
  match encodeLinear data dataSize result with
  | Ok (res, n) => (8 <= n <= 5 * dataSize)%nat /\ length res = length result
  | BadConversion => True
  | _ => False
  end.
Proof.
  intros Hn Hdata Hcap. unfold encodeLinear, vec_get.
  destruct (lookup_lt_is_Some_2 data 0 ltac:(lia)) as [d0 Hd0]. rewrite Hd0.
  cbn [mbind outcome_bind].
  destruct (to_integer_cases 0 (2 ^ 32 - 1) (dadd (dmul d0 d100000) d0_5)) as [[k0 Hk0] | Hk0];
    unfold fixed_point, to_uint32; rewrite Hk0; cbn [mbind outcome_bind]; [ | exact I].
  destruct (lookup_lt_is_Some_2 data 1 ltac:(lia)) as [d1 Hd1]. rewrite Hd1.
  cbn [mbind outcome_bind].
  destruct (to_integer_cases 0 (2 ^ 32 - 1) (dadd (dmul d1 d100000) d0_5)) as [[k1 Hk1] | Hk1];
    rewrite Hk1; cbn [mbind outcome_bind]; [ | exact I].
  rewrite write_header_spec by lia. cbn [mbind outcome_bind].
  set (result1 := le32 k0 ++ le32 k1 ++ drop 8 result).
  assert (Hl1 : length result1 = length result).
  { unfold result1. rewrite !length_app, length_drop. cbn [le32 length]. lia. }
  pose proof (encodeLinear_loop_safe data (dataSize - 2) 2 k0 k1 [] 8 result1
                ltac:(cbn; lia) ltac:(lia) ltac:(cbn [length]; lia)) as Hloop.
  destruct (encodeLinear_loop (dataSize - 2) 2 data k0 k1 [] 8 result1)
    as [[[hbs' ri'] result'] | | | ]; try exact Hloop.
  cbn [mbind outcome_bind]. destruct Hloop as (Hh & Hri8 & Hri & Hlen). cbn [length] in Hri.
  destruct hbs' as [| h [| h' t]]; cbn [flush length] in *.
  - lia.
  - rewrite vec_set_ok by lia. cbn [mbind outcome_bind]. rewrite length_insert. lia.
  - lia.
Qed.

(** ** The two-byte float decoder *)

Lemma lookup_pair_0 {A} (pre : list A) (a : A) (rest : list A) :
  (pre ++ a :: rest) !! length pre = Some a.
Proof. apply list_lookup_middle. reflexivity. Qed.

Lemma lookup_pair_1 {A} (pre : list A) (a b : A) (rest : list A) :
  (pre ++ a :: b :: rest) !! (length pre + 1)%nat = Some b.
Proof.
  rewrite lookup_app_r by lia.
  replace (length pre + 1 - length pre)%nat with 1%nat by lia. reflexivity.
Qed.

Section TwoByteFloatFacts.

Variable exp : double -> double.

Lemma length_floats_of (data : list Z) : length (floats_of exp data) = (length data / 2)%nat.
Proof.
  induction data as [| a | a b l IH] using pair_ind; [reflexivity | reflexivity | ].
  cbn [floats_of length]. rewrite IH.
  replace (S (S (length l))) with (1 * 2 + length l)%nat by lia.
  rewrite (Nat.div_add_l 1 2 (length l)) by lia. reflexivity.
Qed.

(** The iterations over the complete pairs [rest], with [tail] after them. *)
Lemma decode2ByteFloat_loop_pairs (tail : list Z) (dataSize : nat) (result0 : list double) :
  forall rest : list Z, Nat.even (length rest) = true ->
  forall (pre : list Z) (vs : list double) (fuel : nat),
  (length pre + length rest <= dataSize + 1)%nat ->
  (length vs + length (floats_of exp rest) <= length result0)%nat ->
  decode2ByteFloat_loop exp (length (floats_of exp rest) + fuel) (pre ++ rest ++ tail) dataSize
    (length pre) (length vs) (blit 0 vs result0)
  = decode2ByteFloat_loop exp fuel (pre ++ rest ++ tail) dataSize
      (length pre + length rest) (length vs + length (floats_of exp rest))
      (blit 0 (vs ++ floats_of exp rest) result0).
Proof.
  induction rest as [| a | a b l IH] using pair_ind; intros Heven pre vs fuel Hsize Hcap.
  - cbn [floats_of length Nat.add]. rewrite !Nat.add_0_r, app_nil_r. reflexivity.
  - discriminate.
  - cbn [floats_of length] in *. cbn [Nat.add decode2ByteFloat_loop].
    destruct (decide (length pre < dataSize)%nat) as [_ | ?]; [ | lia].
    unfold vec_get. cbn [app].
    rewrite lookup_pair_0, lookup_pair_1. cbn [mbind outcome_bind].
    fold (float_of exp a b).
    rewrite (vec_set_blit Result 0 vs result0) by lia. cbn [mbind outcome_bind].
    specialize (IH Heven (pre ++ [a; b]) (vs ++ [float_of exp a b]) fuel).
    rewrite !length_app in IH. cbn [length] in IH.
    rewrite <- !app_assoc in IH. cbn [app] in IH.
    replace (S (length vs)) with (length vs + 1)%nat by lia.
    rewrite IH by lia. f_equal; lia.
Qed.

Lemma decode2ByteFloat_even (data : list Z) (result : list double) :
  Nat.even (length data) = true ->
  decode2ByteFloat exp data result = Ok (floats_of exp data).
Proof.
  intros Heven. unfold decode2ByteFloat.
  set (result0 := resize (length data / 2) dzero result).
  assert (Hl0 : length result0 = (length data / 2)%nat).
  { unfold result0, resize. rewrite length_app, length_take, length_replicate. lia. }
  pose proof (length_floats_of data) as Hf.
  pose proof (Nat.div_mod_eq (length data) 2) as Hdm.
  pose proof (Nat.mod_upper_bound (length data) 2 ltac:(lia)) as Hm.
  pose proof (decode2ByteFloat_loop_pairs [] (length data) result0 data Heven [] []
                (length data - length (floats_of exp data))) as Hloop.
  rewrite app_nil_r, blit_nil in Hloop. cbn [app length Nat.add] in Hloop.
  replace (length (floats_of exp data) + (length data - length (floats_of exp data)))%nat
    with (length data) in Hloop by lia.
  rewrite Hloop by lia.
  destruct (length data - length (floats_of exp data))%nat; cbn [decode2ByteFloat_loop];
    (destruct (decide (length data < length data)%nat) as [? | _]; [lia | ]);
    f_equal; rewrite <- (take_blit_0 (floats_of exp data) result0) at 2;
    symmetry; apply take_ge; rewrite length_blit; lia.
Qed.

Lemma decode2ByteFloat_odd (data : list Z) (result : list double) :
  Nat.even (length data) = false ->
  decode2ByteFloat exp data result = OutOfRange Data (length data).
Proof.
  intros Hodd. unfold decode2ByteFloat.
  set (result0 := resize (length data / 2) dzero result).
  assert (Hl0 : length result0 = (length data / 2)%nat).
  { unfold result0, resize. rewrite length_app, length_take, length_replicate. lia. }
  destruct (exists_last (l := data)) as (rest & b & E).
  { intros ->. discriminate. }
  assert (Heven : Nat.even (length rest) = true).
  { rewrite E, length_app, Nat.add_1_r, Nat.even_succ, <- Nat.negb_even in Hodd.
    destruct (Nat.even (length rest)); [reflexivity | discriminate]. }
  assert (Hlen : length data = S (length rest)) by (rewrite E, length_app; cbn; lia).
  pose proof (length_floats_of rest) as Hf.
  pose proof (Nat.div_mod_eq (length rest) 2) as Hdm.
  pose proof (Nat.mod_upper_bound (length rest) 2 ltac:(lia)) as Hm.
  assert (Hdiv : (length data / 2 = length rest / 2)%nat).
  { rewrite Hlen. symmetry. apply (Nat.div_unique _ 2 _ (S (length rest mod 2))).
    - apply Nat.even_spec in Heven. destruct Heven as [k Hk]. rewrite Hk.
      rewrite Nat.mul_comm, Nat.Div0.mod_mul. lia.
    - lia. }
  pose proof (decode2ByteFloat_loop_pairs [b] (length data) result0 rest Heven [] []
                (length data - length (floats_of exp rest))) as Hloop.
  rewrite blit_nil in Hloop. cbn [app length Nat.add] in Hloop.
  replace (length (floats_of exp rest) + (length data - length (floats_of exp rest)))%nat
    with (length data) in Hloop by lia.
  rewrite <- E in Hloop. rewrite Hloop by lia.
  destruct (length data - length (floats_of exp rest))%nat eqn:Hfuel; [lia | ].
  cbn [decode2ByteFloat_loop].
  destruct (decide (length rest < length data)%nat) as [_ | ?]; [ | lia].
  unfold vec_get. rewrite E at 1. rewrite lookup_pair_0. cbn [mbind outcome_bind].
  rewrite lookup_ge_None_2 by lia. cbn [mbind outcome_bind].
  f_equal. lia.
Qed.

Lemma decode2ByteFloat_odd_write (data : list Z) (b : Z) (result : list double) :
  Nat.even (length data) = false ->
  decode2ByteFloat_loop exp (length data) (data ++ [b]) (length data) 0 0
    (resize (length data / 2) dzero result)
  = OutOfRange Result (length data / 2).
Proof.
  intros Hodd.
  set (result0 := resize (length data / 2) dzero result).
  assert (Hl0 : length result0 = (length data / 2)%nat).
  { unfold result0, resize. rewrite length_app, length_take, length_replicate. lia. }
  destruct (exists_last (l := data)) as (rest & c & E).
  { intros ->. discriminate. }
  assert (Heven : Nat.even (length rest) = true).
  { rewrite E, length_app, Nat.add_1_r, Nat.even_succ, <- Nat.negb_even in Hodd.
    destruct (Nat.even (length rest)); [reflexivity | discriminate]. }
  assert (Hlen : length data = S (length rest)) by (rewrite E, length_app; cbn; lia).
  pose proof (length_floats_of rest) as Hf.
  pose proof (Nat.div_mod_eq (length rest) 2) as Hdm.
  pose proof (Nat.mod_upper_bound (length rest) 2 ltac:(lia)) as Hm.
  assert (Hdiv : (length data / 2 = length rest / 2)%nat).
  { rewrite Hlen. symmetry. apply (Nat.div_unique _ 2 _ (S (length rest mod 2))).
    - apply Nat.even_spec in Heven. destruct Heven as [k Hk]. rewrite Hk.
      rewrite Nat.mul_comm, Nat.Div0.mod_mul. lia.
    - lia. }
  pose proof (decode2ByteFloat_loop_pairs [c; b] (length data) result0 rest Heven [] []
                (length data - length (floats_of exp rest))) as Hloop.
  rewrite blit_nil in Hloop. cbn [app length Nat.add] in Hloop.
  replace (length (floats_of exp rest) + (length data - length (floats_of exp rest)))%nat
    with (length data) in Hloop by lia.
  replace (data ++ [b]) with (rest ++ [c; b]) by (rewrite E, <- app_assoc; reflexivity).
  rewrite Hloop by lia.
  destruct (length data - length (floats_of exp rest))%nat eqn:Hfuel; [lia | ].
  cbn [decode2ByteFloat_loop].
  destruct (decide (length rest < length data)%nat) as [_ | ?]; [ | lia].
  unfold vec_get. rewrite lookup_pair_0, lookup_pair_1. cbn [mbind outcome_bind].
  rewrite vec_set_out by (rewrite length_blit; lia). cbn [mbind outcome_bind].
  f_equal. lia.
Qed.

End TwoByteFloatFacts.

(** ** The decoders on any input *)

Lemma read_half_outcome (data : list Z) (di : nat) (half : Z) :
  half = 0 \/ half = 1 ->
  match read_half data di half with
  | Ok (_, di', half') => pos di' half' = S (pos di half) /\ (half' = 0 \/ half' = 1)
  | OutOfRange Data _ => True
  | _ => False
  end.
Proof.
  intros Hh. unfold read_half, vec_get.
  destruct (data !! di) as [b | ]; [ | exact I]. cbn [mbind outcome_bind].
  destruct Hh as [-> | ->]; cbn; unfold pos; cbn; split; auto; lia.
Qed.

Lemma decodeInt_loop_outcome (data : list Z) :
  forall (cnt : nat) (k : Z) (di : nat) (half res : Z),
  half = 0 \/ half = 1 ->
  match decodeInt_loop data cnt k di half res with
  | Ok (di', half', _) => pos di' half' = (pos di half + cnt)%nat /\ (half' = 0 \/ half' = 1)
  | OutOfRange Data _ => True
  | _ => False
  end.
Proof.
  induction cnt as [| cnt IH]; intros k di half res Hh; cbn [decodeInt_loop].
  - split; [lia | assumption].
  - pose proof (read_half_outcome data di half Hh) as Hr.
    destruct (read_half data di half) as [[[hb di1] half1] | [] ? | | ]; try exact Hr.
    cbn [mbind outcome_bind]. destruct Hr as [Hp Hh1].
    specialize (IH (k + 1) di1 half1 (Z.lor res (int32 (Z.shiftl hb (k * 4)))) Hh1).
    destruct (decodeInt_loop data cnt _ di1 half1 _) as [[[di' half'] r] | [] ? | | ];
      try exact IH.
    destruct IH as [Hp' Hh']. split; [lia | assumption].
Qed.

Lemma decodeInt_outcome (data : list Z) (di : nat) (half : Z) :
  half = 0 \/ half = 1 ->
  match decodeInt data di half with
  | Ok (di', half', _) => (pos di half < pos di' half')%nat /\ (half' = 0 \/ half' = 1)
  | OutOfRange Data _ => True
  | _ => False
  end.
Proof.
  intros Hh. unfold decodeInt.
  pose proof (read_half_outcome data di half Hh) as Hr.
  destruct (read_half data di half) as [[[head di1] half1] | [] ? | | ]; try exact Hr.
  cbn [mbind outcome_bind]. destruct Hr as [Hp Hh1].
  destruct (if head <=? 8 then (head, 0) else (head - 8, fill_ones 0 (Z.to_nat (head - 8)) 0))
    as [n res].
  destruct (n =? 8).
  - split; [lia | assumption].
  - pose proof (decodeInt_loop_outcome data (Z.to_nat (8 - n)) 0 di1 half1 res Hh1) as Hl.
    destruct (decodeInt_loop data _ 0 di1 half1 res) as [[[di' half'] r] | [] ? | | ];
      try exact Hl.
    destruct Hl as [Hp' Hh']. split; [lia | assumption].
Qed.

Lemma trailing_break_cases (data : list Z) (di : nat) (half : Z) :
  (di < length data)%nat -> exists brk, trailing_break data di half = Ok brk.
Proof.
  intros Hdi. unfold trailing_break, vec_get.
  destruct (_ && _); [ | eauto].
  destruct (lookup_lt_is_Some_2 data di Hdi) as [b ->]. cbn. eauto.
Qed.

(** A decoder loop stores at most one value per half byte left and, with
    room for them in [result] and the fuel the decoders pass, ends by
    returning or by reading past the end of [data]. *)
Lemma decodeCount_loop_safe (data : list Z) :
  forall (fuel : nat) (di : nat) (half : Z) (ri : nat) (result : list double),
  half = 0 \/ half = 1 ->
  (2 * length data <= fuel + pos di half)%nat ->
  (ri + (2 * length data - pos di half) <= length result)%nat ->
  match decodeCount_loop fuel data di half ri result with
  | Ok (ri', result') =>
      (ri' <= ri + (2 * length data - pos di half))%nat /\ length result' = length result
  | OutOfRange Data _ => True
  | _ => False
  end.
Proof.
  induction fuel as [| fuel IH]; intros di half ri result Hh Hfuel Hcap;
    cbn [decodeCount_loop];
    (destruct (decide (di < length data)%nat) as [Hdi | Hdi]; [ | split; [lia | reflexivity]]);
    pose proof (proj2 (pos_lt data di half Hh) Hdi) as Hp; [lia | ].
  destruct (trailing_break_cases data di half Hdi) as [brk ->]. cbn [mbind outcome_bind].
  destruct brk; [split; [lia | reflexivity] | ].
  pose proof (decodeInt_outcome data di half Hh) as Hd.
  destruct (decodeInt data di half) as [[[di' half'] count] | [] ? | | ]; try exact Hd.
  cbn [mbind outcome_bind]. destruct Hd as [Hadv Hh'].
  rewrite vec_set_ok by lia. cbn [mbind outcome_bind].
  specialize (IH di' half' (S ri) (<[ri:=of_int count]> result) Hh' ltac:(lia)).
  rewrite length_insert in IH. specialize (IH ltac:(lia)).
  destruct (decodeCount_loop fuel data di' half' (S ri) _) as [[ri' result'] | [] ? | | ];
    try exact IH.
  destruct IH as [Hri Hlen]. split; [lia | exact Hlen].
Qed.

Lemma decodeLinear_loop_safe (data : list Z) :
  forall (fuel : nat) (di : nat) (half ints1 ints2 : Z) (ri : nat) (result : list double),
  half = 0 \/ half = 1 ->
  (2 * length data <= fuel + pos di half)%nat ->
  (ri + (2 * length data - pos di half) <= length result)%nat ->
  match decodeLinear_loop fuel data di half ints1 ints2 ri result with
  | Ok (ri', result') =>
      (ri' <= ri + (2 * length data - pos di half))%nat /\ length result' = length result
  | OutOfRange Data _ => True
  | _ => False
  end.
Proof.
  induction fuel as [| fuel IH]; intros di half ints1 ints2 ri result Hh Hfuel Hcap;
    cbn [decodeLinear_loop];
    (destruct (decide (di < length data)%nat) as [Hdi | Hdi]; [ | split; [lia | reflexivity]]);
    pose proof (proj2 (pos_lt data di half Hh) Hdi) as Hp; [lia | ].
  destruct (trailing_break_cases data di half Hdi) as [brk ->]. cbn [mbind outcome_bind].
  destruct brk; [split; [lia | reflexivity] | ].
  pose proof (decodeInt_outcome data di half Hh) as Hd.
  destruct (decodeInt data di half) as [[[di' half'] diff] | [] ? | | ]; try exact Hd.
  cbn [mbind outcome_bind]. destruct Hd as [Hadv Hh'].
  rewrite vec_set_ok by lia. cbn [mbind outcome_bind].
  match goal with
  | |- context [decodeLinear_loop fuel data di' half' ?a ?b (S ri) ?r] =>
      specialize (IH di' half' a b (S ri) r Hh' ltac:(lia));
      rewrite length_insert in IH; specialize (IH ltac:(lia));
      destruct (decodeLinear_loop fuel data di' half' a b (S ri) r)
        as [[ri' result'] | [] ? | | ]; try exact IH
  end.
  destruct IH as [Hri Hlen]. split; [lia | exact Hlen].
Qed.

Lemma length_resize {A} (n : nat) (dflt : A) (v : list A) : length (resize n dflt v) = n.
Proof. unfold resize. rewrite length_app, length_take, length_replicate. lia. Qed.

Lemma decodeCount_safe (data : list Z) (result : list double) :
  (2 * length data <= length result)%nat ->
  match decodeCount data result with
  | Ok r => (length r <= 2 * length data)%nat
  | OutOfRange Data _ => True
  | _ => False
  end.
Proof.
  intros Hcap. unfold decodeCount.
  pose proof (decodeCount_loop_safe data (2 * length data) 0 0 0 result
                ltac:(auto) ltac:(lia) ltac:(lia)) as Hloop.
  destruct (decodeCount_loop (2 * length data) data 0 0 0 result)
    as [[ri' result'] | [] ? | | ]; try exact Hloop.
  cbn [mbind outcome_bind]. rewrite length_resize. unfold pos in Hloop. cbn in Hloop. lia.
Qed.

Lemma read_header_outcome (data : list Z) :
  match read_header 4 0 data 0 0 with
  | Ok _ => (8 <= length data)%nat
  | OutOfRange Data _ => True
  | _ => False
  end.
Proof.
  cbn [read_header]. unfold vec_get. cbn [Nat.add].
  repeat (match goal with
          | |- context [data !! ?i] =>
              let b := fresh "b" in let E := fresh "E" in
              destruct (data !! i) as [b | ] eqn:E; [ | exact I];
              apply lookup_lt_Some in E
          end; cbn [mbind outcome_bind]).
  lia.
Qed.

Lemma decodeLinear_safe (data : list Z) (result : list double) :
  (2 * length data <= length result)%nat ->
  match decodeLinear data result with
  | Ok r => (length r <= 2 * length data)%nat
  | OutOfRange Data _ => True
  | _ => False
  end.
Proof.
  intros Hcap. unfold decodeLinear.
  pose proof (read_header_outcome data) as Hh.
  destruct (read_header 4 0 data 0 0) as [[ints1 ints2] | [] ? | | ]; try exact Hh.
  cbn [mbind outcome_bind].
  rewrite vec_set_ok by lia. cbn [mbind outcome_bind].
  rewrite vec_set_ok by (rewrite length_insert; lia). cbn [mbind outcome_bind].
  match goal with
  | |- context [decodeLinear_loop ?f data 8 0 ?a ?b 2 ?r] =>
      pose proof (decodeLinear_loop_safe data f 8 0 a b 2 r
                    ltac:(auto) ltac:(lia)) as Hloop;
      rewrite !length_insert in Hloop;
      specialize (Hloop ltac:(unfold pos; cbn; lia));
      destruct (decodeLinear_loop f data 8 0 a b 2 r) as [[ri' result'] | [] ? | | ];
        try exact Hloop
  end.
  cbn [mbind outcome_bind]. rewrite length_resize. unfold pos in Hloop. cbn in Hloop. lia.
Qed.

(** ** [encode2ByteFloat] on any input *)

Lemma encode2ByteFloat_loop_count (log : double -> double) (data : list double) :
  forall (n i ri : nat) (result : list Z),
  match encode2ByteFloat_loop log n i data ri result with
  | Ok (res, m) => m = (ri + 2 * n)%nat /\ length res = length result
  | _ => True
  end.
Proof.
  induction n as [| n IH]; intros i ri result; cbn [encode2ByteFloat_loop].
  - split; [lia | reflexivity].
  - destruct (vec_get Data data i) as [d | | | ]; try exact I. cbn [mbind outcome_bind].
    destruct (to_ushort _) as [fp | | | ]; try exact I. cbn [mbind outcome_bind].
    unfold vec_set.
    destruct (decide (ri < length result)%nat); [ | exact I]. cbn [mbind outcome_bind].
    rewrite length_insert.
    destruct (decide (S ri < length result)%nat); [ | exact I]. cbn [mbind outcome_bind].
    specialize (IH (S i) (S (S ri)) (<[S ri:=uchar (Z.shiftr fp 8)]> (<[ri:=uchar (Z.land fp 255)]> result))).
    destruct (encode2ByteFloat_loop log n (S i) data (S (S ri)) _) as [[res m] | | | ];
      try exact I.
    rewrite !length_insert in IH. destruct IH as [Hm Hlen]. split; [lia | exact Hlen].
Qed.

(** When [encode2ByteFloat] returns it has stored exactly two bytes a value. *)
Lemma encode2ByteFloat_count (log : double -> double) (data : list double) (dataSize : nat)
    (result res : list Z) (n : nat) :
  encode2ByteFloat log data dataSize result = Ok (res, n) -> n = (2 * dataSize)%nat.
Proof.
  intros E. unfold encode2ByteFloat in E.
  pose proof (encode2ByteFloat_loop_count log data dataSize 0 0 result) as H.
  rewrite E in H. destruct H as [H _]. lia.
Qed.

(** ** Exact operations on doubles *)

Lemma digits2_pos_bounds (p : positive) :
  2 ^ (Zpos (digits2_pos p) - 1) <= Zpos p < 2 ^ Zpos (digits2_pos p).
Proof.
  induction p as [p IH | p IH | ]; cbn [digits2_pos]; [ | | cbn; lia].
  - rewrite Pos2Z.inj_succ. replace (Z.succ (Zpos (digits2_pos p)) - 1) with
      (Z.succ (Zpos (digits2_pos p) - 1)) by lia.
    rewrite !Z.pow_succ_r by lia. lia.
  - rewrite Pos2Z.inj_succ. replace (Z.succ (Zpos (digits2_pos p)) - 1) with
      (Z.succ (Zpos (digits2_pos p) - 1)) by lia.
    rewrite !Z.pow_succ_r by lia. lia.
Qed.

Lemma Zdigits2_bounds (z : Z) : 0 < z -> 2 ^ (Zdigits2 z - 1) <= z < 2 ^ Zdigits2 z.
Proof. destruct z as [| p | p]; try lia. intros _. apply digits2_pos_bounds. Qed.

Lemma Zdigits2_pos (z : Z) : 0 < z -> 0 < Zdigits2 z.
Proof. destruct z as [| p | p]; cbn; lia. Qed.

Lemma Zdigits2_unique (z d : Z) : 0 < z -> 2 ^ (d - 1) <= z < 2 ^ d -> Zdigits2 z = d.
Proof.
  intros Hz Hd. pose proof (Zdigits2_bounds z Hz) as Hb. pose proof (Zdigits2_pos z Hz) as Hp.
  assert (Hd0 : 0 < d).
  { destruct (Z.lt_ge_cases 0 d) as [? | Hle]; [assumption | ].
    assert (2 ^ d <= 2 ^ 0) by (destruct (Z.eq_dec d 0) as [-> | ?];
      [lia | rewrite Z.pow_neg_r by lia; cbn; lia]).
    cbn in *. lia. }
  destruct (Z.lt_trichotomy (Zdigits2 z) d) as [Hlt | [Heq | Hgt]]; [ | exact Heq | ].
  - assert (2 ^ Zdigits2 z <= 2 ^ (d - 1)) by (apply Z.pow_le_mono_r; lia). lia.
  - assert (2 ^ d <= 2 ^ (Zdigits2 z - 1)) by (apply Z.pow_le_mono_r; lia). lia.
Qed.

Lemma Zdigits2_mul_pow2 (z t : Z) : 0 < z -> 0 <= t -> Zdigits2 (z * 2 ^ t) = Zdigits2 z + t.
Proof.
  intros Hz Ht. pose proof (Zdigits2_bounds z Hz) as Hb. pose proof (Zdigits2_pos z Hz) as Hp.
  assert (H2 : 0 < 2 ^ t) by (apply Z.pow_pos_nonneg; lia).
  apply Zdigits2_unique; [nia | ].
  replace (Zdigits2 z + t - 1) with (Zdigits2 z - 1 + t) by lia.
  rewrite !Z.pow_add_r by lia. nia.
Qed.

Lemma iter_pos_nat {A} (f : A -> A) (p : positive) : forall x,
  SpecFloat.iter_pos f p x = Nat.iter (Pos.to_nat p) f x.
Proof.
  induction p as [p IH | p IH | ]; intros x; cbn [SpecFloat.iter_pos]; [ | | reflexivity].
  - rewrite !IH, Pos2Nat.inj_xI.
    replace (S (2 * Pos.to_nat p)) with (Pos.to_nat p + (Pos.to_nat p + 1))%nat by lia.
    rewrite !Nat.iter_add. reflexivity.
  - rewrite !IH, Pos2Nat.inj_xO.
    replace (2 * Pos.to_nat p)%nat with (Pos.to_nat p + Pos.to_nat p)%nat by lia.
    rewrite Nat.iter_add. reflexivity.
Qed.

Lemma shr_1_exact (m : Z) :
  0 <= m -> shr_1 (Build_shr_record (2 * m) false false) = Build_shr_record m false false.
Proof. destruct m as [| p | p]; [reflexivity | reflexivity | lia]. Qed.

Lemma shr_nat_exact (k : nat) : forall m : Z,
  0 <= m ->
  Nat.iter k shr_1 (Build_shr_record (m * 2 ^ Z.of_nat k) false false)
  = Build_shr_record m false false.
Proof.
  induction k as [| k IH]; intros m Hm.
  - cbn [Nat.iter]. rewrite Z.mul_1_r. reflexivity.
  - rewrite Nat.iter_succ_r.
    replace (m * 2 ^ Z.of_nat (S k)) with (2 * (m * 2 ^ Z.of_nat k)).
    2:{ rewrite Nat2Z.inj_succ, Z.pow_succ_r by lia. lia. }
    rewrite shr_1_exact by (apply Z.mul_nonneg_nonneg; [lia | apply Z.pow_nonneg; lia]).
    apply IH. exact Hm.
Qed.

Lemma shr_exact (m e n : Z) :
  0 <= m -> 0 <= n ->
  shr (Build_shr_record (m * 2 ^ n) false false) e n = (Build_shr_record m false false, e + n).
Proof.
  intros Hm Hn. destruct n as [| p | p]; [ | | lia].
  - cbn [shr]. rewrite Z.mul_1_r, Z.add_0_r. reflexivity.
  - cbn [shr]. rewrite iter_pos_nat.
    rewrite <- (positive_nat_Z p) at 1. rewrite shr_nat_exact by exact Hm. reflexivity.
Qed.

(** Rounding a mantissa [q * 2^t] of at least 53 digits whose low [t]
    digits carry nothing is exact. *)
Lemma binary_round_aux_exact (s : bool) (q t e : Z) :
  0 < q -> 0 <= t -> 53 <= Zdigits2 q + t -> Zdigits2 q <= 53 ->
  - 1074 <= t + e + Zdigits2 q - 53 <= 971 ->
  binary_round_aux 53 1024 s (q * 2 ^ t) e loc_Exact = normal s q (t + e).
Proof.
  intros Hq Ht Hd Hd53 Hrange.
  set (dq := Zdigits2 q) in *.
  set (n := dq + t - 53).
  set (m1 := q * 2 ^ (53 - dq)).
  assert (Hm1 : 0 < m1) by (apply Z.mul_pos_pos; [lia | apply Z.pow_pos_nonneg; lia]).
  assert (HM : q * 2 ^ t = m1 * 2 ^ n).
  { unfold m1, n. rewrite <- Z.mul_assoc, <- Z.pow_add_r by lia. do 2 f_equal. lia. }
  assert (Hdm1 : Zdigits2 m1 = 53).
  { unfold m1. rewrite Zdigits2_mul_pow2 by lia. fold dq. lia. }
  assert (HdM : Zdigits2 (q * 2 ^ t) = dq + t) by (apply Zdigits2_mul_pow2; lia).
  unfold binary_round_aux, shr_fexp. cbn [shr_record_of_loc].
  rewrite HdM. unfold fexp, emin.
  replace (Z.max (dq + t + e - 53) (3 - 1024 - 53) - e) with n by (unfold n; lia).
  rewrite HM, shr_exact by (unfold n; lia).
  cbn [shr_m loc_of_shr_record round_nearest_even shr_record_of_loc].
  rewrite Hdm1.
  replace (Z.max (53 + (e + n) - 53) (3 - 1024 - 53) - (e + n)) with 0 by (unfold n; lia).
  cbn [shr shr_m].
  destruct m1 as [| p | p] eqn:Ep; [lia | | lia].
  destruct (Z.leb_spec (e + n) (1024 - 53)) as [_ | Hbad]; [ | unfold n in Hbad; lia].
  unfold normal. fold dq. fold m1. rewrite Ep. cbn [Z.to_pos].
  f_equal. unfold n. lia.
Qed.

Lemma pos_iter_xO (p k : positive) : Zpos (Pos.iter xO p k) = Zpos p * 2 ^ Zpos k.
Proof.
  induction k as [| k IH] using Pos.peano_ind.
  - cbn [Pos.iter]. lia.
  - rewrite Pos.iter_succ, Pos2Z.inj_succ, Z.pow_succ_r by lia.
    rewrite Pos2Z.inj_xO, IH. lia.
Qed.

Lemma shl_align_le (mx : positive) (ex ex' : Z) :
  ex' <= ex -> shl_align mx ex ex' = (Z.to_pos (Zpos mx * 2 ^ (ex - ex')), ex').
Proof.
  intros Hle. unfold shl_align.
  destruct (ex' - ex) as [| d | d] eqn:E; [ | lia | ].
  - replace (ex - ex') with 0 by lia. replace ex' with ex by lia.
    rewrite Z.mul_1_r. reflexivity.
  - replace (ex - ex') with (Zpos d) by lia.
    rewrite <- pos_iter_xO. reflexivity.
Qed.

Lemma shl_align_ge (mx : positive) (ex ex' : Z) :
  ex <= ex' -> shl_align mx ex ex' = (mx, ex).
Proof.
  intros Hle. unfold shl_align. destruct (ex' - ex) as [| d | d] eqn:E; [reflexivity .. | lia].
Qed.

(** Normalizing [q * 2^t * 2^e] is exact when [q] has at most 53 digits. *)
Lemma binary_round_exact (s : bool) (p : positive) (q t e : Z) :
  Zpos p = q * 2 ^ t ->
  0 < q -> 0 <= t -> Zdigits2 q <= 53 ->
  - 1074 <= t + e + Zdigits2 q - 53 <= 971 ->
  binary_round 53 1024 s p e = normal s q (t + e).
Proof.
  intros EP Hq Ht Hd Hrange.
  assert (H2 : 0 < 2 ^ t) by (apply Z.pow_pos_nonneg; lia).
  pose proof (Zdigits2_mul_pow2 q t Hq Ht) as HdP. rewrite <- EP in HdP.
  unfold binary_round.
  change (Zpos (digits2_pos p)) with (Zdigits2 (Zpos p)). rewrite HdP.
  unfold fexp, emin.
  replace (Z.max (Zdigits2 q + t + e - 53) (3 - 1024 - 53)) with (Zdigits2 q + t + e - 53) by lia.
  destruct (Z.le_gt_cases 53 (Zdigits2 q + t)) as [Hbig | Hsmall].
  - rewrite shl_align_ge by lia. rewrite EP.
    apply binary_round_aux_exact; lia.
  - rewrite shl_align_le by lia.
    replace (e - (Zdigits2 q + t + e - 53)) with (53 - Zdigits2 q - t) by lia.
    assert (H3 : 0 < 2 ^ (53 - Zdigits2 q - t)) by (apply Z.pow_pos_nonneg; lia).
    rewrite Z2Pos.id by nia.
    rewrite EP, <- Z.mul_assoc, <- Z.pow_add_r by lia.
    replace (t + (53 - Zdigits2 q - t)) with (53 - Zdigits2 q) by lia.
    rewrite (binary_round_aux_exact s q (53 - Zdigits2 q)) by lia.
    f_equal. lia.
Qed.

Lemma binary_normalize_exact (s : bool) (q t e : Z) :
  0 < q -> 0 <= t -> Zdigits2 q <= 53 ->
  - 1074 <= t + e + Zdigits2 q - 53 <= 971 ->
  binary_normalize 53 1024 (cond_Zopp s (q * 2 ^ t)) e false = normal s q (t + e).
Proof.
  intros Hq Ht Hd Hrange.
  assert (H2 : 0 < 2 ^ t) by (apply Z.pow_pos_nonneg; lia).
  assert (HP : 0 < q * 2 ^ t) by nia.
  destruct (q * 2 ^ t) as [| p | p] eqn:EP; [lia | | lia].
  destruct s; cbn [cond_Zopp Z.opp binary_normalize];
    (apply binary_round_exact; [symmetry; exact EP | assumption ..]).
Qed.

Lemma binary_normalize_exact_pos (q t e : Z) :
  0 < q -> 0 <= t -> Zdigits2 q <= 53 ->
  - 1074 <= t + e + Zdigits2 q - 53 <= 971 ->
  binary_normalize 53 1024 (q * 2 ^ t) e false = normal false q (t + e).
Proof. apply (binary_normalize_exact false). Qed.

Lemma of_int_normal (n : Z) : 0 < n < 2 ^ 53 -> of_int n = normal false n 0.
Proof.
  intros Hn. pose proof (Zdigits2_bounds n ltac:(lia)) as Hb.
  assert (Hd : Zdigits2 n <= 53).
  { destruct (Z.le_gt_cases (Zdigits2 n) 53) as [? | Hgt]; [assumption | ].
    assert (2 ^ 53 <= 2 ^ (Zdigits2 n - 1)) by (apply Z.pow_le_mono_r; lia). lia. }
  pose proof (Zdigits2_pos n ltac:(lia)) as Hp.
  unfold of_int, double_of.
  rewrite <- (Z.mul_1_r n) at 1. change 1 with (2 ^ 0) at 1.
  apply binary_normalize_exact_pos; lia.
Qed.

Lemma digits_below (n k : Z) : 0 < n < 2 ^ k -> 0 <= k -> Zdigits2 n <= k.
Proof.
  intros Hn Hk. pose proof (Zdigits2_bounds n ltac:(lia)) as Hb.
  destruct (Z.le_gt_cases (Zdigits2 n) k) as [? | Hgt]; [assumption | ].
  assert (2 ^ k <= 2 ^ (Zdigits2 n - 1)) by (apply Z.pow_le_mono_r; lia). lia.
Qed.

(** [n + 0.5] is computed exactly and truncates to [n]. *)
Lemma trunc_add_half (n : Z) :
  0 <= n < 2 ^ 52 -> trunc (dadd (of_int n) d0_5) = Some n.
Proof.
  intros Hn. destruct (Z.eq_dec n 0) as [-> | Hn0]; [reflexivity | ].
  rewrite of_int_normal by lia.
  pose proof (Zdigits2_pos n ltac:(lia)) as Hp.
  pose proof (digits_below n 52 ltac:(lia) ltac:(lia)) as Hd.
  pose proof (Zdigits2_bounds n ltac:(lia)) as Hb.
  set (d := Zdigits2 n) in *.
  assert (H2 : 0 < 2 ^ (53 - d)) by (apply Z.pow_pos_nonneg; lia).
  change d0_5 with (S754_finite false 4503599627370496 (-53)).
  unfold normal. fold d. unfold dadd, SFadd.
  replace (Z.min (0 + d - 53) (-53)) with (-53) by lia.
  rewrite shl_align_le by lia. rewrite shl_align_ge by lia.
  cbn [fst cond_Zopp].
  rewrite Z2Pos.id by nia.
  replace (0 + d - 53 - -53) with d by lia.
  rewrite Z2Pos.id.
  2:{ apply Z.mul_pos_pos; [nia | apply Z.pow_pos_nonneg; lia]. }
  rewrite <- Z.mul_assoc, <- Z.pow_add_r by lia.
  replace (53 - d + d) with 53 by lia.
  replace (n * 2 ^ 53 + 4503599627370496) with ((2 * n + 1) * 2 ^ 52)
    by (change (2 ^ 53) with (2 * 2 ^ 52); change 4503599627370496 with (2 ^ 52); lia).
  assert (Hd' : Zdigits2 (2 * n + 1) = d + 1).
  { apply Zdigits2_unique; [lia | ].
    replace (d + 1 - 1) with (Z.succ (d - 1)) by lia.
    replace (d + 1) with (Z.succ d) by lia.
    rewrite !Z.pow_succ_r by lia. lia. }
  rewrite binary_normalize_exact_pos by lia.
  unfold normal, trunc. rewrite Hd'. cbn [cond_Zopp]. f_equal.
  assert (H3 : 0 < 2 ^ (53 - (d + 1))) by (apply Z.pow_pos_nonneg; lia).
  rewrite Z2Pos.id by nia.
  replace (52 + -53 + (d + 1) - 53) with (- (53 - d)) by lia.
  rewrite Z.shiftl_opp_r, Z.shiftr_div_pow2 by lia.
  replace (2 ^ (53 - d)) with (2 * 2 ^ (53 - (d + 1))).
  2:{ rewrite <- (Z.pow_succ_r 2) by lia. f_equal. lia. }
  rewrite Z.div_mul_cancel_r by lia.
  Z.div_mod_to_equations. lia.
Qed.

Lemma to_size_t_whole (n : Z) :
  0 <= n < 2 ^ 52 -> to_size_t (dadd (of_int n) d0_5) = Ok n.
Proof.
  intros Hn. unfold to_size_t, to_integer. rewrite trunc_add_half by exact Hn.
  destruct (Z.leb_spec 0 n) as [_ | ?]; [ | lia].
  destruct (Z.leb_spec n (2 ^ 64 - 1)) as [_ | ?]; [reflexivity | lia].
Qed.

Lemma Zdigits2_mul_ge (a b : Z) :
  0 < a -> 0 < b -> Zdigits2 a + Zdigits2 b - 1 <= Zdigits2 (a * b).
Proof.
  intros Ha Hb.
  pose proof (Zdigits2_bounds a Ha) as Ba. pose proof (Zdigits2_bounds b Hb) as Bb.
  pose proof (Zdigits2_bounds (a * b) ltac:(nia)) as Bab.
  pose proof (Zdigits2_pos a Ha). pose proof (Zdigits2_pos b Hb).
  destruct (Z.le_gt_cases (Zdigits2 a + Zdigits2 b - 1) (Zdigits2 (a * b))) as [? | Hgt];
    [assumption | ].
  assert (2 ^ Zdigits2 (a * b) <= 2 ^ (Zdigits2 a - 1 + (Zdigits2 b - 1)))
    by (apply Z.pow_le_mono_r; lia).
  rewrite Z.pow_add_r in * by lia. nia.
Qed.

Lemma normal_mantissa (q : Z) :
  0 < q -> Zdigits2 q <= 53 ->
  Zpos (Z.to_pos (q * 2 ^ (53 - Zdigits2 q))) = q * 2 ^ (53 - Zdigits2 q).
Proof.
  intros Hq Hd. apply Z2Pos.id.
  apply Z.mul_pos_pos; [lia | apply Z.pow_pos_nonneg; lia].
Qed.

(** The product of two whole numbers is exact while it stays below [2^53]. *)
Lemma dmul_of_int (a b : Z) :
  0 < a -> 0 < b -> a * b < 2 ^ 53 -> dmul (of_int a) (of_int b) = of_int (a * b).
Proof.
  intros Ha Hb Hab.
  assert (Ha53 : a < 2 ^ 53) by nia. assert (Hb53 : b < 2 ^ 53) by nia.
  pose proof (digits_below a 53 ltac:(lia) ltac:(lia)) as Da.
  pose proof (digits_below b 53 ltac:(lia) ltac:(lia)) as Db.
  pose proof (digits_below (a * b) 53 ltac:(nia) ltac:(lia)) as Dab.
  pose proof (Zdigits2_mul_ge a b Ha Hb) as Dge.
  pose proof (Zdigits2_pos (a * b) ltac:(nia)) as Dpos.
  rewrite !of_int_normal by nia.
  unfold normal at 1 2. unfold dmul, SFmul. cbn [xorb].
  rewrite Pos2Z.inj_mul, !normal_mantissa by lia.
  replace (a * 2 ^ (53 - Zdigits2 a) * (b * 2 ^ (53 - Zdigits2 b)))
    with (a * b * 2 ^ (106 - Zdigits2 a - Zdigits2 b)).
  2:{ replace (106 - Zdigits2 a - Zdigits2 b) with (53 - Zdigits2 a + (53 - Zdigits2 b)) by lia.
      rewrite Z.pow_add_r by lia. lia. }
  rewrite binary_round_aux_exact by lia.
  f_equal. lia.
Qed.

(** A whole multiple of 100000 below [2^53] divides exactly. *)
Lemma ddiv_of_int (n : Z) :
  0 < n -> 100000 * n < 2 ^ 53 -> ddiv (of_int (100000 * n)) d100000 = of_int n.
Proof.
  intros Hn HK.
  set (K := 100000 * n) in *.
  pose proof (digits_below K 53 ltac:(lia) ltac:(lia)) as DK.
  pose proof (digits_below n 53 ltac:(lia) ltac:(lia)) as Dn.
  pose proof (Zdigits2_pos n Hn) as Dnpos.
  pose proof (Zdigits2_bounds n Hn) as Bn.
  pose proof (Zdigits2_bounds K ltac:(lia)) as BK.
  pose proof (Zdigits2_pos K ltac:(lia)) as DKpos.
  assert (DKn : Zdigits2 K <= Zdigits2 n + 17).
  { destruct (Z.le_gt_cases (Zdigits2 K) (Zdigits2 n + 17)) as [? | Hgt]; [assumption | ].
    assert (2 ^ (Zdigits2 n + 17) <= 2 ^ (Zdigits2 K - 1)) by (apply Z.pow_le_mono_r; lia).
    rewrite Z.pow_add_r in * by lia. change (2 ^ 17) with 131072 in *. lia. }
  rewrite !of_int_normal by lia.
  change d100000 with (S754_finite false 6871947673600000 (-36)).
  unfold normal at 1. unfold ddiv, SFdiv, SFdiv_core_binary. cbn [xorb].
  rewrite normal_mantissa by lia.
  rewrite Zdigits2_mul_pow2 by lia.
  change (Zdigits2 6871947673600000) with 53.
  unfold fexp, emin.
  replace (Z.min (Z.max (Zdigits2 K + (53 - Zdigits2 K) + (0 + Zdigits2 K - 53) - (53 + -36) - 53)
                    (3 - 1024 - 53)) (0 + Zdigits2 K - 53 - -36))
    with (Zdigits2 K - 70) by lia.
  replace (0 + Zdigits2 K - 53 - -36 - (Zdigits2 K - 70)) with 53 by lia.
  rewrite Z.shiftl_mul_pow2 by lia.
  assert (E : K * 2 ^ (53 - Zdigits2 K) * 2 ^ 53
              = 6871947673600000 * (n * 2 ^ (70 - Zdigits2 K))).
  { assert (P1 : 2 ^ (53 - Zdigits2 K) * 2 ^ 53 = 2 ^ (106 - Zdigits2 K))
      by (rewrite <- Z.pow_add_r by lia; f_equal; lia).
    assert (P2 : 68719476736 * 2 ^ (70 - Zdigits2 K) = 2 ^ (106 - Zdigits2 K))
      by (change 68719476736 with (2 ^ 36); rewrite <- Z.pow_add_r by lia; f_equal; lia).
    transitivity (100000 * n * 2 ^ (106 - Zdigits2 K)).
    - rewrite <- P1. unfold K. ring.
    - rewrite <- P2. ring. }
  rewrite E.
  pose proof (Z.div_eucl_eq (6871947673600000 * (n * 2 ^ (70 - Zdigits2 K))) 6871947673600000
                ltac:(lia)) as Hde.
  pose proof (Z.mod_pos_bound (6871947673600000 * (n * 2 ^ (70 - Zdigits2 K))) 6871947673600000
                ltac:(lia)) as Hmb.
  unfold Z.modulo in Hmb.
  destruct (Z.div_eucl _ 6871947673600000) as [q r].
  assert (Hr : r = 0) by lia. assert (Hq : q = n * 2 ^ (70 - Zdigits2 K)) by lia.
  subst q r.
  change (new_location 6871947673600000 0) with loc_Exact.
  rewrite binary_round_aux_exact by lia.
  f_equal. lia.
Qed.

Lemma fixed_point_whole (n : Z) :
  0 <= n <= 42949 -> fixed_point (of_int n) = Ok (100000 * n).
Proof.
  intros Hn. destruct (Z.eq_dec n 0) as [-> | Hn0]; [reflexivity | ].
  unfold fixed_point, d100000.
  rewrite dmul_of_int by lia.
  unfold to_uint32, to_integer. rewrite (Z.mul_comm n), trunc_add_half by lia.
  destruct (Z.leb_spec 0 (100000 * n)) as [_ | ?]; [ | lia].
  destruct (Z.leb_spec (100000 * n) (2 ^ 32 - 1)) as [_ | ?]; [reflexivity | lia].
Qed.

Lemma unfix_whole (n : Z) :
  0 <= n <= 21474 -> unfix (100000 * n) = of_int n.
Proof.
  intros Hn. unfold unfix. rewrite int32_small by lia.
  destruct (Z.eq_dec n 0) as [-> | Hn0]; [reflexivity | ].
  apply ddiv_of_int; lia.
Qed.

(** ** Rounding to nearest *)

Lemma shr_1_loc (mrs : shr_record) (a b : Z) :
  0 <= shr_m mrs -> 0 < b -> loc_ok_rec mrs a b ->
  loc_ok_rec (shr_1 mrs) a (2 * b) /\ shr_m (shr_1 mrs) = shr_m mrs / 2.
Proof.
  destruct mrs as [m r s]. unfold loc_ok_rec. cbn [shr_m shr_r shr_s].
  intros Hm Hb Hloc.
  destruct m as [| p | p]; [ | | lia].
  - cbn [shr_1 shr_m shr_r shr_s]. split; [ | reflexivity].
    destruct r, s; cbn [orb loc_ok] in *; lia.
  - destruct p as [p | p | ]; cbn [shr_1 shr_m shr_r shr_s].
    + split; [ | rewrite Pos2Z.inj_xI; Z.div_mod_to_equations; lia].
      rewrite Pos2Z.inj_xI in Hloc.
      destruct r, s; cbn [orb loc_ok] in *; nia.
    + split; [ | rewrite Pos2Z.inj_xO; Z.div_mod_to_equations; lia].
      rewrite Pos2Z.inj_xO in Hloc.
      destruct r, s; cbn [orb loc_ok] in *; nia.
    + split; [ | reflexivity].
      destruct r, s; cbn [orb loc_ok] in *; nia.
Qed.

Lemma shr_iter_loc (n : nat) (mrs : shr_record) (a b : Z) :
  0 <= shr_m mrs -> 0 < b -> loc_ok_rec mrs a b ->
  loc_ok_rec (Nat.iter n shr_1 mrs) a (b * 2 ^ Z.of_nat n)
  /\ shr_m (Nat.iter n shr_1 mrs) = shr_m mrs / 2 ^ Z.of_nat n.
Proof.
  intros Hm Hb Hloc. induction n as [| n [IH1 IH2]].
  - change (Nat.iter 0 shr_1 mrs) with mrs. change (2 ^ Z.of_nat 0) with 1. rewrite Z.mul_1_r, Z.div_1_r. auto.
  - change (Nat.iter (S n) shr_1 mrs) with (shr_1 (Nat.iter n shr_1 mrs)).
    assert (H2 : 0 < 2 ^ Z.of_nat n) by (apply Z.pow_pos_nonneg; lia).
    assert (Hm' : 0 <= shr_m (Nat.iter n shr_1 mrs))
      by (rewrite IH2; apply Z.div_pos; lia).
    destruct (shr_1_loc _ a (b * 2 ^ Z.of_nat n) Hm' ltac:(nia) IH1) as [L1 L2].
    rewrite Nat2Z.inj_succ, Z.pow_succ_r by lia. split.
    + replace (b * (2 * 2 ^ Z.of_nat n)) with (2 * (b * 2 ^ Z.of_nat n)) by lia. exact L1.
    + rewrite L2, IH2, Z.div_div by lia. f_equal. lia.
Qed.

Lemma shr_loc (mrs : shr_record) (e n a b : Z) :
  0 <= shr_m mrs -> 0 < b -> loc_ok_rec mrs a b ->
  loc_ok_rec (fst (shr mrs e n)) a (b * 2 ^ Z.max 0 n)
  /\ shr_m (fst (shr mrs e n)) = shr_m mrs / 2 ^ Z.max 0 n
  /\ snd (shr mrs e n) = e + Z.max 0 n.
Proof.
  intros Hm Hb Hloc. destruct n as [| p | p]; cbn [shr fst snd].
  - change (Z.max 0 0) with 0. change (2 ^ 0) with 1.
    rewrite Z.mul_1_r, Z.div_1_r, Z.add_0_r. auto.
  - replace (Z.max 0 (Zpos p)) with (Zpos p) by lia.
    rewrite iter_pos_nat, <- (positive_nat_Z p).
    destruct (shr_iter_loc (Pos.to_nat p) mrs a b Hm Hb Hloc) as [L1 L2]. auto.
  - replace (Z.max 0 (Zneg p)) with 0 by lia. change (2 ^ 0) with 1.
    rewrite Z.mul_1_r, Z.div_1_r, Z.add_0_r. auto.
Qed.

Lemma round_nearest_even_loc (mrs : shr_record) (a b : Z) :
  0 < b -> loc_ok_rec mrs a b ->
  let N := round_nearest_even (shr_m mrs) (loc_of_shr_record mrs) in
  shr_m mrs <= N <= shr_m mrs + 1 /\ Z.abs (2 * N * b - 2 * a) <= b.
Proof.
  destruct mrs as [m r s]. unfold loc_ok_rec. cbn [shr_m shr_r shr_s].
  intros Hb Hloc.
  destruct r, s; cbn [loc_of_shr_record round_nearest_even loc_ok] in *.
  - split; [lia | nia].
  - destruct (Z.even m); split; try lia; nia.
  - split; [lia | nia].
  - split; [lia | nia].
Qed.

Lemma loc_of_record_of_loc (m : Z) (l : location) :
  loc_of_shr_record (shr_record_of_loc m l) = l.
Proof. destruct l as [| []]; reflexivity. Qed.

Lemma shr_m_record_of_loc (m : Z) (l : location) : shr_m (shr_record_of_loc m l) = m.
Proof. destruct l as [| []]; reflexivity. Qed.

Lemma shr_fexp_none (N e : Z) :
  0 <= N -> N = 0 \/ Zdigits2 N <= 53 -> - 1074 <= e ->
  shr_fexp 53 1024 N e loc_Exact = (Build_shr_record N false false, e).
Proof.
  intros HN Hd He. unfold shr_fexp. cbn [shr_record_of_loc].
  assert (Hn : fexp 53 1024 (Zdigits2 N + e) - e <= 0).
  { unfold fexp, emin. destruct Hd as [-> | Hd]; [cbn [Zdigits2] | ]; lia. }
  destruct (fexp 53 1024 (Zdigits2 N + e) - e) as [| p | p]; [reflexivity | lia | reflexivity].
Qed.

Lemma shr_fexp_carry (e : Z) :
  - 1074 <= e ->
  shr_fexp 53 1024 (2 ^ 53) e loc_Exact = (Build_shr_record (2 ^ 52) false false, e + 1).
Proof.
  intros He. unfold shr_fexp. cbn [shr_record_of_loc].
  change (Zdigits2 (2 ^ 53)) with 54.
  replace (fexp 53 1024 (54 + e) - e) with 1 by (unfold fexp, emin; lia).
  reflexivity.
Qed.

(** Rounding [a / b * 2^e], given as the mantissa [M] and the location of the
    rest, gives [N * 2^e'] with [N] at most half a unit from the scaled value;
    [e'] is the exponent the format gives to the magnitude of [M * 2^e]. *)
Lemma binary_round_aux_round (s : bool) (M e : Z) (l : location) (a b : Z) :
  0 < M -> 0 < b -> loc_ok_rec (shr_record_of_loc M l) a b ->
  Z.max e (fexp 53 1024 (Zdigits2 M + e)) + 1 <= 971 ->
  exists N, 0 <= N
    /\ Z.abs (2 * N * (b * 2 ^ (Z.max e (fexp 53 1024 (Zdigits2 M + e)) - e)) - 2 * a)
       <= b * 2 ^ (Z.max e (fexp 53 1024 (Zdigits2 M + e)) - e)
    /\ result_is (binary_round_aux 53 1024 s M e l) s N
         (Z.max e (fexp 53 1024 (Zdigits2 M + e))).
Proof.
  intros HM Hb Hloc Hmax.
  set (E := fexp 53 1024 (Zdigits2 M + e)) in *.
  set (e' := Z.max e E) in *.
  assert (HE : - 1074 <= E /\ Zdigits2 M + e - 53 <= E) by (unfold E, fexp, emin; lia).
  pose proof (Zdigits2_bounds M HM) as BM. pose proof (Zdigits2_pos M HM) as PM.
  assert (Hk : Z.max 0 (E - e) = e' - e) by lia.
  destruct (shr_loc (shr_record_of_loc M l) e (E - e) a b) as (L1 & L2 & L3);
    [rewrite shr_m_record_of_loc; lia | exact Hb | exact Hloc | ].
  rewrite shr_m_record_of_loc, Hk in *.
  unfold binary_round_aux. unfold shr_fexp at 1. fold E.
  destruct (shr (shr_record_of_loc M l) e (E - e)) as [mrs' e1]. cbn [fst snd] in *.
  assert (H2 : 0 < 2 ^ (e' - e)) by (apply Z.pow_pos_nonneg; lia).
  destruct (round_nearest_even_loc mrs' a (b * 2 ^ (e' - e)) ltac:(nia) L1) as [N1 N2].
  set (N := round_nearest_even (shr_m mrs') (loc_of_shr_record mrs')) in *.
  assert (Hq : 0 <= shr_m mrs' < 2 ^ 53).
  { rewrite L2. split; [apply Z.div_pos; lia | ].
    apply Z.div_lt_upper_bound; [lia | ].
    rewrite <- Z.pow_add_r by lia.
    assert (2 ^ Zdigits2 M <= 2 ^ (e' - e + 53)) by (apply Z.pow_le_mono_r; lia). lia. }
  assert (He1 : e1 = e') by lia. clear L3. subst e1.
  exists N. split; [lia | ]. split; [exact N2 | ].
  destruct (Z.eq_dec N 0) as [HN0 | HN0]; [ | destruct (Z.eq_dec N (2 ^ 53)) as [HN53 | HN53]].
  - rewrite HN0, shr_fexp_none by lia. cbn [shr_m result_is]. auto.
  - rewrite HN53, shr_fexp_carry by lia. cbn [shr_m]. change (2 ^ 52) with 4503599627370496.
    cbv iota beta.
    destruct (Z.leb_spec (e' + 1) (1024 - 53)) as [_ | ?]; [ | lia].
    cbn [result_is]. split; [reflexivity | ]. split; [lia | ].
    replace (e' + 1 - e') with 1 by lia. reflexivity.
  - assert (HNr : 0 < N < 2 ^ 53) by lia.
    rewrite shr_fexp_none;
      [ | lia | right; apply digits_below; lia | lia].
    cbn [shr_m]. destruct N as [| p | p] eqn:EN; [lia | | lia].
    destruct (Z.leb_spec e' (1024 - 53)) as [_ | ?]; [ | lia].
    cbn [result_is]. split; [reflexivity | ]. split; [lia | ].
    rewrite Z.sub_diag. lia.
Qed.

(** ** Values of doubles as rationals *)

Lemma Q2_pos (e : Z) : (0 < 2 ^ e)%Q.
Proof. apply Qpower_0_lt. reflexivity. Qed.

Lemma Q2_add (a b : Z) : (2 ^ (a + b) == 2 ^ a * 2 ^ b)%Q.
Proof. apply Qpower_plus. discriminate. Qed.

Lemma Q2_Z (n : Z) : 0 <= n -> (inject_Z (2 ^ n) == 2 ^ n)%Q.
Proof. intros Hn. rewrite Zpower_Qpower by assumption. reflexivity. Qed.

Lemma Q2_le (a b : Z) : a <= b -> (2 ^ a <= 2 ^ b)%Q.
Proof. intros Hab. apply Qpower_le_compat_l; [assumption | discriminate]. Qed.

Lemma Q2_split (a b : Z) : (2 ^ a == inject_Z (2 ^ (a - b)) * 2 ^ b)%Q \/ a < b.
Proof.
  destruct (Z.le_gt_cases b a) as [Hle | Hlt]; [left | right; lia].
  rewrite Q2_Z, <- Q2_add by lia. replace (a - b + b) with a by lia. reflexivity.
Qed.

Lemma result_is_Qvalue (f : double) (N E : Z) :
  result_is f false N E ->
  nonneg f /\ exists y, Qvalue f = Some y /\ (y == inject_Z N * 2 ^ E)%Q.
Proof.
  destruct f as [s | s | | s m e]; cbn [result_is nonneg]; try contradiction.
  - intros [-> ->]. split; [exact I | ]. exists 0%Q. split; [reflexivity | ].
    rewrite Qmult_0_l. reflexivity.
  - intros (-> & He & ->). split; [reflexivity | ].
    eexists. split; [reflexivity | ]. cbn [cond_Zopp].
    destruct (Q2_split e E) as [-> | ?]; [ | lia].
    rewrite inject_Z_mult. ring.
Qed.

Lemma round_Q (N a b e e' : Z) :
  0 < b -> e <= e' ->
  Z.abs (2 * N * (b * 2 ^ (e' - e)) - 2 * a) <= b * 2 ^ (e' - e) ->
  (Qabs (inject_Z b * (inject_Z N * 2 ^ e') - inject_Z a * 2 ^ e)
   <= inject_Z b * 2 ^ (e' - 1))%Q.
Proof.
  intros Hb He H.
  assert (E1 : (2 ^ e' == inject_Z (2 ^ (e' - e)) * 2 ^ e)%Q)
    by (destruct (Q2_split e' e) as [-> | ?]; [reflexivity | lia]).
  assert (E2 : (2 ^ (e' - 1) == inject_Z (2 ^ (e' - e)) * 2 ^ e * (1 # 2))%Q).
  { rewrite <- E1. replace (e' - 1) with (e' + -1) by lia. rewrite Q2_add. reflexivity. }
  set (t := 2 ^ (e' - e)) in *.
  apply Qabs_Qle_condition. rewrite E1, E2.
  assert (Z1 : - (b * t) <= 2 * N * (b * t) + - (2 * a)) by lia.
  assert (Z2 : 2 * N * (b * t) + - (2 * a) <= b * t) by lia.
  rewrite Zle_Qle in Z1, Z2.
  repeat rewrite ?inject_Z_plus, ?inject_Z_opp, ?inject_Z_mult in Z1.
  repeat rewrite ?inject_Z_plus, ?inject_Z_opp, ?inject_Z_mult in Z2.
  pose proof (Q2_pos e) as HP.
  set (B := inject_Z b) in *. set (T := inject_Z t) in *. set (P := (2 ^ e)%Q) in *.
  set (A := inject_Z a) in *. set (n := inject_Z N) in *.
  change (inject_Z 2) with 2%Q in *.
  assert (HP2 : (0 <= P * (1 # 2))%Q) by lra.
  pose proof (Qmult_le_compat_r _ _ _ Z1 HP2) as Q1.
  pose proof (Qmult_le_compat_r _ _ _ Z2 HP2) as Q2.
  split; lra.
Qed.

(** A number below [2^J] has its last digit below position [J]. *)
Lemma exponent_bound (M e J : Z) :
  0 < M -> (inject_Z M * 2 ^ e < 2 ^ J)%Q -> Zdigits2 M + e <= J.
Proof.
  intros HM Hlt. pose proof (Zdigits2_bounds M HM) as [Hlo _].
  pose proof (Zdigits2_pos M HM) as Hd.
  destruct (Z.le_gt_cases (Zdigits2 M + e) J) as [? | Hgt]; [assumption | exfalso].
  assert (H1 : (2 ^ J <= inject_Z (2 ^ (Zdigits2 M - 1)) * 2 ^ e)%Q).
  { rewrite Q2_Z by lia. rewrite <- Q2_add. apply Q2_le. lia. }
  rewrite Zle_Qle in Hlo. pose proof (Q2_pos e) as HP.
  pose proof (Qmult_le_compat_r _ _ _ Hlo (Qlt_le_weak _ _ HP)) as H2.
  lra.
Qed.

Lemma fexp_bound (D J : Z) : D <= J -> - 1021 <= J -> fexp 53 1024 D <= J - 53.
Proof. unfold fexp, emin. lia. Qed.

(** Rounding a positive number below [2^J] moves it by at most [2^(J-54)]. *)
Lemma binary_round_aux_Q (M e J : Z) :
  0 < M -> (inject_Z M * 2 ^ e < 2 ^ J)%Q -> e <= J - 53 -> - 1021 <= J <= 1023 ->
  nonneg (binary_round_aux 53 1024 false M e loc_Exact)
  /\ exists y, Qvalue (binary_round_aux 53 1024 false M e loc_Exact) = Some y
       /\ (Qabs (y - inject_Z M * 2 ^ e) <= 2 ^ (J - 54))%Q.
Proof.
  intros HM Hlt He HJ.
  pose proof (exponent_bound M e J HM Hlt) as HD.
  pose proof (fexp_bound _ J HD ltac:(lia)) as HE.
  destruct (binary_round_aux_round false M e loc_Exact M 1 HM ltac:(lia)) as (N & HN & Hr & Hres).
  { unfold loc_ok_rec. cbn. lia. }
  { lia. }
  set (e' := Z.max e (fexp 53 1024 (Zdigits2 M + e))) in *.
  destruct (result_is_Qvalue _ _ _ Hres) as (Hnn & y & Hy & Ey).
  split; [exact Hnn | ]. exists y. split; [exact Hy | ].
  pose proof (round_Q N M 1 e e' ltac:(lia) ltac:(lia) Hr) as HQ.
  rewrite Ey. change (inject_Z 1) with 1%Q in HQ. rewrite !Qmult_1_l in HQ.
  eapply Qle_trans; [exact HQ | apply Q2_le; lia].
Qed.

Lemma binary_round_Q (mx : positive) (ex J : Z) :
  (inject_Z (Zpos mx) * 2 ^ ex < 2 ^ J)%Q -> - 1021 <= J <= 1023 ->
  nonneg (binary_round 53 1024 false mx ex)
  /\ exists y, Qvalue (binary_round 53 1024 false mx ex) = Some y
       /\ (Qabs (y - inject_Z (Zpos mx) * 2 ^ ex) <= 2 ^ (J - 54))%Q.
Proof.
  intros Hlt HJ.
  pose proof (exponent_bound (Zpos mx) ex J ltac:(lia) Hlt) as HD.
  pose proof (fexp_bound _ J HD ltac:(lia)) as HE.
  unfold binary_round. change (Zpos (digits2_pos mx)) with (Zdigits2 (Zpos mx)).
  set (E := fexp 53 1024 (Zdigits2 (Zpos mx) + ex)) in *.
  destruct (Z.le_gt_cases E ex) as [Hle | Hgt].
  - rewrite shl_align_le by exact Hle.
    assert (H2 : 0 < 2 ^ (ex - E)) by (apply Z.pow_pos_nonneg; lia).
    assert (EQ : (inject_Z (Zpos mx * 2 ^ (ex - E)) * 2 ^ E == inject_Z (Zpos mx) * 2 ^ ex)%Q).
    { rewrite inject_Z_mult. destruct (Q2_split ex E) as [-> | ?]; [ring | lia]. }
    rewrite Z2Pos.id by nia.
    destruct (binary_round_aux_Q (Zpos mx * 2 ^ (ex - E)) E J) as (Hnn & y & Hy & Hb);
      [nia | rewrite EQ; exact Hlt | lia | lia | ].
    split; [exact Hnn | ]. exists y. split; [exact Hy | ]. rewrite <- EQ. exact Hb.
  - rewrite shl_align_ge by lia.
    apply binary_round_aux_Q; [lia | exact Hlt | lia | lia].
Qed.

(** The integer part of a double that is not negative. *)
Lemma trunc_floor (f : double) (y : Q) :
  nonneg f -> Qvalue f = Some y ->
  exists k, trunc f = Some k /\ 0 <= k /\ (inject_Z k <= y < inject_Z k + 1)%Q.
Proof.
  destruct f as [s | s | | s m e]; cbn [nonneg Qvalue trunc]; try contradiction.
  - intros _ [= <-]. exists 0. split; [reflexivity | ]. split; [lia | ].
    change (inject_Z 0) with 0%Q. split; lra.
  - intros -> [= <-]. cbn [cond_Zopp]. eexists. split; [reflexivity | ].
    destruct (Z.le_gt_cases 0 e) as [He | He].
    + rewrite Z.shiftl_mul_pow2 by exact He.
      assert (0 < 2 ^ e) by (apply Z.pow_pos_nonneg; lia).
      split; [nia | ]. rewrite inject_Z_mult, Q2_Z by exact He.
      generalize (inject_Z (Zpos m) * 2 ^ e)%Q. intros q. split; lra.
    + assert (Es : Z.shiftl (Zpos m) e = Zpos m / 2 ^ (- e)).
      { replace e with (- - e) at 1 by lia.
        rewrite Z.shiftl_opp_r, Z.shiftr_div_pow2 by lia. reflexivity. }
      rewrite Es.
      assert (Ht : 0 < 2 ^ (- e)) by (apply Z.pow_pos_nonneg; lia).
      set (t := 2 ^ (- e)) in *.
      assert (Hk : 0 <= Zpos m / t) by (apply Z.div_pos; lia).
      split; [exact Hk | ].
      assert (Z1 : Zpos m / t * t <= Zpos m) by (Z.div_mod_to_equations; nia).
      assert (Z2 : Zpos m + 1 <= (Zpos m / t + 1) * t) by (Z.div_mod_to_equations; nia).
      rewrite Zle_Qle in Z1, Z2.
      repeat rewrite ?inject_Z_plus, ?inject_Z_mult in Z1.
      repeat rewrite ?inject_Z_plus, ?inject_Z_mult in Z2.
      assert (ET : (inject_Z t * 2 ^ e == 1)%Q).
      { unfold t. rewrite Q2_Z, <- Q2_add by lia. replace (- e + e) with 0 by lia. reflexivity. }
      pose proof (Q2_pos e) as HP.
      pose proof (Qmult_le_compat_r _ _ _ Z1 (Qlt_le_weak _ _ HP)) as Q1.
      pose proof (Qmult_le_compat_r _ _ _ Z2 (Qlt_le_weak _ _ HP)) as Q2.
      change (inject_Z 1) with 1%Q in *.
      set (K := inject_Z (Zpos m / t)) in *. set (T := inject_Z t) in *.
      set (P := (2 ^ e)%Q) in *. set (Mq := inject_Z (Zpos m)) in *.
      assert (E1 : (K * T * P == K)%Q) by (rewrite <- Qmult_assoc, ET; ring).
      assert (E2 : ((K + 1) * T * P == K + 1)%Q) by (rewrite <- Qmult_assoc, ET; ring).
      rewrite E1 in Q1. rewrite E2 in Q2. split; lra.
Qed.

Lemma Qvalue_nonneg (s : bool) (m : positive) (e : Z) :
  (0 <= inject_Z (cond_Zopp s (Zpos m)) * 2 ^ e)%Q -> s = false.
Proof.
  destruct s; [ | reflexivity]. cbn [cond_Zopp]. intros H. exfalso.
  change (- Zpos m) with (Zneg m) in H.
  pose proof (Q2_pos e) as HP.
  assert (Hm : (inject_Z (Zneg m) < 0)%Q) by (change 0%Q with (inject_Z 0); rewrite <- Zlt_Qlt; lia).
  pose proof (Qmult_lt_compat_r _ _ _ HP Hm) as H1. rewrite Qmult_0_l in H1.
  revert H H1. generalize (inject_Z (Zneg m) * 2 ^ e)%Q. intros q H H1. lra.
Qed.

(** The product with 100000.0 of a number below [2^J]. *)
Lemma dmul_round (a : double) (v : Q) (J : Z) :
  Qvalue a = Some v -> (0 <= v)%Q -> (100000 * v < 2 ^ J)%Q -> 0 <= J <= 1023 ->
  nonneg (dmul a d100000)
  /\ exists p, Qvalue (dmul a d100000) = Some p
       /\ (Qabs (p - 100000 * v) <= 2 ^ (J - 54))%Q.
Proof.
  intros Ha Hv Hlt HJ.
  change d100000 with (S754_finite false 6871947673600000 (-36)).
  destruct a as [s | s | | s m e]; cbn [Qvalue] in Ha; try discriminate.
  - injection Ha as <-. unfold dmul. cbn [SFmul nonneg Qvalue].
    split; [exact I | ]. exists 0%Q. split; [reflexivity | ].
    pose proof (Q2_pos (J - 54)) as HP.
    apply Qabs_Qle_condition. split; lra.
  - injection Ha as <-. apply Qvalue_nonneg in Hv as ->.
    cbn [cond_Zopp] in Hlt |- *.
    unfold dmul, SFmul. cbn [xorb]. rewrite Pos2Z.inj_mul.
    set (M := Zpos m * 6871947673600000).
    assert (EQ : (inject_Z M * 2 ^ (e + -36) == 100000 * (inject_Z (Zpos m) * 2 ^ e))%Q).
    { unfold M. rewrite inject_Z_mult, Q2_add.
      assert (E36 : (inject_Z 6871947673600000 * 2 ^ (-36) == 100000)%Q)
        by (vm_compute; reflexivity).
      rewrite <- E36. ring. }
    assert (HM : 0 < M) by (unfold M; lia).
    assert (HD : 53 <= Zdigits2 M).
    { pose proof (Zdigits2_mul_ge (Zpos m) 6871947673600000 ltac:(lia) ltac:(lia)) as H.
      change (Zdigits2 6871947673600000) with 53 in H.
      pose proof (Zdigits2_pos (Zpos m) ltac:(lia)). fold M in H. lia. }
    assert (Hlt' : (inject_Z M * 2 ^ (e + -36) < 2 ^ J)%Q) by (rewrite EQ; exact Hlt).
    pose proof (exponent_bound M _ J HM Hlt') as HE.
    destruct (binary_round_aux_Q M (e + -36) J HM Hlt' ltac:(lia) ltac:(lia))
      as (Hnn & y & Hy & Hb).
    split; [exact Hnn | ]. exists y. split; [exact Hy | ]. rewrite <- EQ. exact Hb.
Qed.

(** The sum with 0.5 of a number that stays below [2^J]. *)
Lemma dadd_half_round (f : double) (p : Q) (J : Z) :
  nonneg f -> Qvalue f = Some p -> (p + (1 # 2) < 2 ^ J)%Q -> 0 <= J <= 1023 ->
  nonneg (dadd f d0_5)
  /\ exists s, Qvalue (dadd f d0_5) = Some s
       /\ (Qabs (s - (p + (1 # 2))) <= 2 ^ (J - 54))%Q.
Proof.
  intros Hnn Hp Hlt HJ.
  change d0_5 with (S754_finite false 4503599627370496 (-53)).
  assert (Eh : (inject_Z 4503599627370496 * 2 ^ (-53) == 1 # 2)%Q) by (vm_compute; reflexivity).
  destruct f as [s | s | | s m e]; cbn [Qvalue nonneg] in Hp, Hnn; try discriminate.
  - injection Hp as <-. unfold dadd. cbn [SFadd nonneg Qvalue]. split; [reflexivity | ].
    eexists. split; [reflexivity | ]. cbn [cond_Zopp].
    pose proof (Q2_pos (J - 54)) as HP. rewrite Eh.
    apply Qabs_Qle_condition. split; lra.
  - injection Hp as <-. subst s. cbn [cond_Zopp] in Hlt |- *.
    unfold dadd, SFadd. cbn [cond_Zopp].
    set (ez := Z.min e (-53)).
    rewrite !shl_align_le by lia. cbn [fst].
    assert (H1 : 0 < 2 ^ (e - ez)) by (apply Z.pow_pos_nonneg; lia).
    assert (H2 : 0 < 2 ^ (-53 - ez)) by (apply Z.pow_pos_nonneg; lia).
    rewrite !Z2Pos.id by nia.
    set (S := Zpos m * 2 ^ (e - ez) + 4503599627370496 * 2 ^ (-53 - ez)).
    assert (HS : 0 < S) by (unfold S; nia).
    assert (EQ : (inject_Z S * 2 ^ ez == inject_Z (Zpos m) * 2 ^ e + (1 # 2))%Q).
    { unfold S. rewrite inject_Z_plus, !inject_Z_mult, <- Eh.
      destruct (Q2_split e ez) as [-> | ?]; [ | lia].
      destruct (Q2_split (-53) ez) as [-> | ?]; [ | lia]. ring. }
    destruct S as [| q | q]; [lia | | lia]. cbn [binary_normalize].
    destruct (binary_round_Q q ez J) as (Hn & y & Hy & Hb); [rewrite EQ; exact Hlt | lia | ].
    split; [exact Hn | ]. exists y. split; [exact Hy | ]. rewrite <- EQ. exact Hb.
Qed.

(** The fixed-point integer of a number from 0 to [(2^J - 1) / 100000] is at
    most [1/2 + 2^(J-53)] away from 100000 times the number. *)
Lemma fixed_point_round (a : double) (v : Q) (J : Z) :
  Qvalue a = Some v -> (0 <= v)%Q -> (100000 * v <= inject_Z (2 ^ J - 1))%Q -> 0 <= J <= 32 ->
  exists k, fixed_point a = Ok k /\ 0 <= k < 2 ^ J
    /\ (Qabs (inject_Z k - 100000 * v) <= (1 # 2) + 2 ^ (J - 53))%Q.
Proof.
  intros Ha Hv Hle HJ.
  assert (EJ : (inject_Z (2 ^ J - 1) == 2 ^ J - 1)%Q).
  { unfold Z.sub. rewrite inject_Z_plus, Q2_Z by lia. reflexivity. }
  rewrite EJ in Hle.
  assert (He : (2 ^ (J - 54) <= 1 # 4194304)%Q) by (apply (Q2_le (J - 54) (-22)); lia).
  assert (E2 : (2 ^ (J - 53) == 2 * 2 ^ (J - 54))%Q).
  { replace (J - 53) with (1 + (J - 54)) by lia. rewrite Q2_add. reflexivity. }
  pose proof (Q2_pos (J - 54)) as HP.
  destruct (dmul_round a v J Ha Hv ltac:(lra) ltac:(lia)) as (Hnp & p & Hp & Bp).
  apply Qabs_Qle_condition in Bp. destruct Bp as [Bp1 Bp2].
  destruct (dadd_half_round _ p J Hnp Hp ltac:(lra) ltac:(lia)) as (Hns & s & Hs & Bs).
  apply Qabs_Qle_condition in Bs. destruct Bs as [Bs1 Bs2].
  destruct (trunc_floor _ s Hns Hs) as (k & Hk & Hk0 & Hk1 & Hk2).
  assert (HkJ : k < 2 ^ J).
  { rewrite Zlt_Qlt, Q2_Z by lia. lra. }
  exists k. split; [ | split; [lia | ]].
  - unfold fixed_point, to_uint32, to_integer. rewrite Hk.
    assert (2 ^ J <= 2 ^ 32) by (apply Z.pow_le_mono_r; lia).
    destruct (Z.leb_spec 0 k) as [_ | ?]; [ | lia].
    destruct (Z.leb_spec k (2 ^ 32 - 1)) as [_ | ?]; [reflexivity | lia].
  - apply Qabs_Qle_condition. rewrite E2. split; lra.
Qed.

Lemma normal_mantissa_bounds (k : Z) :
  0 < k -> Zdigits2 k <= 53 -> 2 ^ 52 <= k * 2 ^ (53 - Zdigits2 k) < 2 ^ 53.
Proof.
  intros Hk Hd. pose proof (Zdigits2_bounds k Hk) as [B1 B2].
  pose proof (Zdigits2_pos k Hk) as Hp.
  assert (H2 : 0 < 2 ^ (53 - Zdigits2 k)) by (apply Z.pow_pos_nonneg; lia).
  assert (E1 : 2 ^ (Zdigits2 k - 1) * 2 ^ (53 - Zdigits2 k) = 2 ^ 52)
    by (rewrite <- Z.pow_add_r by lia; f_equal; lia).
  assert (E2 : 2 ^ Zdigits2 k * 2 ^ (53 - Zdigits2 k) = 2 ^ 53)
    by (rewrite <- Z.pow_add_r by lia; f_equal; lia).
  nia.
Qed.

Lemma new_location_loc (q r a : Z) :
  a = q * 6871947673600000 + r -> 0 <= r < 6871947673600000 ->
  loc_ok_rec (shr_record_of_loc q (new_location 6871947673600000 r)) a 6871947673600000.
Proof.
  intros Ha Hr.
  change (new_location 6871947673600000 r) with (new_location_even 6871947673600000 r).
  unfold new_location_even, loc_ok_rec.
  destruct (Z.eqb_spec r 0) as [-> | Hr0]; [cbn; lia | ].
  destruct (Z.compare_spec (2 * r) 6871947673600000) as [Hc | Hc | Hc];
    cbn [shr_record_of_loc shr_m shr_r shr_s loc_ok]; lia.
Qed.

(** The double [decodeLinear] stores for [k] is [k / 100000] to within
    [2^-39]. *)
Lemma unfix_round (k : Z) :
  0 <= k < 2 ^ 31 ->
  exists y, Qvalue (unfix k) = Some y
    /\ (Qabs (y - inject_Z k * (1 # 100000)) <= 1 # 549755813888)%Q.
Proof.
  intros Hk. unfold unfix. rewrite int32_small by lia.
  destruct (Z.eq_dec k 0) as [-> | Hk0].
  { exists 0%Q. split; [reflexivity | ]. vm_compute. discriminate. }
  pose proof (digits_below k 31 ltac:(lia) ltac:(lia)) as Dk.
  pose proof (Zdigits2_pos k ltac:(lia)) as Dkpos.
  pose proof (normal_mantissa_bounds k ltac:(lia) ltac:(lia)) as Bm.
  rewrite of_int_normal by lia.
  change d100000 with (S754_finite false 6871947673600000 (-36)).
  unfold normal. unfold ddiv, SFdiv, SFdiv_core_binary. cbn [xorb].
  rewrite normal_mantissa by lia.
  rewrite Zdigits2_mul_pow2 by lia.
  change (Zdigits2 6871947673600000) with 53.
  assert (EF : Z.min (fexp 53 1024 (Zdigits2 k + (53 - Zdigits2 k) + (0 + Zdigits2 k - 53)
                                     - (53 + -36)))
                     (0 + Zdigits2 k - 53 - -36) = Zdigits2 k - 70)
    by (unfold fexp, emin; lia).
  rewrite EF.
  replace (0 + Zdigits2 k - 53 - -36 - (Zdigits2 k - 70)) with 53 by lia.
  rewrite Z.shiftl_mul_pow2 by lia.
  set (mk := k * 2 ^ (53 - Zdigits2 k)) in *.
  set (dk := Zdigits2 k) in *.
  pose proof (Z.div_eucl_eq (mk * 2 ^ 53) 6871947673600000 ltac:(lia)) as Hde.
  pose proof (Z.mod_pos_bound (mk * 2 ^ 53) 6871947673600000 ltac:(lia)) as Hmb.
  unfold Z.modulo in Hmb.
  destruct (Z.div_eucl (mk * 2 ^ 53) 6871947673600000) as [q r].
  assert (Hq : 0 < q < 2 ^ 54) by lia.
  pose proof (digits_below q 54 ltac:(lia) ltac:(lia)) as Dq.
  pose proof (Zdigits2_pos q ltac:(lia)) as Dqpos.
  assert (HE : fexp 53 1024 (Zdigits2 q + (dk - 70)) <= dk - 69) by (unfold fexp, emin; lia).
  destruct (binary_round_aux_round false q (dk - 70) (new_location 6871947673600000 r)
              (mk * 2 ^ 53) 6871947673600000 ltac:(lia) ltac:(lia))
    as (N & HN & Hr & Hres).
  { apply new_location_loc; lia. }
  { lia. }
  set (e' := Z.max (dk - 70) (fexp 53 1024 (Zdigits2 q + (dk - 70)))) in *.
  destruct (result_is_Qvalue _ _ _ Hres) as (_ & y & Hy & Ey).
  exists y. split; [exact Hy | ].
  pose proof (round_Q N (mk * 2 ^ 53) 6871947673600000 (dk - 70) e' ltac:(lia) ltac:(lia) Hr)
    as HQ.
  rewrite <- Ey in HQ.
  assert (EQ : (inject_Z (mk * 2 ^ 53) * 2 ^ (dk - 70) == inject_Z k * 68719476736)%Q).
  { unfold mk. rewrite !inject_Z_mult, !Q2_Z by lia.
    rewrite <- !Qmult_assoc, <- !Q2_add.
    replace (53 - dk + (53 + (dk - 70))) with 36 by lia. reflexivity. }
  rewrite EQ in HQ.
  assert (He : (2 ^ (e' - 1) <= 1 # 549755813888)%Q) by (apply (Q2_le (e' - 1) (-39)); lia).
  change (inject_Z 6871947673600000) with 6871947673600000%Q in HQ.
  apply Qabs_Qle_condition in HQ. destruct HQ as [HQ1 HQ2].
  revert HQ1 HQ2 He. generalize (2 ^ (e' - 1))%Q (inject_Z k). intros eps K HQ1 HQ2 He.
  apply Qabs_Qle_condition. split; lra.
Qed.

(** The fixed-point integers of a sequence of doubles in [0 .. hi]. *)
Lemma fixed_point_in_range (hi : Q) (J : Z) (v : list double) :
  (hi * 100000 <= inject_Z (2 ^ J - 1))%Q -> 0 <= J <= 32 ->
  Forall (in_range 0 hi) v ->
  exists ks,
    Forall2 (fun d k => fixed_point d = Ok k /\ 0 <= k < 2 ^ J
                        /\ exists x, Qvalue d = Some x
                             /\ (Qabs (inject_Z k - 100000 * x) <= (1 # 2) + 2 ^ (J - 53))%Q)
            v ks.
Proof.
  intros Hhi HJ Hv. induction Hv as [| d v Hd _ [ks IH]]; [exists []; constructor | ].
  unfold in_range in Hd. destruct (Qvalue d) as [x | ] eqn:Ex; [ | contradiction].
  destruct Hd as [H0 H1].
  destruct (fixed_point_round d x J Ex H0 ltac:(lra) HJ) as (k & Hk & Hr & Hb).
  exists (k :: ks). constructor; [ | exact IH]. eauto.
Qed.

(** * The claims of the specification *)

(** C1: for every signed 32-bit integer [x], whenever the half bytes that
    [encodeInt x] produces sit in the byte buffer [data] from the half byte
    [(di, half)] on, [decodeInt] started at [(di, half)] returns [x], and leaves
    the position advanced by the number of half bytes of [encodeInt x], with
    [half] again 0 or 1, ready for the next call; in particular [decodeInt]
    returns [x] on the bytes the encoders pack [encodeInt x] into. *)
Theorem decodeInt_encodeInt_roundtrip (x : Z) :
  - 2 ^ 31 <= x < 2 ^ 31 ->
  (forall (data : list Z) (di : nat) (half : Z),
     half = 0 \/ half = 1 ->
     at_stream data (pos di half) (encodeInt x) ->
     exists di' half',
       decodeInt data di half = Ok (di', half', x)
       /\ pos di' half' = (pos di half + length (encodeInt x))%nat
       /\ (half' = 0 \/ half' = 1))
  /\ (exists di' half', decodeInt (packed (encodeInt x)) 0 0 = Ok (di', half', x)).
Proof.
  intros Hx. split.
  - intros data di half. apply decodeInt_encodeInt_at. exact Hx.
  - destruct (decodeInt_encodeInt_at x (packed (encodeInt x)) 0 0 Hx ltac:(auto))
      as (di' & half' & Hd & _).
    + unfold at_stream. change (pos 0 0) with 0%nat.
      rewrite drop_0, stream_packed. apply take_app_length'.
      rewrite length_fmap. reflexivity.
    + eauto.
Qed.

Lemma decodeInt_encodeInt_roundtrip_witness :
  (forall (data : list Z) (di : nat) (half : Z),
     half = 0 \/ half = 1 ->
     at_stream data (pos di half) (encodeInt 23) ->
     exists di' half',
       decodeInt data di half = Ok (di', half', 23)
       /\ pos di' half' = (pos di half + length (encodeInt 23))%nat
       /\ (half' = 0 \/ half' = 1))
  /\ (exists di' half', decodeInt (packed (encodeInt 23)) 0 0 = Ok (di', half', 23)).
Proof. apply (decodeInt_encodeInt_roundtrip 23). lia. Defined.

(** C2, as amended: when exactly one half byte is left in the last byte
    ([di] is the last index and [half] is 1), the loops of [decodeCount] and
    [decodeLinear] leave without storing anything if the low half of that byte
    is not [0x8], and if it is [0x8] they decode it (the integer 0) and store
    one more value; in every other state the test is not applied. *)
Theorem trailing_half_byte_rule (data : list Z) (di : nat) (b : Z)
    (fuel ri : nat) (ints1 ints2 : Z) (result : list double) :
  di = (length data - 1)%nat -> data !! di = Some b ->
  (Z.land b 15 <> 8 ->
     decodeCount_loop (S fuel) data di 1 ri result = Ok (ri, result)
     /\ decodeLinear_loop (S fuel) data di 1 ints1 ints2 ri result = Ok (ri, result))
  /\ (Z.land b 15 = 8 -> (ri < length result)%nat ->
     decodeCount_loop (S fuel) data di 1 ri result
     = Ok (S ri, <[ri:=of_int 0]> result)
     /\ decodeLinear_loop (S fuel) data di 1 ints1 ints2 ri result
        = Ok (S ri, <[ri:=ddiv (of_int (int32 (int32 (ints2 + int32 (ints2 - ints1)) + 0))) d100000]> result))
  /\ (forall di' half', ~ (di' = (length data - 1)%nat /\ half' = 1) ->
        trailing_break data di' half' = Ok false).
Proof.
  intros Hdi Hb.
  assert (Hlt : (di < length data)%nat) by (apply lookup_lt_Some in Hb; exact Hb).
  pose proof (trailing_break_last data di b Hdi Hb) as Hbrk.
  split; [ | split].
  - intros Hne. apply Z.eqb_neq in Hne. rewrite Hne in Hbrk. cbn [negb] in Hbrk.
    cbn [decodeCount_loop decodeLinear_loop].
    destruct (decide (di < length data)%nat) as [_ | ?]; [ | lia].
    rewrite Hbrk. split; reflexivity.
  - intros H8 Hri. pose proof (decodeInt_trailing_8 data di b Hb H8) as Hd.
    rewrite H8 in Hbrk. cbn [negb Z.eqb Pos.eqb] in Hbrk.
    cbn [decodeCount_loop decodeLinear_loop].
    destruct (decide (di < length data)%nat) as [_ | ?]; [ | lia].
    rewrite Hbrk. cbn [mbind outcome_bind]. rewrite Hd. cbn [mbind outcome_bind].
    rewrite !vec_set_ok by lia. cbn [mbind outcome_bind].
    destruct fuel as [| fuel]; cbn [decodeCount_loop decodeLinear_loop];
      destruct (decide (S di < length data)%nat) as [? | _]; try lia; split; reflexivity.
  - intros di' half'. apply trailing_break_other.
Qed.

Lemma trailing_half_byte_rule_witness :
  (Z.land 136 15 <> 8 ->
     decodeCount_loop 1 [136] 0 1 1 [dzero; dzero] = Ok (1%nat, [dzero; dzero])
     /\ decodeLinear_loop 1 [136] 0 1 0 0 1 [dzero; dzero] = Ok (1%nat, [dzero; dzero]))
  /\ (Z.land 136 15 = 8 -> (1 < length [dzero; dzero])%nat ->
     decodeCount_loop 1 [136] 0 1 1 [dzero; dzero]
     = Ok (2%nat, <[1%nat:=of_int 0]> [dzero; dzero])
     /\ decodeLinear_loop 1 [136] 0 1 0 0 1 [dzero; dzero]
        = Ok (2%nat, <[1%nat:=ddiv (of_int (int32 (int32 (0 + int32 (0 - 0)) + 0))) d100000]> [dzero; dzero]))
  /\ (forall di' half', ~ (di' = (length [136] - 1)%nat /\ half' = 1) ->
        trailing_break [136] di' half' = Ok false).
Proof.
  apply (trailing_half_byte_rule [136] 0 136 0 1 0 0 [dzero; dzero]); reflexivity.
Defined.

(** C2, as worded, fails: in the one-byte buffer [0x80] the low half [0x0] is
    not [0x8] and is dropped, not decoded; in [0x88] the low half [0x8] is
    decoded as a second value 0, not dropped. *)
Lemma trailing_rule_counterexample :
  (Z.land 128 15 <> 8 /\ decodeCount [128] [dzero; dzero] = Ok [of_int 0])
  /\ (Z.land 136 15 = 8 /\ decodeCount [136] [dzero; dzero] = Ok [of_int 0; of_int 0])
  /\ ~ trailing_rule_as_worded.
Proof.
  split; [split; [vm_compute; discriminate | vm_compute; reflexivity] | ].
  split; [split; vm_compute; reflexivity | ].
  intros Hrule.
  destruct (Hrule [136] 0%nat 136 0%nat [dzero] eq_refl eq_refl ltac:(cbn; lia)) as [_ H8].
  specialize (H8 eq_refl). vm_compute in H8. discriminate.
Qed.

(** C3, at the input where the code departs from it: the count 2147483648 is
    encoded as the [int] -2147483648 (bytes 00 00 00 00 80) and [decodeCount]
    gives back the double -2147483648, not 2147483648. *)
Theorem count_sign_at_2_31 :
  encodeCount [of_int 2147483648] 1 (replicate 5 0) = Ok ([0; 0; 0; 0; 128], 5%nat)
  /\ decodeCount [0; 0; 0; 0; 128] [dzero; dzero] = Ok [of_int (-2147483648)]
  /\ of_int (-2147483648) <> of_int 2147483648.
Proof. split; [ | split]; [vm_compute; reflexivity | vm_compute; reflexivity | discriminate]. Qed.

(** C4, as worded, fails: 30000.0 comes back as -12949.67296 (the decoder
    reads the fixed-point integer 3000000000 as an [int]); 1.000005 comes back
    as 1.00001, more than 5e-6 away by the rounding of the doubles; -0.00001
    comes back as 0.0, 1e-5 away, because the conversion truncates toward
    zero. *)
Lemma linear_precision_counterexample :
  (encodeLinear [d30000; d30000] 2 (replicate 10 0)
   = Ok ([0; 94; 208; 178; 0; 94; 208; 178; 0; 0], 8%nat)
   /\ decodeLinear [0; 94; 208; 178; 0; 94; 208; 178] (replicate 4 dzero)
      = Ok [ddiv (of_int (-1294967296)) d100000; ddiv (of_int (-1294967296)) d100000]
   /\ ~ within (5 # 1000000) (ddiv (of_int (-1294967296)) d100000) d30000)
  /\ (encodeLinear [d1_000005; d1_000005] 2 (replicate 10 0)
      = Ok ([161; 134; 1; 0; 161; 134; 1; 0; 0; 0], 8%nat)
      /\ decodeLinear [161; 134; 1; 0; 161; 134; 1; 0] (replicate 4 dzero)
         = Ok [ddiv (of_int 100001) d100000; ddiv (of_int 100001) d100000]
      /\ ~ within (5 # 1000000) (ddiv (of_int 100001) d100000) d1_000005)
  /\ (encodeLinear [dm0_00001; dm0_00001] 2 (replicate 10 0)
      = Ok ([0; 0; 0; 0; 0; 0; 0; 0; 0; 0], 8%nat)
      /\ decodeLinear [0; 0; 0; 0; 0; 0; 0; 0] (replicate 4 dzero)
         = Ok [ddiv (of_int 0) d100000; ddiv (of_int 0) d100000]
      /\ ~ within (5 # 1000000) (ddiv (of_int 0) d100000) dm0_00001)
  /\ ~ linear_precision_as_worded.
Proof.
  assert (H1 : ~ within (5 # 1000000) (ddiv (of_int (-1294967296)) d100000) d30000).
  { vm_compute. intros H. apply H. reflexivity. }
  assert (H2 : ~ within (5 # 1000000) (ddiv (of_int 100001) d100000) d1_000005).
  { vm_compute. intros H. apply H. reflexivity. }
  assert (H3 : ~ within (5 # 1000000) (ddiv (of_int 0) d100000) dm0_00001).
  { vm_compute. intros H. apply H. reflexivity. }
  split; [split; [vm_compute; reflexivity | split; [vm_compute; reflexivity | exact H1]] | ].
  split; [split; [vm_compute; reflexivity | split; [vm_compute; reflexivity | exact H2]] | ].
  split; [split; [vm_compute; reflexivity | split; [vm_compute; reflexivity | exact H3]] | ].
  intros Hw. apply H1.
  apply (Hw [d30000; d30000] (replicate 10 0) (replicate 4 dzero)
            [0; 94; 208; 178; 0; 94; 208; 178; 0; 0] 8%nat
            [ddiv (of_int (-1294967296)) d100000; ddiv (of_int (-1294967296)) d100000]
            ltac:(repeat constructor; vm_compute; discriminate)
            ltac:(vm_compute; reflexivity) ltac:(vm_compute; reflexivity)
            0%nat d30000 _ eq_refl eq_refl).
Qed.

(** C4, as amended: for every sequence of at least two doubles from 0 to
    21474.83647 (the fixed-point integer then fits an [int]), [encodeLinear]
    returns, [decodeLinear] on its bytes returns as many doubles, and each of
    them differs from the original by at most 5.000005e-6: half a fixed-point
    step and the rounding of the three operations on doubles. *)
Theorem linear_precision_bound (v : list double) (result0 : list Z) (result : list double) :
  Forall (in_range 0 (2147483647 # 100000)) v ->
  (2 <= length v)%nat ->
  (5 * length v <= length result0)%nat ->
  (length v <= length result)%nat ->
  exists res n r,
    encodeLinear v (length v) result0 = Ok (res, n)
    /\ decodeLinear (take n res) result = Ok r
    /\ length r = length v
    /\ forall (i : nat) (a d : double),
         v !! i = Some a -> r !! i = Some d -> within (5000005 # 1000000000000) d a.
Proof.
  intros Hv Hn Hcap Hres.
  destruct (fixed_point_in_range (2147483647 # 100000) 31 v ltac:(vm_compute; discriminate)
              ltac:(lia) Hv) as [ks Hks].
  assert (Hks' : Forall2 (fun d k => fixed_point d = Ok k) v ks).
  { eapply Forall2_impl; [exact Hks | ]. intros d k [E _]. exact E. }
  destruct (linear_round_trip v ks result0 result Hks' Hn Hcap Hres)
    as (res & n & He & _ & _ & Hd).
  exists res, n, (unfix <$> ks). split; [exact He | ]. split; [exact Hd | ].
  split; [rewrite length_fmap; symmetry; exact (Forall2_length _ _ _ Hks) | ].
  intros i a d Ha Hr.
  rewrite list_lookup_fmap in Hr.
  destruct (ks !! i) as [k | ] eqn:Ek; [ | discriminate]. injection Hr as <-.
  destruct (Forall2_lookup_lr _ _ _ _ _ _ Hks Ha Ek) as (_ & Hk & x & Ex & Hb).
  destruct (unfix_round k Hk) as (y & Ey & Hy).
  unfold within. rewrite Ey, Ex.
  change (2 ^ (31 - 53))%Q with (1 # 4194304)%Q in Hb.
  apply Qabs_Qle_condition in Hb. destruct Hb as [Hb1 Hb2].
  apply Qabs_Qle_condition in Hy. destruct Hy as [Hy1 Hy2].
  revert Hb1 Hb2 Hy1 Hy2. generalize (inject_Z k). intros K Hb1 Hb2 Hy1 Hy2.
  apply Qabs_Qle_condition. split; lra.
Qed.

Lemma linear_precision_bound_witness :
  exists res n r,
    encodeLinear [d1_000005; of_int 21474; d0_5] 3 (replicate 15 0) = Ok (res, n)
    /\ decodeLinear (take n res) (replicate 6 dzero) = Ok r
    /\ length r = 3%nat
    /\ forall (i : nat) (a d : double),
         [d1_000005; of_int 21474; d0_5] !! i = Some a -> r !! i = Some d ->
         within (5000005 # 1000000000000) d a.
Proof.
  apply (linear_precision_bound [d1_000005; of_int 21474; d0_5] (replicate 15 0)
           (replicate 6 dzero)).
  - repeat (constructor; [vm_compute; split; discriminate | ]). constructor.
  - cbn [length]; lia.
  - cbn [length replicate]; lia.
  - cbn [length replicate]; lia.
Defined.

(** C5: [encodeLinear] stores the fixed-point integers of the first two
    values, as they are, in the first eight bytes, each as four bytes least
    significant first, and [decodeLinear]'s header loop reads them back.  The
    fixed-point integer is the value times 100000 rounded to the nearest
    integer by adding 0.5 and truncating: for a value from 0 to 42949 it is
    at most [1/2 + 2^-21] away from the product, the half 1562.5 of 1/64
    goes up to 1563 and 1.000005 gives 100001.  On [1.0; 2.0; 3.0] the two
    words are 100000 and 200000, the residual of the third value is 0,
    [encodeInt 0] is the single half byte [0x8], and the ninth byte is
    [0x80]. *)
Theorem encodeLinear_header (d0 d1 : double) (ds : list double) (k0 k1 : Z) (ks : list Z)
    (result0 : list Z) :
  fixed_point d0 = Ok k0 -> fixed_point d1 = Ok k1 ->
  Forall2 (fun d k => fixed_point d = Ok k) ds ks ->
  (5 * length (d0 :: d1 :: ds) <= length result0)%nat ->
  (exists res n,
     encodeLinear (d0 :: d1 :: ds) (length (d0 :: d1 :: ds)) result0 = Ok (res, n)
     /\ take 8 res = le32 k0 ++ le32 k1
     /\ read_header 4 0 res 0 0 = Ok (int32 k0, int32 k1))
  /\ (forall x : Q, Qvalue d0 = Some x -> (0 <= x <= 42949)%Q ->
        (Qabs (inject_Z k0 - 100000 * x) <= (1 # 2) + (1 # 2097152))%Q)
  /\ (forall x : Q, Qvalue d1 = Some x -> (0 <= x <= 42949)%Q ->
        (Qabs (inject_Z k1 - 100000 * x) <= (1 # 2) + (1 # 2097152))%Q)
  /\ fixed_point (double_of 1 (-6)) = Ok 1563
  /\ fixed_point d1_000005 = Ok 100001
  /\ encodeLinear [double_of 1 (-6); d1_000005] 2 (replicate 10 0)
     = Ok (le32 1563 ++ le32 100001 ++ [0; 0], 8%nat)
  /\ fixed_point (of_int 1) = Ok 100000
  /\ fixed_point (of_int 2) = Ok 200000
  /\ fixed_point (of_int 3) = Ok 300000
  /\ residual 100000 200000 300000 = 0
  /\ encodeInt 0 = [8]
  /\ encodeLinear [of_int 1; of_int 2; of_int 3] 3 (replicate 15 0)
     = Ok (le32 100000 ++ le32 200000 ++ [128; 0; 0; 0; 0; 0; 0], 9%nat)
  /\ le32 100000 = [160; 134; 1; 0]
  /\ le32 200000 = [64; 13; 3; 0].
Proof.
  intros H0 H1 Hks Hcap.
  assert (Hround : forall (d : double) (k : Z) (x : Q),
            fixed_point d = Ok k -> Qvalue d = Some x -> (0 <= x <= 42949)%Q ->
            (Qabs (inject_Z k - 100000 * x) <= (1 # 2) + (1 # 2097152))%Q).
  { intros d k x Hd Hx [Hx0 Hx1].
    destruct (fixed_point_round d x 32 Hx Hx0) as (k' & Hk' & _ & Hb);
      [change (inject_Z (2 ^ 32 - 1)) with 4294967295%Q; lra | lia | ].
    rewrite Hd in Hk'. injection Hk' as <-. exact Hb. }
  split; [ | split; [exact (fun x => Hround d0 k0 x H0) | ]];
    [ | split; [exact (fun x => Hround d1 k1 x H1) | repeat conj_split; vm_compute; reflexivity]].
  pose proof (Forall2_length _ _ _ Hks) as Hl.
  pose proof (length_packed_residuals k0 k1 ks) as Hp.
  set (P := packed (hb_stream (residuals k0 k1 ks))) in *.
  cbn [length] in Hcap.
  eexists _, _. split; [apply encodeLinear_packed; try eassumption; fold P; lia | ].
  fold P.
  assert (E : blit 8 P (le32 k0 ++ le32 k1 ++ drop 8 result0)
              = le32 k0 ++ le32 k1 ++ P ++ drop (length P) (drop 8 result0)).
  { rewrite (app_assoc (le32 k0)), (blit_after (le32 k0 ++ le32 k1)), <- app_assoc.
    reflexivity. }
  rewrite E. split; [reflexivity | ].
  apply read_header_spec; [apply (fixed_point_range d0), H0 | apply (fixed_point_range d1), H1].
Qed.

Lemma encodeLinear_header_witness :
  (exists res n,
     encodeLinear [of_int 1; of_int 2; of_int 3] 3 (replicate 15 0) = Ok (res, n)
     /\ take 8 res = le32 100000 ++ le32 200000
     /\ read_header 4 0 res 0 0 = Ok (int32 100000, int32 200000))
  /\ (forall x : Q, Qvalue (of_int 1) = Some x -> (0 <= x <= 42949)%Q ->
        (Qabs (inject_Z 100000 - 100000 * x) <= (1 # 2) + (1 # 2097152))%Q)
  /\ (forall x : Q, Qvalue (of_int 2) = Some x -> (0 <= x <= 42949)%Q ->
        (Qabs (inject_Z 200000 - 100000 * x) <= (1 # 2) + (1 # 2097152))%Q)
  /\ fixed_point (double_of 1 (-6)) = Ok 1563
  /\ fixed_point d1_000005 = Ok 100001
  /\ encodeLinear [double_of 1 (-6); d1_000005] 2 (replicate 10 0)
     = Ok (le32 1563 ++ le32 100001 ++ [0; 0], 8%nat)
  /\ fixed_point (of_int 1) = Ok 100000
  /\ fixed_point (of_int 2) = Ok 200000
  /\ fixed_point (of_int 3) = Ok 300000
  /\ residual 100000 200000 300000 = 0
  /\ encodeInt 0 = [8]
  /\ encodeLinear [of_int 1; of_int 2; of_int 3] 3 (replicate 15 0)
     = Ok (le32 100000 ++ le32 200000 ++ [128; 0; 0; 0; 0; 0; 0], 9%nat)
  /\ le32 100000 = [160; 134; 1; 0]
  /\ le32 200000 = [64; 13; 3; 0].
Proof.
  apply (encodeLinear_header (of_int 1) (of_int 2) [of_int 3] 100000 200000 [300000]
           (replicate 15 0)).
  - vm_compute; reflexivity.
  - vm_compute; reflexivity.
  - repeat constructor; vm_compute; reflexivity.
  - cbn [length replicate]; lia.
Defined.

(** C6, at the inputs where the code departs from it: with [dataSize] 1 or 0
    and two doubles readable at [data], [encodeLinear] stores the eight header
    bytes and reports 8, more than [5 * dataSize]; with one double only it
    reads [data[1]] past the end. *)
Theorem encodeLinear_size_below_two :
  encodeLinear [of_int 1; of_int 2] 1 (replicate 8 0)
  = Ok ([160; 134; 1; 0; 64; 13; 3; 0], 8%nat)
  /\ (5 * 1 < 8)%nat
  /\ encodeLinear [of_int 1; of_int 2] 0 (replicate 8 0)
     = Ok ([160; 134; 1; 0; 64; 13; 3; 0], 8%nat)
  /\ encodeLinear [of_int 1] 1 (replicate 8 0) = OutOfRange Data 1.
Proof. repeat conj_split; try (vm_compute; reflexivity). lia. Qed.



(** C8, at inputs where the code departs from it: on the one-byte buffer
    [0x00] (a header promising eight more half bytes) [decodeCount] reads
    [data[1]] past the end; on a header cut to seven bytes [decodeLinear] reads
    [data[7]], and on a header followed by the byte [0x00] it reads [data[9]].
    The accesses are unchecked, nothing is thrown, so the [catch] block that
    prints "DECODE ERROR" and [di] does not run. *)
Theorem truncated_input_not_reported :
  decodeCount [0] (replicate 2 dzero) = OutOfRange Data 1
  /\ decodeLinear [160; 134; 1; 0; 64; 13; 3] (replicate 14 dzero) = OutOfRange Data 7
  /\ decodeLinear [160; 134; 1; 0; 64; 13; 3; 0; 0] (replicate 18 dzero) = OutOfRange Data 9.
Proof. repeat conj_split; vm_compute; reflexivity. Qed.

(** C9: whatever [dataSize] is, [encodeLinear] reads [data[0]] and [data[1]]
    (with no double at [data] the first read is out of range, with one the
    second is, and it never returns with fewer than two) and, when [dataSize]
    is 0 or 1, stores the eight header bytes and returns 8; with
    [2 <= dataSize] doubles at [data] and [5 * dataSize] bytes at [result] no
    access is out of range, and the count returned is at most
    [5 * dataSize]. *)
Theorem encodeLinear_needs_two (data : list double) (dataSize : nat) (result : list Z) :
  (length data = 0%nat -> encodeLinear data dataSize result = OutOfRange Data 0)
  /\ (forall d0 k0, data = [d0] -> fixed_point d0 = Ok k0 ->
        encodeLinear data dataSize result = OutOfRange Data 1)
  /\ ((length data < 2)%nat -> forall r, encodeLinear data dataSize result <> Ok r)
  /\ (forall d0 d1 rest k0 k1,
        data = d0 :: d1 :: rest -> fixed_point d0 = Ok k0 -> fixed_point d1 = Ok k1 ->
        (8 <= length result)%nat -> (dataSize < 2)%nat ->
        encodeLinear data dataSize result = Ok (le32 k0 ++ le32 k1 ++ drop 8 result, 8%nat))
  /\ ((2 <= dataSize)%nat -> (dataSize <= length data)%nat ->
      (5 * dataSize <= length result)%nat ->
      match encodeLinear data dataSize result with
      | Ok (res, n) => (8 <= n <= 5 * dataSize)%nat /\ length res = length result
      | BadConversion => True
      | _ => False
      end).
Proof.
  split; [ | split; [ | split; [ | split]]].
  - intros Hlen. destruct data; [reflexivity | discriminate].
  - intros d0 k0 -> Hk0. unfold encodeLinear.
    cbn [vec_get lookup list_lookup mbind outcome_bind]. rewrite Hk0. reflexivity.
  - intros Hlen r. unfold encodeLinear.
    destruct data as [| d0 [| d1 data]]; [discriminate | | cbn [length] in Hlen; lia].
    cbn [vec_get lookup list_lookup mbind outcome_bind].
    destruct (fixed_point d0); discriminate.
  - intros d0 d1 rest k0 k1 -> Hk0 Hk1 Hres Hsize. unfold encodeLinear.
    cbn [vec_get lookup list_lookup mbind outcome_bind]. rewrite Hk0.
    cbn [mbind outcome_bind]. rewrite Hk1. cbn [mbind outcome_bind].
    rewrite write_header_spec by exact Hres. cbn [mbind outcome_bind].
    replace (dataSize - 2)%nat with 0%nat by lia. reflexivity.
  - apply encodeLinear_safe.
Qed.

Lemma encodeLinear_needs_two_witness :
  encodeLinear [of_int 1] 1 (replicate 5 0) = OutOfRange Data 1
  /\ encodeLinear [of_int 1; of_int 2] 1 (replicate 8 0)
     = Ok (le32 100000 ++ le32 200000 ++ drop 8 (replicate 8 0), 8%nat)
  /\ match encodeLinear [of_int 1; of_int 2; of_int 3] 3 (replicate 15 0) with
     | Ok (res, n) => (8 <= n <= 5 * 3)%nat /\ length res = length (replicate 15 0)
     | BadConversion => True
     | _ => False
     end.
Proof.
  assert (H1 : fixed_point (of_int 1) = Ok 100000) by (vm_compute; reflexivity).
  assert (H2 : fixed_point (of_int 2) = Ok 200000) by (vm_compute; reflexivity).
  pose proof (encodeLinear_needs_two [of_int 1] 1 (replicate 5 0)) as (_ & Ha & _).
  pose proof (encodeLinear_needs_two [of_int 1; of_int 2] 1 (replicate 8 0))
    as (_ & _ & _ & Hb & _).
  pose proof (encodeLinear_needs_two [of_int 1; of_int 2; of_int 3] 3 (replicate 15 0))
    as (_ & _ & _ & _ & Hc).
  split; [exact (Ha _ _ eq_refl H1) | split].
  - exact (Hb _ _ _ _ _ eq_refl H1 H2 ltac:(cbn [length replicate]; lia) ltac:(lia)).
  - exact (Hc ltac:(lia) ltac:(cbn [length]; lia) ltac:(cbn [length replicate]; lia)).
Defined.

(** C10: on a vector of even length [decode2ByteFloat] reads within bounds
    and returns [length data / 2] doubles, one for every pair of bytes; on a
    vector of odd length the last iteration reads [data[dataSize]], one past
    the end, and, were that read to give a byte [b], it would store at index
    [dataSize / 2], one past the end of the resized [result]. *)
Theorem decode2ByteFloat_even_odd (exp : double -> double) (data : list Z)
    (result : list double) :
  (Nat.even (length data) = true ->
     decode2ByteFloat exp data result = Ok (floats_of exp data)
     /\ length (floats_of exp data) = (length data / 2)%nat)
  /\ (Nat.even (length data) = false ->
     decode2ByteFloat exp data result = OutOfRange Data (length data)
     /\ forall b : Z,
          decode2ByteFloat_loop exp (length data) (data ++ [b]) (length data) 0 0
            (resize (length data / 2) dzero result)
          = OutOfRange Result (length data / 2)).
Proof.
  split; intros Hpar.
  - split; [apply decode2ByteFloat_even; exact Hpar | apply length_floats_of].
  - split; [apply decode2ByteFloat_odd; exact Hpar | ].
    intros b. apply decode2ByteFloat_odd_write. exact Hpar.
Qed.

Lemma decode2ByteFloat_even_odd_witness :
  (decode2ByteFloat (fun d => d) [184; 11] [] = Ok (floats_of (fun d => d) [184; 11])
   /\ length (floats_of (fun d => d) [184; 11]) = (length [184; 11] / 2)%nat)
  /\ (decode2ByteFloat (fun d => d) [184; 11; 7] [] = OutOfRange Data (length [184; 11; 7])
      /\ forall b : Z,
           decode2ByteFloat_loop (fun d => d) (length [184; 11; 7]) ([184; 11; 7] ++ [b])
             (length [184; 11; 7]) 0 0 (resize (length [184; 11; 7] / 2) dzero [])
           = OutOfRange Result (length [184; 11; 7] / 2)).
Proof.
  pose proof (decode2ByteFloat_even_odd (fun d => d) [184; 11] []) as [He _].
  pose proof (decode2ByteFloat_even_odd (fun d => d) [184; 11; 7] []) as [_ Ho].
  split; [exact (He eq_refl) | exact (Ho eq_refl)].
Defined.

(** * Further properties of the code *)

(** ** The bytes of an encoding, and its round trip *)

Lemma length_encodeInt_pos (x : Z) :
  - 2 ^ 31 <= x < 2 ^ 31 -> (1 <= length (encodeInt x) <= 9)%nat.
Proof. intros Hx. destruct (length_encodeInt x Hx). lia. Qed.

Lemma length_hb_stream_ge (xs : list Z) :
  Forall (fun x => - 2 ^ 31 <= x < 2 ^ 31) xs ->
  (length xs <= length (hb_stream xs))%nat.
Proof.
  induction 1 as [| x xs Hx _ IH]; [cbn; lia | ].
  rewrite hb_stream_cons, length_app. cbn [length].
  pose proof (length_encodeInt_pos x Hx). lia.
Qed.


Lemma half_up (a : nat) : (2 * ((a + 1) / 2) <= a + 1 /\ a <= 2 * ((a + 1) / 2))%nat.
Proof.
  pose proof (Nat.div_mod_eq (a + 1) 2).
  pose proof (Nat.mod_upper_bound (a + 1) 2 ltac:(lia)). lia.
Qed.

Lemma drop_blit {A} (ri : nat) (bytes result : list A) :
  (ri + length bytes <= length result)%nat ->
  drop (ri + length bytes) (blit ri bytes result) = drop (ri + length bytes) result.
Proof.
  intros Hlen. unfold blit.
  rewrite app_assoc, drop_app_length'; [reflexivity | ].
  rewrite length_app, length_take. lia.
Qed.

(** X1: [decodeCount] after [encodeCount]: for doubles whose counts
    [c = (size_t)(d + 0.5)] are defined, with [5 * dataSize] bytes of buffer
    and a result vector of at least [dataSize] elements, [encodeCount]
    returns and [decodeCount] on the bytes it wrote returns every count as
    the [int] it was encoded as, converted to a double; when the counts are
    all below [2^31] these are the counts themselves. *)
Theorem encodeCount_decodeCount_round_trip (ds : list double) (cs : list Z)
    (result0 : list Z) (result : list double) :
  Forall2 (fun d c => to_size_t (dadd d d0_5) = Ok c) ds cs ->
  (5 * length ds <= length result0)%nat ->
  (length ds <= length result)%nat ->
  exists res n,
    encodeCount ds (length ds) result0 = Ok (res, n)
    /\ decodeCount (take n res) result = Ok (of_int <$> (int32 <$> cs))
    /\ (Forall (fun c => c < 2 ^ 31) cs ->
        decodeCount (take n res) result = Ok (of_int <$> cs)).
Proof.
  intros Hcs Hcap Hres.
  destruct (count_round_trip ds cs result0 result Hcs Hcap Hres) as (res & n & He & _ & Hd).
  exists res, n. split; [exact He | ]. split; [exact Hd | ].
  intros Hlt. rewrite Hd. f_equal.
  clear - Hcs Hlt. induction Hcs as [| d c ds cs Hc _ IH]; [reflexivity | ].
  inversion Hlt as [| ? ? Hc31 Hlt']; subst.
  cbn [fmap list_fmap]. f_equal; [ | apply IH; exact Hlt'].
  f_equal. apply int32_small. apply to_integer_range in Hc. lia.
Qed.

Lemma encodeCount_decodeCount_round_trip_witness :
  exists res n,
    encodeCount [of_int 0; of_int 23; of_int 4000000000] 3 (replicate 15 0) = Ok (res, n)
    /\ decodeCount (take n res) (replicate 3 dzero)
       = Ok (of_int <$> (int32 <$> [0; 23; 4000000000]))
    /\ (Forall (fun c => c < 2 ^ 31) [0; 23; 4000000000] ->
        decodeCount (take n res) (replicate 3 dzero)
        = Ok (of_int <$> [0; 23; 4000000000])).
Proof.
  apply (encodeCount_decodeCount_round_trip
           [of_int 0; of_int 23; of_int 4000000000] [0; 23; 4000000000]
           (replicate 15 0) (replicate 3 dzero)).
  - repeat constructor; vm_compute; reflexivity.
  - cbn [length replicate]; lia.
  - cbn [length replicate]; lia.
Defined.

(** X2: the bytes [encodeCount] writes are exactly the half bytes of
    [encodeInt] of every count, in order, two a byte with the first in the
    high half, followed by a zero half byte when their number is odd; the
    bytes of [result] from the returned count on are left as they were. *)
Theorem encodeCount_bytes (ds : list double) (cs : list Z) (result0 : list Z) :
  Forall2 (fun d c => to_size_t (dadd d d0_5) = Ok c) ds cs ->
  (5 * length ds <= length result0)%nat ->
  exists res n,
    encodeCount ds (length ds) result0 = Ok (res, n)
    /\ stream (take n res)
       = (nibble <$> hb_stream (int32 <$> cs)) ++ padding (hb_stream (int32 <$> cs))
    /\ drop n res = drop n result0.
Proof.
  intros Hcs Hcap.
  pose proof (Forall2_int32_range _ _ _ Hcs) as Hxs.
  pose proof (length_hb_stream _ Hxs) as Hhb.
  pose proof (Forall2_length _ _ _ Hcs) as Hl.
  rewrite length_fmap in Hhb.
  set (P := packed (hb_stream (int32 <$> cs))).
  assert (HP : length P = ((length (hb_stream (int32 <$> cs)) + 1) / 2)%nat)
    by apply length_packed.
  pose proof (half_up (length (hb_stream (int32 <$> cs)))) as Hh.
  exists (blit 0 P result0), (length P).
  split; [apply encodeCount_packed; [exact Hcs | fold P; lia] | ].
  split; [rewrite take_blit_0; apply stream_packed | ].
  apply (drop_blit 0 P result0). lia.
Qed.

Lemma encodeCount_bytes_witness :
  exists res n,
    encodeCount [of_int 0; of_int 23] (length [of_int 0; of_int 23]) (replicate 10 7)
    = Ok (res, n)
    /\ stream (take n res)
       = (nibble <$> hb_stream (int32 <$> [0; 23])) ++ padding (hb_stream (int32 <$> [0; 23]))
    /\ drop n res = drop n (replicate 10 7).
Proof.
  apply (encodeCount_bytes [of_int 0; of_int 23] [0; 23] (replicate 10 7)).
  - repeat constructor; vm_compute; reflexivity.
  - cbn [length replicate]; lia.
Defined.

(** X3: the bytes [encodeLinear] writes are the two
    little-endian header words followed by the half bytes of [encodeInt] of
    every residual of the linear prediction, in order, two a byte with the
    first in the high half, and a zero half byte when their number is odd;
    the bytes of [result] from the returned count on are left as they
    were. *)
Theorem encodeLinear_bytes (d0 d1 : double) (ds : list double) (k0 k1 : Z) (ks : list Z)
    (result0 : list Z) :
  fixed_point d0 = Ok k0 -> fixed_point d1 = Ok k1 ->
  Forall2 (fun d k => fixed_point d = Ok k) ds ks ->
  (5 * length (d0 :: d1 :: ds) <= length result0)%nat ->
  exists res n,
    encodeLinear (d0 :: d1 :: ds) (length (d0 :: d1 :: ds)) result0 = Ok (res, n)
    /\ take 8 res = le32 k0 ++ le32 k1
    /\ stream (drop 8 (take n res))
       = (nibble <$> hb_stream (residuals k0 k1 ks)) ++ padding (hb_stream (residuals k0 k1 ks))
    /\ drop n res = drop n result0.
Proof.
  intros H0 H1 Hks Hcap.
  pose proof (Forall2_length _ _ _ Hks) as Hl.
  pose proof (length_packed_residuals k0 k1 ks) as HP.
  set (P := packed (hb_stream (residuals k0 k1 ks))) in *.
  cbn [length] in Hcap.
  assert (E : blit 8 P (le32 k0 ++ le32 k1 ++ drop 8 result0)
              = (le32 k0 ++ le32 k1) ++ P ++ drop (length P) (drop 8 result0)).
  { rewrite (app_assoc (le32 k0)). apply (blit_after (le32 k0 ++ le32 k1)). }
  exists (blit 8 P (le32 k0 ++ le32 k1 ++ drop 8 result0)), (8 + length P)%nat.
  split; [apply (encodeLinear_packed d0 d1 ds k0 k1 ks result0 H0 H1 Hks); fold P; lia | ].
  rewrite E. split; [reflexivity | ]. split.
  - rewrite (app_assoc _ P), take_app_length' by (rewrite !length_app; cbn [le32 length]; lia).
    rewrite drop_app_length' by reflexivity. apply stream_packed.
  - rewrite (app_assoc _ P), drop_app_length' by (rewrite !length_app; cbn [le32 length]; lia).
    rewrite drop_drop. reflexivity.
Qed.

Lemma encodeLinear_bytes_witness :
  exists res n,
    encodeLinear [of_int 1; of_int 2; of_int 3] (length [of_int 1; of_int 2; of_int 3])
      (replicate 15 7) = Ok (res, n)
    /\ take 8 res = le32 100000 ++ le32 200000
    /\ stream (drop 8 (take n res))
       = (nibble <$> hb_stream (residuals 100000 200000 [300000]))
         ++ padding (hb_stream (residuals 100000 200000 [300000]))
    /\ drop n res = drop n (replicate 15 7).
Proof.
  apply (encodeLinear_bytes (of_int 1) (of_int 2) [of_int 3] 100000 200000 [300000]
           (replicate 15 7)).
  - vm_compute; reflexivity.
  - vm_compute; reflexivity.
  - repeat constructor; vm_compute; reflexivity.
  - cbn [length replicate]; lia.
Defined.

(** ** The size of an encoded integer *)

Lemma small_cases (z : Z) : 0 <= z <= 8 ->
  z = 0 \/ z = 1 \/ z = 2 \/ z = 3 \/ z = 4 \/ z = 5 \/ z = 6 \/ z = 7 \/ z = 8.
Proof. lia. Qed.

(** X4: the number of half bytes [encodeInt] produces follows the
    magnitude of [x]: one for 0, two for -1, and [j + 2] when
    [16^j <= x < 16^(j+1)] or [-16^(j+1) <= x < -16^j], for [j] from 0
    to 7. *)
Theorem encodeInt_size (x j : Z) :
  - 2 ^ 31 <= x < 2 ^ 31 -> 0 <= j <= 7 ->
  (x = 0 -> length (encodeInt x) = 1%nat)
  /\ (x = -1 -> length (encodeInt x) = 2%nat)
  /\ (16 ^ j <= x < 16 ^ (j + 1) \/ - 16 ^ (j + 1) <= x < - 16 ^ j ->
      Z.of_nat (length (encodeInt x)) = j + 2).
Proof.
  intros Hx Hj.
  split; [intros ->; reflexivity | ]. split; [intros ->; reflexivity | ].
  intros Hmag.
  destruct (encodeInt_cases x Hx) as [l Hl Hxl Hlow _ He | l Hl Hxl Hlow _ He | Hbig _ He];
    rewrite He; cbn [length]; rewrite length_halfbytes.
  - assert (Hl' : 0 <= l <= 8) by lia.
    assert (Hj' : 0 <= j <= 8) by lia.
    destruct (small_cases l Hl') as [-> | [-> | [-> | [-> | [-> | [-> | [-> | [-> | ->]]]]]]]];
    destruct (small_cases j Hj') as [-> | [-> | [-> | [-> | [-> | [-> | [-> | [-> | ->]]]]]]]];
      cbn in Hxl, Hlow, Hmag |- *; lia.
  - assert (Hl' : 0 <= l <= 8) by lia.
    assert (Hj' : 0 <= j <= 8) by lia.
    destruct (small_cases l Hl') as [-> | [-> | [-> | [-> | [-> | [-> | [-> | [-> | ->]]]]]]]];
    destruct (small_cases j Hj') as [-> | [-> | [-> | [-> | [-> | [-> | [-> | [-> | ->]]]]]]]];
      cbn in Hxl, Hlow, Hmag |- *; lia.
  - assert (Hj' : 0 <= j <= 8) by lia.
    destruct (small_cases j Hj') as [-> | [-> | [-> | [-> | [-> | [-> | [-> | [-> | ->]]]]]]]];
      cbn in Hmag, Hbig |- *; lia.
Qed.

Lemma encodeInt_size_witness :
  (23 = 0 -> length (encodeInt 23) = 1%nat)
  /\ (23 = -1 -> length (encodeInt 23) = 2%nat)
  /\ (16 ^ 1 <= 23 < 16 ^ (1 + 1) \/ - 16 ^ (1 + 1) <= 23 < - 16 ^ 1 ->
      Z.of_nat (length (encodeInt 23)) = 1 + 2).
Proof. apply (encodeInt_size 23 1); lia. Defined.







(** ** Data on a straight line *)

Lemma residual_constant (a b c : Z) : c - b = b - a -> residual a b c = 0.
Proof.
  intros E. unfold residual, int32, uint32. Z.div_mod_to_equations. lia.
Qed.

Lemma residuals_constant (ks : list Z) : forall k0 k1,
  constant_step (k0 :: k1 :: ks) -> residuals k0 k1 ks = replicate (length ks) 0.
Proof.
  induction ks as [| k ks IH]; intros k0 k1 Hstep; [reflexivity | ].
  cbn [residuals length replicate]. f_equal.
  - apply residual_constant. apply (Hstep 0%nat); reflexivity.
  - apply IH. intros i a b c Ha Hb Hc. apply (Hstep (S i)); assumption.
Qed.

Lemma hb_stream_zeros (m : nat) : hb_stream (replicate m 0) = replicate m 8.
Proof.
  induction m as [| m IH]; [reflexivity | ].
  cbn [replicate]. rewrite hb_stream_cons, IH. reflexivity.
Qed.

Lemma packed_zeros (m : nat) : packed (replicate m 8) = zeros_packed m.
Proof.
  assert (H : packed (replicate m 8) = zeros_packed m
              /\ packed (replicate (S m) 8) = zeros_packed (S m)).
  { induction m as [| m [IH1 IH2]]; [split; reflexivity | ].
    split; [exact IH2 | ].
    unfold packed, last_byte, zeros_packed in *. cbn [replicate] in *.
    rewrite carry_over_cons2. cbn [pack].
    change (uchar (Z.lor (Z.shiftl 8 4) (Z.land 8 15))) with 136.
    rewrite <- app_comm_cons, IH1.
    change (S (S m)) with (2 + m)%nat.
    replace ((2 + m) / 2)%nat with (S (m / 2)).
    2:{ replace (2 + m)%nat with (1 * 2 + m)%nat by lia.
        rewrite Nat.div_add_l by lia. lia. }
    replace (Nat.odd (2 + m)) with (Nat.odd m) by (rewrite Nat.odd_add; reflexivity).
    reflexivity. }
  apply H.
Qed.

Lemma length_zeros_packed (m : nat) : length (zeros_packed m) = ((m + 1) / 2)%nat.
Proof.
  rewrite <- packed_zeros, length_packed, length_replicate. reflexivity.
Qed.

(** X7: on data whose fixed-point integers advance by a
    constant step every residual is 0, and [encodeLinear] writes the header
    and then one byte [0x88] for every two further values, with a last byte
    [0x80] when their number is odd: [8 + (dataSize - 2 + 1) / 2] bytes. *)
Theorem encodeLinear_constant_step (d0 d1 : double) (ds : list double)
    (k0 k1 : Z) (ks : list Z) (result0 : list Z) :
  fixed_point d0 = Ok k0 -> fixed_point d1 = Ok k1 ->
  Forall2 (fun d k => fixed_point d = Ok k) ds ks ->
  constant_step (k0 :: k1 :: ks) ->
  (8 + (length ds + 1) / 2 <= length result0)%nat ->
  exists res,
    encodeLinear (d0 :: d1 :: ds) (length (d0 :: d1 :: ds)) result0
    = Ok (res, (8 + (length ds + 1) / 2)%nat)
    /\ take (8 + (length ds + 1) / 2) res = le32 k0 ++ le32 k1 ++ zeros_packed (length ds).
Proof.
  intros H0 H1 Hks Hstep Hcap.
  pose proof (Forall2_length _ _ _ Hks) as Hl.
  pose proof (encodeLinear_packed d0 d1 ds k0 k1 ks result0 H0 H1 Hks) as He.
  rewrite (residuals_constant ks k0 k1 Hstep), hb_stream_zeros, packed_zeros in He.
  rewrite length_zeros_packed, <- Hl in He.
  eexists. split; [apply He; exact Hcap | ].
  rewrite (app_assoc (le32 k0)).
  rewrite (blit_after (le32 k0 ++ le32 k1)), !app_assoc.
  apply take_app_length'.
  rewrite !length_app, length_zeros_packed. cbn [le32 length]. lia.
Qed.

Lemma encodeLinear_constant_step_witness :
  exists res,
    encodeLinear [of_int 1; of_int 2; of_int 3; of_int 4; of_int 5]
      (length [of_int 1; of_int 2; of_int 3; of_int 4; of_int 5]) (replicate 10 0)
    = Ok (res, (8 + (length [of_int 3; of_int 4; of_int 5] + 1) / 2)%nat)
    /\ take (8 + (length [of_int 3; of_int 4; of_int 5] + 1) / 2) res
       = le32 100000 ++ le32 200000 ++ zeros_packed (length [of_int 3; of_int 4; of_int 5]).
Proof.
  apply (encodeLinear_constant_step (of_int 1) (of_int 2) [of_int 3; of_int 4; of_int 5]
           100000 200000 [300000; 400000; 500000] (replicate 10 0)).
  - vm_compute; reflexivity.
  - vm_compute; reflexivity.
  - repeat constructor; vm_compute; reflexivity.
  - intros [| [| [| i]]] a b c Ha Hb Hc; cbn in Ha, Hb, Hc; try discriminate;
      inversion Ha; inversion Hb; inversion Hc; subst; reflexivity.
  - cbn [length replicate]. vm_compute. lia.
Defined.

(** ** The integer codec *)

(** X8: the half bytes of [encodeInt] form a prefix code: for
    [int]s [x] and [y], if the half bytes of [encodeInt x] are a prefix of
    those of [encodeInt y] then [x = y]; in particular [encodeInt] is
    injective. *)
Theorem encodeInt_prefix_free (x y : Z) :
  - 2 ^ 31 <= x < 2 ^ 31 -> - 2 ^ 31 <= y < 2 ^ 31 ->
  ((nibble <$> encodeInt x) `prefix_of` (nibble <$> encodeInt y) -> x = y)
  /\ (encodeInt x = encodeInt y -> x = y).
Proof.
  intros Hx Hy.
  assert (Hpre : (nibble <$> encodeInt x) `prefix_of` (nibble <$> encodeInt y) -> x = y).
  { intros [k Hk].
    set (data := packed (encodeInt y)).
    assert (Hs : stream data = (nibble <$> encodeInt x) ++ k ++ padding (encodeInt y)).
    { unfold data. rewrite stream_packed, Hk, <- app_assoc. reflexivity. }
    destruct (decodeInt_encodeInt_at x data 0 0 Hx ltac:(auto)) as (di1 & h1 & E1 & _).
    { unfold at_stream. change (pos 0 0) with 0%nat. rewrite drop_0, Hs.
      apply take_app_length'. rewrite length_fmap. reflexivity. }
    destruct (decodeInt_encodeInt_at y data 0 0 Hy ltac:(auto)) as (di2 & h2 & E2 & _).
    { unfold at_stream. change (pos 0 0) with 0%nat. rewrite drop_0.
      unfold data. rewrite stream_packed.
      apply take_app_length'. rewrite length_fmap. reflexivity. }
    rewrite E1 in E2. inversion E2. reflexivity. }
  split; [exact Hpre | ].
  intros E. apply Hpre. rewrite E. exists []. rewrite app_nil_r. reflexivity.
Qed.

Lemma encodeInt_prefix_free_witness :
  ((nibble <$> encodeInt 23) `prefix_of` (nibble <$> encodeInt (-1)) -> 23 = -1)
  /\ (encodeInt 23 = encodeInt (-1) -> 23 = -1).
Proof. apply (encodeInt_prefix_free 23 (-1)); lia. Defined.

Lemma decodeInt_zeros_run (x l : Z) (data : list Z) (di : nat) (half : Z) :
  - 2 ^ 31 <= x < 2 ^ 31 -> 0 <= l <= 8 -> (1 <= l -> 0 <= x < 16 ^ (8 - l)) ->
  half = 0 \/ half = 1 ->
  at_stream data (pos di half) (run_encoding false l x) ->
  exists di' half',
    decodeInt data di half = Ok (di', half', x)
    /\ pos di' half' = (pos di half + Z.to_nat (9 - l))%nat
    /\ (half' = 0 \/ half' = 1).
Proof.
  intros Hx Hl Hxl Hh Hat. unfold run_encoding in Hat.
  pose proof (at_stream_lookup _ _ _ Hat 0%nat _ eq_refl) as H0.
  rewrite Nat.add_0_r in H0.
  replace (nibble l) with l in H0.
  2:{ rewrite <- (nibble_small l) at 1 by lia. unfold uchar. rewrite Z.mod_small by lia.
      reflexivity. }
  destruct (read_half_stream _ _ _ _ Hh H0) as (di1 & half1 & Hr & Hp & Hh1).
  unfold decodeInt. rewrite Hr. cbn.
  destruct (Z.leb_spec l 8) as [_ | ?]; [ | lia].
  destruct (Z.eqb_spec l 8) as [-> | Hne].
  - exists di1, half1. specialize (Hxl ltac:(lia)). change (16 ^ (8 - 8)) with 1 in Hxl.
    replace x with 0 by lia. split; [reflexivity | ]. split; [unfold pos in *; lia | assumption].
  - destruct (decodeInt_loop_spec data x (8 - l) 0 Hx ltac:(lia) ltac:(lia)
                (Z.to_nat (8 - l)) 0 di1 half1 Hh1 ltac:(lia) ltac:(lia))
      as (di' & half' & Hd & Hp' & Hh').
    { rewrite Hp. apply (at_stream_halfbytes _ _ _ _ _ Hat). }
    exists di', half'.
    replace (lowpart x 0 + 16 ^ (8 - l) * 0) with 0 in Hd
      by (unfold lowpart; cbn; rewrite Z.mod_1_r; lia).
    replace (lowpart x (8 - l) + 16 ^ (8 - l) * 0) with x in Hd.
    2:{ unfold lowpart. destruct (Z.ltb_spec (8 - l) 8) as [Hlt | ?]; [ | lia].
        rewrite Z.mod_small by lia. lia. }
    split; [exact Hd | ]. split; [unfold pos in *; lia | assumption].
Qed.

Lemma decodeInt_ones_run (x l : Z) (data : list Z) (di : nat) (half : Z) :
  1 <= l <= 7 -> - 16 ^ (8 - l) <= x < 0 ->
  half = 0 \/ half = 1 ->
  at_stream data (pos di half) (run_encoding true l x) ->
  exists di' half',
    decodeInt data di half = Ok (di', half', x)
    /\ pos di' half' = (pos di half + Z.to_nat (9 - l))%nat
    /\ (half' = 0 \/ half' = 1).
Proof.
  intros Hl Hxl Hh Hat. unfold run_encoding in Hat.
  assert (Hx : - 2 ^ 31 <= x < 2 ^ 31).
  { assert (16 ^ (8 - l) <= 16 ^ 7) by (apply Z.pow_le_mono_r; lia). lia. }
  pose proof (at_stream_lookup _ _ _ Hat 0%nat _ eq_refl) as H0.
  rewrite Nat.add_0_r in H0.
  replace (nibble (l + 8)) with (l + 8) in H0.
  2:{ rewrite <- (nibble_small (l + 8)) at 1 by lia. unfold uchar. rewrite Z.mod_small by lia.
      reflexivity. }
  destruct (read_half_stream _ _ _ _ Hh H0) as (di1 & half1 & Hr & Hp & Hh1).
  unfold decodeInt. rewrite Hr. cbn.
  destruct (Z.leb_spec (l + 8) 8) as [? | _]; [lia | ].
  replace (l + 8 - 8) with l by lia.
  destruct (Z.eqb_spec l 8) as [? | _]; [lia | ].
  rewrite fill_ones_spec by lia.
  destruct (decodeInt_loop_spec data x (8 - l) (-1) Hx ltac:(lia) ltac:(lia)
              (Z.to_nat (8 - l)) 0 di1 half1 Hh1 ltac:(lia) ltac:(lia))
    as (di' & half' & Hd & Hp' & Hh').
  { rewrite Hp. apply (at_stream_halfbytes _ _ _ _ _ Hat). }
  exists di', half'.
  replace (lowpart x 0 + 16 ^ (8 - l) * -1) with (16 ^ (8 - l) * -1) in Hd
    by (unfold lowpart; cbn; rewrite Z.mod_1_r; lia).
  replace (lowpart x (8 - l) + 16 ^ (8 - l) * -1) with x in Hd.
  2:{ unfold lowpart. destruct (Z.ltb_spec (8 - l) 8) as [_ | ?]; [ | lia].
      rewrite <- (Z.mod_unique x (16 ^ (8 - l)) (-1) (x + 16 ^ (8 - l))) by lia. lia. }
  split; [exact Hd | ]. split; [unfold pos in *; lia | assumption].
Qed.

(** X9: [decodeInt] accepts any count half byte that does not
    overstate the run: a count [l] followed by the low [8 - l] half bytes
    of [x] decodes to [x] whenever the [l] high half bytes of [x] are zero,
    and a count [l + 8] likewise whenever they are all ones, also when [l]
    is below the count [encodeInt] would choose; [9 - l] half bytes are
    consumed. *)
Theorem decodeInt_any_run (ones : bool) (x l : Z) (data : list Z) (di : nat) (half : Z) :
  half = 0 \/ half = 1 ->
  (if ones then 1 <= l <= 7 /\ - 16 ^ (8 - l) <= x < 0
   else 0 <= l <= 8 /\ - 2 ^ 31 <= x < 2 ^ 31 /\ (1 <= l -> 0 <= x < 16 ^ (8 - l))) ->
  at_stream data (pos di half) (run_encoding ones l x) ->
  exists di' half',
    decodeInt data di half = Ok (di', half', x)
    /\ pos di' half' = (pos di half + Z.to_nat (9 - l))%nat
    /\ (half' = 0 \/ half' = 1).
Proof.
  intros Hh Hrun Hat. destruct ones.
  - destruct Hrun as [Hl Hx]. apply (decodeInt_ones_run x l); assumption.
  - destruct Hrun as (Hl & Hx & Hxl). apply (decodeInt_zeros_run x l); assumption.
Qed.

Lemma decodeInt_any_run_witness :
  exists di' half',
    decodeInt [7; 16; 0; 0; 0] 0 0 = Ok (di', half', 23)
    /\ pos di' half' = (pos 0 0 + Z.to_nat (9 - 0))%nat
    /\ (half' = 0 \/ half' = 1).
Proof.
  apply (decodeInt_any_run false 23 0 [7; 16; 0; 0; 0] 0 0).
  - left; reflexivity.
  - cbn; lia.
  - reflexivity.
Defined.

(** ** The decoders on any bytes *)

Lemma read_half_index (data : list Z) (di : nat) (half : Z) :
  half = 0 \/ half = 1 -> (pos di half <= 2 * length data)%nat ->
  match read_half data di half with
  | Ok (_, di', half') =>
      pos di' half' = S (pos di half) /\ (half' = 0 \/ half' = 1)
      /\ (pos di' half' <= 2 * length data)%nat
  | OutOfRange Data i => i = length data
  | _ => False
  end.
Proof.
  intros Hh Hdi. unfold read_half, vec_get.
  destruct (data !! di) as [b | ] eqn:E.
  - apply lookup_lt_Some in E. cbn [mbind outcome_bind].
    destruct Hh as [-> | ->]; cbn; unfold pos in *; cbn in *; repeat split; auto; lia.
  - apply lookup_ge_None in E. cbn [mbind outcome_bind].
    destruct Hh as [-> | ->]; unfold pos in *; cbn in *; lia.
Qed.

Lemma decodeInt_loop_index (data : list Z) :
  forall (cnt : nat) (k : Z) (di : nat) (half res : Z),
  half = 0 \/ half = 1 -> (pos di half <= 2 * length data)%nat ->
  match decodeInt_loop data cnt k di half res with
  | Ok (di', half', _) =>
      pos di' half' = (pos di half + cnt)%nat /\ (half' = 0 \/ half' = 1)
      /\ (pos di' half' <= 2 * length data)%nat
  | OutOfRange Data i => i = length data
  | _ => False
  end.
Proof.
  induction cnt as [| cnt IH]; intros k di half res Hh Hdi; cbn [decodeInt_loop].
  - split; [lia | ]. split; assumption.
  - pose proof (read_half_index data di half Hh Hdi) as Hr.
    destruct (read_half data di half) as [[[hb di1] half1] | [] ? | | ]; try exact Hr.
    cbn [mbind outcome_bind]. destruct Hr as (Hp & Hh1 & Hdi1).
    specialize (IH (k + 1) di1 half1 (Z.lor res (int32 (Z.shiftl hb (k * 4)))) Hh1 Hdi1).
    destruct (decodeInt_loop data cnt _ di1 half1 _) as [[[di' half'] r] | [] ? | | ];
      try exact IH.
    destruct IH as (Hp' & Hh' & Hdi'). split; [lia | ]. split; assumption.
Qed.

Lemma decodeInt_index (data : list Z) (di : nat) (half : Z) :
  half = 0 \/ half = 1 -> (pos di half <= 2 * length data)%nat ->
  match decodeInt data di half with
  | Ok (di', half', _) =>
      (pos di half < pos di' half' <= 2 * length data)%nat /\ (half' = 0 \/ half' = 1)
  | OutOfRange Data i => i = length data
  | _ => False
  end.
Proof.
  intros Hh Hdi. unfold decodeInt.
  pose proof (read_half_index data di half Hh Hdi) as Hr.
  destruct (read_half data di half) as [[[head di1] half1] | [] ? | | ]; try exact Hr.
  cbn [mbind outcome_bind]. destruct Hr as (Hp & Hh1 & Hdi1).
  destruct (if head <=? 8 then (head, 0) else (head - 8, fill_ones 0 (Z.to_nat (head - 8)) 0))
    as [n res].
  destruct (n =? 8).
  - split; [lia | assumption].
  - pose proof (decodeInt_loop_index data (Z.to_nat (8 - n)) 0 di1 half1 res Hh1 Hdi1) as Hl.
    destruct (decodeInt_loop data _ 0 di1 half1 res) as [[[di' half'] r] | [] ? | | ];
      try exact Hl.
    destruct Hl as (Hp' & Hh' & Hdi'). split; [lia | assumption].
Qed.

(** What a decoder loop can end in, whatever the bytes and the size of
    [result]; [B] bounds the number of values by the half bytes left. *)
Lemma decodeCount_loop_outcomes (data : list Z) (B : nat) :
  forall (fuel : nat) (di : nat) (half : Z) (ri : nat) (result : list double),
  half = 0 \/ half = 1 ->
  (2 * length data <= fuel + pos di half)%nat ->
  (ri <= length result)%nat ->
  (ri + (2 * length data - pos di half) <= B)%nat ->
  match decodeCount_loop fuel data di half ri result with
  | Ok (ri', result') =>
      (ri <= ri' <= length result)%nat /\ (ri' <= B)%nat /\ length result' = length result
  | OutOfRange Data i => i = length data
  | OutOfRange Result i => i = length result /\ (length result < B)%nat
  | _ => False
  end.
Proof.
  induction fuel as [| fuel IH]; intros di half ri result Hh Hfuel Hri HB;
    cbn [decodeCount_loop];
    (destruct (decide (di < length data)%nat) as [Hdi | Hdi];
     [ | split; [lia | split; [lia | reflexivity]]]);
    pose proof (proj2 (pos_lt data di half Hh) Hdi) as Hp; [lia | ].
  destruct (trailing_break_cases data di half Hdi) as [brk ->]. cbn [mbind outcome_bind].
  destruct brk; [split; [lia | split; [lia | reflexivity]] | ].
  pose proof (decodeInt_index data di half Hh ltac:(lia)) as Hd.
  destruct (decodeInt data di half) as [[[di' half'] count] | [] ? | | ]; try (exact Hd || contradiction).
  cbn [mbind outcome_bind]. destruct Hd as [Hadv Hh'].
  unfold vec_set. destruct (decide (ri < length result)%nat) as [Hlt | Hge];
    cbn [mbind outcome_bind]; [ | lia].
  specialize (IH di' half' (S ri) (<[ri:=of_int count]> result) Hh' ltac:(lia)).
  rewrite length_insert in IH. specialize (IH ltac:(lia) ltac:(lia)).
  destruct (decodeCount_loop fuel data di' half' (S ri) _) as [[ri' result'] | [] ? | | ];
    try (exact IH || contradiction).
  destruct IH as (Hri' & HB' & Hlen). split; [lia | split; [lia | exact Hlen]].
Qed.

Lemma decodeLinear_loop_outcomes (data : list Z) (B : nat) :
  forall (fuel : nat) (di : nat) (half ints1 ints2 : Z) (ri : nat) (result : list double),
  half = 0 \/ half = 1 ->
  (2 * length data <= fuel + pos di half)%nat ->
  (ri <= length result)%nat ->
  (ri + (2 * length data - pos di half) <= B)%nat ->
  match decodeLinear_loop fuel data di half ints1 ints2 ri result with
  | Ok (ri', result') =>
      (ri <= ri' <= length result)%nat /\ (ri' <= B)%nat /\ length result' = length result
  | OutOfRange Data i => i = length data
  | OutOfRange Result i => i = length result /\ (length result < B)%nat
  | _ => False
  end.
Proof.
  induction fuel as [| fuel IH]; intros di half ints1 ints2 ri result Hh Hfuel Hri HB;
    cbn [decodeLinear_loop];
    (destruct (decide (di < length data)%nat) as [Hdi | Hdi];
     [ | split; [lia | split; [lia | reflexivity]]]);
    pose proof (proj2 (pos_lt data di half Hh) Hdi) as Hp; [lia | ].
  destruct (trailing_break_cases data di half Hdi) as [brk ->]. cbn [mbind outcome_bind].
  destruct brk; [split; [lia | split; [lia | reflexivity]] | ].
  pose proof (decodeInt_index data di half Hh ltac:(lia)) as Hd.
  destruct (decodeInt data di half) as [[[di' half'] diff] | [] ? | | ]; try (exact Hd || contradiction).
  cbn [mbind outcome_bind]. destruct Hd as [Hadv Hh'].
  unfold vec_set. destruct (decide (ri < length result)%nat) as [Hlt | Hge];
    cbn [mbind outcome_bind]; [ | lia].
  match goal with
  | |- context [decodeLinear_loop fuel data di' half' ?a ?b (S ri) ?r] =>
      specialize (IH di' half' a b (S ri) r Hh' ltac:(lia));
      rewrite length_insert in IH; specialize (IH ltac:(lia) ltac:(lia));
      destruct (decodeLinear_loop fuel data di' half' a b (S ri) r)
        as [[ri' result'] | [] ? | | ]; try (exact IH || contradiction)
  end.
  destruct IH as (Hri' & HB' & Hlen). split; [lia | split; [lia | exact Hlen]].
Qed.

(** X10: on any bytes and any result vector, [decodeCount] ends
    (the fuel never runs out), and it ends in one of three ways: it returns
    at most [2 * data.size()] values, and no more than the vector had
    elements when it was called; or it reads [data[data.size()]], one past
    the end, and nothing further; or it writes [result[result.size()]], which
    happens only to a vector of fewer than [2 * data.size()] elements. *)
Theorem decodeCount_outcomes (data : list Z) (result : list double) :
  match decodeCount data result with
  | Ok r => (length r <= 2 * length data)%nat /\ (length r <= length result)%nat
  | OutOfRange Data i => i = length data
  | OutOfRange Result i => i = length result /\ (length result < 2 * length data)%nat
  | _ => False
  end.
Proof.
  unfold decodeCount.
  pose proof (decodeCount_loop_outcomes data (2 * length data) (2 * length data) 0 0 0 result
                ltac:(auto) ltac:(lia) ltac:(lia) ltac:(unfold pos; cbn; lia)) as Hloop.
  destruct (decodeCount_loop (2 * length data) data 0 0 0 result)
    as [[ri' result'] | [] ? | | ]; try exact Hloop.
  cbn [mbind outcome_bind]. rewrite length_resize. lia.
Qed.

Lemma read_header_index (data : list Z) :
  match read_header 4 0 data 0 0 with
  | Ok _ => (8 <= length data)%nat
  | OutOfRange Data i =>
      (length data < 8)%nat
      /\ i = (if (length data =? 0)%nat then 0 else Nat.max 4 (length data))%nat
  | _ => False
  end.
Proof.
  cbn [read_header]. unfold vec_get. cbn [Nat.add].
  repeat (match goal with
          | |- context [data !! ?i] =>
              let b := fresh "b" in let E := fresh "E" in
              destruct (data !! i) as [b | ] eqn:E;
              [apply lookup_lt_Some in E
              | apply lookup_ge_None in E; cbn [mbind outcome_bind];
                destruct (Nat.eqb_spec (length data) 0); lia]
          end; cbn [mbind outcome_bind]).
  lia.
Qed.

(** X11: on any bytes and any result vector, [decodeLinear]
    ends, in one of three ways: it returns between 2 and
    [2 * data.size() - 14] values, no more than the vector had elements, and
    only when there are at least 8 bytes; or it reads past the end of
    [data], at index [data.size()] or, with fewer than 8 bytes, at the first
    missing index in the order 0, 4, 1, 5, 2, 6, 3, 7 of the header loop; or
    it writes [result[result.size()]], which happens only to a vector of
    fewer than [2 * data.size() - 14] elements. *)
Theorem decodeLinear_outcomes (data : list Z) (result : list double) :
  match decodeLinear data result with
  | Ok r =>
      (8 <= length data)%nat /\ (2 <= length r <= 2 * length data - 14)%nat
      /\ (length r <= length result)%nat
  | OutOfRange Data i =>
      i = (if (length data =? 0)%nat then 0 else Nat.max 4 (length data))%nat
  | OutOfRange Result i =>
      (8 <= length data)%nat /\ i = length result
      /\ (length result < 2 * length data - 14)%nat
  | _ => False
  end.
Proof.
  unfold decodeLinear.
  pose proof (read_header_index data) as Hh.
  destruct (read_header 4 0 data 0 0) as [[ints1 ints2] | [] ? | | ];
    try (exact Hh || contradiction); [ | exact (proj2 Hh)].
  cbn [mbind outcome_bind].
  destruct (decide (0 < length result)%nat) as [H0 | H0];
    [rewrite vec_set_ok by lia
    | rewrite vec_set_out by lia; cbn [mbind outcome_bind]; lia].
  cbn [mbind outcome_bind].
  destruct (decide (1 < length result)%nat) as [H1 | H1];
    [rewrite vec_set_ok by (rewrite length_insert; lia)
    | rewrite vec_set_out by (rewrite length_insert; lia); cbn [mbind outcome_bind]; lia].
  cbn [mbind outcome_bind].
  match goal with
  | |- context [decodeLinear_loop ?f data 8 0 ?a ?b 2 ?r] =>
      pose proof (decodeLinear_loop_outcomes data (2 * length data - 14) f 8 0 a b 2 r
                    ltac:(auto) ltac:(lia)) as Hloop;
      rewrite !length_insert in Hloop;
      specialize (Hloop ltac:(lia) ltac:(unfold pos; cbn; lia));
      destruct (decodeLinear_loop f data 8 0 a b 2 r) as [[ri' result'] | [] ? | | ];
        try (exact Hloop || contradiction)
  end.
  - cbn [mbind outcome_bind]. rewrite length_resize. lia.
  - cbn [mbind outcome_bind]. subst. destruct (Nat.eqb_spec (length data) 0); lia.
  - cbn [mbind outcome_bind]. lia.
Qed.

(** X12: the bound of two values a byte is reached:
    [n] bytes [0x88] decode to [2 * n] zeros. *)
Theorem decodeCount_two_values_per_byte (n : nat) (result : list double) :
  (2 * n <= length result)%nat ->
  decodeCount (replicate n 136) result = Ok (replicate (2 * n) (of_int 0)).
Proof.
  intros Hcap.
  pose proof (decodeCount_packed (replicate (2 * n) 0) result) as Hd.
  rewrite hb_stream_zeros, packed_zeros, fmap_replicate, length_replicate in Hd.
  unfold zeros_packed in Hd.
  replace (2 * n / 2)%nat with n in Hd by (rewrite Nat.mul_comm, Nat.div_mul; lia).
  replace (Nat.odd (2 * n)) with false in Hd.
  2:{ symmetry. rewrite <- Nat.negb_even, Nat.even_mul. reflexivity. }
  rewrite app_nil_r in Hd. apply Hd; [ | exact Hcap].
  apply Forall_replicate. lia.
Qed.

Lemma decodeCount_two_values_per_byte_witness :
  decodeCount (replicate 3 136) (replicate 6 dzero) = Ok (replicate (2 * 3) (of_int 0)).
Proof.
  apply (decodeCount_two_values_per_byte 3 (replicate 6 dzero)).
  cbn [length replicate]; lia.
Defined.

(** ** The two-byte float codec *)

Lemma le16_value (fp : Z) :
  0 <= fp <= 65535 ->
  Z.lor (uchar (Z.land fp 255)) (Z.shiftl (uchar (Z.shiftr fp 8)) 8) mod 65536 = fp.
Proof.
  intros Hfp. unfold uchar. change 255 with (Z.ones 8). rewrite Z.land_ones by lia.
  rewrite Z.shiftr_div_pow2, Z.shiftl_mul_pow2 by lia. change (2 ^ 8) with 256.
  rewrite Z.mod_mod by lia.
  rewrite (Z.mod_small (fp / 256)) by (Z.div_mod_to_equations; lia).
  rewrite (Z.mul_comm _ 256). change 256 with (2 ^ 8).
  rewrite lor_disjoint by (try apply Z.mod_pos_bound; lia).
  change (2 ^ 8) with 256. rewrite Z.mod_small by (Z.div_mod_to_equations; lia).
  Z.div_mod_to_equations. lia.
Qed.

Lemma floats_of_le16 (exp : double -> double) (fps : list Z) :
  Forall (fun fp => 0 <= fp <= 65535) fps ->
  floats_of exp (fps ≫= le16) = (fun fp => exp (ddiv (of_int fp) d3000)) <$> fps.
Proof.
  induction 1 as [| fp fps Hfp _ IH]; [reflexivity | ].
  cbn [mbind list_bind le16 app floats_of fmap list_fmap].
  unfold float_of. rewrite le16_value by exact Hfp. f_equal. exact IH.
Qed.

Lemma length_bind_le16 (fps : list Z) : length (fps ≫= le16) = (2 * length fps)%nat.
Proof.
  induction fps as [| fp fps IH]; [reflexivity | ].
  cbn [mbind list_bind le16 app length] in *. lia.
Qed.

Lemma encode2ByteFloat_loop_spec (log : double -> double) (post : list double)
    (result0 : list Z) :
  forall (ds : list double) (fps : list Z),
  Forall2 (fun d fp => to_ushort (dadd (dmul (log d) d3000) d0_5) = Ok fp) ds fps ->
  forall (pre : list double) (done : list Z),
  (length done + 2 * length ds <= length result0)%nat ->
  encode2ByteFloat_loop log (length ds) (length pre) (pre ++ ds ++ post)
    (length done) (blit 0 done result0)
  = Ok (blit 0 (done ++ (fps ≫= le16)) result0, (length done + 2 * length ds)%nat).
Proof.
  induction 1 as [| d fp ds fps Hfp _ IH]; intros pre done Hlen.
  - cbn. rewrite app_nil_r, Nat.add_0_r. reflexivity.
  - cbn [length encode2ByteFloat_loop] in *. unfold vec_get.
    rewrite lookup_app_r, Nat.sub_diag by lia. cbn [app lookup list_lookup mbind outcome_bind].
    rewrite Hfp. cbn [mbind outcome_bind].
    rewrite (vec_set_blit Result 0 done result0) by lia. cbn [mbind outcome_bind].
    pose proof (vec_set_blit Result 0 (done ++ [uchar (Z.land fp 255)]) result0
                  (uchar (Z.shiftr fp 8))) as Hset.
    rewrite length_app in Hset. cbn [length Nat.add] in Hset.
    replace (length done + 1)%nat with (S (length done)) in Hset by lia.
    rewrite Hset by lia. cbn [mbind outcome_bind].
    specialize (IH (pre ++ [d]) ((done ++ [uchar (Z.land fp 255)]) ++ [uchar (Z.shiftr fp 8)])).
    rewrite !length_app, <- !app_assoc in IH. cbn [length app] in IH.
    replace (S (length pre)) with (length pre + 1)%nat by lia.
    replace (S (S (length done))) with (length done + 1 + 1)%nat by lia.
    rewrite <- (app_assoc done). cbn [app].
    rewrite IH by lia. cbn [mbind list_bind le16 app].
    do 2 f_equal. lia.
Qed.

(** X13: [decode2ByteFloat] after
    [encode2ByteFloat]: when the fixed-point values
    [fp = (unsigned short)(log(d) * 3000.0 + 0.5)] are defined and the buffer
    has [2 * dataSize] bytes, [encode2ByteFloat] writes for every value the
    low byte of [fp] and then its high byte, returns [2 * dataSize], leaves
    the rest of the buffer as it was, and [decode2ByteFloat] on these bytes
    returns [exp(fp / 3000.0)] for every value, whatever [log] and [exp]
    compute. *)
Theorem encode2ByteFloat_decode2ByteFloat_round_trip (log exp : double -> double)
    (ds : list double) (fps : list Z) (result0 : list Z) (result : list double) :
  Forall2 (fun d fp => to_ushort (dadd (dmul (log d) d3000) d0_5) = Ok fp) ds fps ->
  (2 * length ds <= length result0)%nat ->
  exists res,
    encode2ByteFloat log ds (length ds) result0 = Ok (res, (2 * length ds)%nat)
    /\ take (2 * length ds) res = fps ≫= le16
    /\ drop (2 * length ds) res = drop (2 * length ds) result0
    /\ decode2ByteFloat exp (take (2 * length ds) res) result
       = Ok ((fun fp => exp (ddiv (of_int fp) d3000)) <$> fps).
Proof.
  intros Hfps Hcap.
  pose proof (Forall2_length _ _ _ Hfps) as Hl.
  pose proof (length_bind_le16 fps) as Hb.
  assert (Hr : Forall (fun fp => 0 <= fp <= 65535) fps).
  { clear - Hfps. induction Hfps as [| d fp ds fps Hfp _ IH]; constructor; [ | exact IH].
    apply to_integer_range in Hfp. exact Hfp. }
  pose proof (encode2ByteFloat_loop_spec log [] result0 ds fps Hfps [] []) as He.
  rewrite app_nil_r, blit_nil in He. cbn [app length Nat.add] in He.
  exists (blit 0 (fps ≫= le16) result0).
  split; [apply He; lia | ].
  assert (Ht : take (2 * length ds) (blit 0 (fps ≫= le16) result0) = fps ≫= le16).
  { rewrite Hl, <- Hb. apply take_blit_0. }
  split; [exact Ht | ].
  split.
  { rewrite Hl, <- Hb. apply (drop_blit 0). lia. }
  rewrite Ht, <- floats_of_le16 by exact Hr.
  apply decode2ByteFloat_even.
  rewrite Hb, Nat.even_mul. reflexivity.
Qed.

Lemma encode2ByteFloat_decode2ByteFloat_round_trip_witness :
  exists res,
    encode2ByteFloat (fun d => d) [of_int 1; of_int 2] (length [of_int 1; of_int 2])
      (replicate 5 0) = Ok (res, (2 * length [of_int 1; of_int 2])%nat)
    /\ take (2 * length [of_int 1; of_int 2]) res = [3000; 6000] ≫= le16
    /\ drop (2 * length [of_int 1; of_int 2]) res
       = drop (2 * length [of_int 1; of_int 2]) (replicate 5 0)
    /\ decode2ByteFloat (fun d => d) (take (2 * length [of_int 1; of_int 2]) res) []
       = Ok ((fun fp => ddiv (of_int fp) d3000) <$> [3000; 6000]).
Proof.
  apply (encode2ByteFloat_decode2ByteFloat_round_trip (fun d => d) (fun d => d)
           [of_int 1; of_int 2] [3000; 6000] (replicate 5 0) []).
  - repeat constructor; vm_compute; reflexivity.
  - cbn [length replicate]; lia.
Defined.

(** ** The encoders on any input *)

Lemma pack_pairs_outcomes (hbs : list Z) : forall (ri : nat) (result : list Z),
  (ri <= length result)%nat ->
  match pack_pairs hbs ri result with
  | Ok (ri', result') =>
      ri' = (ri + length hbs / 2)%nat /\ length result' = length result
      /\ (ri' <= length result)%nat
  | OutOfRange Result i =>
      i = length result /\ (2 * length result + 2 <= 2 * ri + length hbs)%nat
  | _ => False
  end.
Proof.
  induction hbs as [| a | a b l IH] using pair_ind; intros ri result Hri.
  - cbn. lia.
  - cbn. lia.
  - cbn [pack_pairs length].
    replace (S (S (length l)) / 2)%nat with (S (length l / 2)).
    2:{ replace (S (S (length l))) with (1 * 2 + length l)%nat by lia.
        rewrite Nat.div_add_l by lia. lia. }
    destruct (decide (ri < length result)%nat) as [Hlt | Hge].
    + rewrite vec_set_ok by exact Hlt. cbn [mbind outcome_bind].
      specialize (IH (S ri) (<[ri:=uchar (Z.lor (Z.shiftl a 4) (Z.land b 15))]> result)).
      rewrite length_insert in IH. specialize (IH ltac:(lia)).
      destruct (pack_pairs l (S ri) _) as [[ri' result'] | [] ? | | ];
        try (exact IH || contradiction); lia.
    + rewrite vec_set_out by lia. cbn [mbind outcome_bind]. lia.
Qed.

Lemma encodeCount_loop_outcomes (data : list double) (dataSize : nat) :
  forall (n i : nat) (hbs : list Z) (ri : nat) (result : list Z),
  (length hbs <= 1)%nat -> (i + n = dataSize)%nat -> (i <= length data)%nat ->
  (ri <= length result)%nat -> (i <= 2 * ri + length hbs <= 9 * i)%nat ->
  match encodeCount_loop n i data hbs ri result with
  | Ok (hbs', ri', result') =>
      (length hbs' <= 1)%nat
      /\ (dataSize <= 2 * ri' + length hbs' <= 9 * dataSize)%nat
      /\ (ri' <= length result)%nat /\ length result' = length result
      /\ (dataSize <= length data)%nat
  | OutOfRange Data j => j = length data /\ (length data < dataSize)%nat
  | OutOfRange Result j => j = length result /\ (2 * length result + 2 <= 9 * dataSize)%nat
  | BadConversion => True
  | OutOfFuel => False
  end.
Proof.
  induction n as [| n IH]; intros i hbs ri result Hhbs Hi Hdata Hri Hacc.
  - cbn. lia.
  - cbn [encodeCount_loop]. unfold vec_get.
    destruct (data !! i) as [d | ] eqn:Hd; cbn [mbind outcome_bind].
    2:{ apply lookup_ge_None in Hd. lia. }
    apply lookup_lt_Some in Hd.
    destruct (to_integer_cases 0 (2 ^ 64 - 1) (dadd d d0_5)) as [[c Hc] | Hc];
      unfold to_size_t; rewrite Hc; cbn [mbind outcome_bind]; [ | exact I].
    pose proof (length_encodeInt_pos (int32 c) (int32_range _)) as Hlen.
    set (hbs2 := hbs ++ encodeInt (int32 c)).
    assert (Hlen2 : length hbs2 = (length hbs + length (encodeInt (int32 c)))%nat)
      by apply length_app.
    pose proof (Nat.div_mod_eq (length hbs2) 2) as Hdm.
    pose proof (Nat.mod_upper_bound (length hbs2) 2 ltac:(lia)) as Hm.
    pose proof (length_carry_over hbs2) as Hco.
    pose proof (pack_pairs_outcomes hbs2 ri result Hri) as Hp.
    destruct (pack_pairs hbs2 ri result) as [[ri1 result1] | [] ? | | ];
      try (exact Hp || contradiction); cbn [mbind outcome_bind]; [ | lia].
    destruct Hp as (Hri1 & Hl1 & Hle1).
    specialize (IH (S i) (carry_over hbs2) ri1 result1
                  ltac:(lia) ltac:(lia) ltac:(lia) ltac:(lia) ltac:(lia)).
    destruct (encodeCount_loop n (S i) data (carry_over hbs2) ri1 result1)
      as [[[hbs' ri'] result'] | [] ? | | ]; try (exact IH || contradiction); lia.
Qed.

(** X14: on any input, [encodeCount] either returns a count
    [n] with [dataSize <= 2 * n <= 9 * dataSize + 1] and [n] no more than the
    buffer size, having read only [data[0 .. dataSize - 1]]; or reads
    one past the doubles supplied, when they are fewer than [dataSize]; or
    writes one past the end of a buffer of fewer than
    [9 * dataSize / 2] bytes; or meets a double whose conversion to [size_t]
    is out of range. *)
Theorem encodeCount_outcomes (data : list double) (dataSize : nat) (result : list Z) :
  match encodeCount data dataSize result with
  | Ok (res, n) =>
      (dataSize <= length data)%nat /\ (dataSize <= 2 * n <= 9 * dataSize + 1)%nat
      /\ (n <= length result)%nat /\ length res = length result
  | OutOfRange Data i => i = length data /\ (length data < dataSize)%nat
  | OutOfRange Result i => i = length result /\ (2 * length result < 9 * dataSize)%nat
  | BadConversion => True
  | OutOfFuel => False
  end.
Proof.
  unfold encodeCount.
  pose proof (encodeCount_loop_outcomes data dataSize dataSize 0 [] 0 result
                ltac:(cbn; lia) ltac:(lia) ltac:(lia) ltac:(lia) ltac:(cbn; lia)) as Hloop.
  destruct (encodeCount_loop dataSize 0 data [] 0 result)
    as [[[hbs' ri'] result'] | [] ? | | ]; try (exact Hloop || contradiction);
    cbn [mbind outcome_bind]; [ | lia].
  destruct Hloop as (Hh & Hacc & Hri & Hlen & Hdata).
  destruct hbs' as [| h [| h' t]]; cbn [flush length] in *; [lia | | lia].
  destruct (decide (ri' < length result')%nat) as [Hlt | Hge].
  - rewrite vec_set_ok by exact Hlt. cbn [mbind outcome_bind]. rewrite length_insert. lia.
  - rewrite vec_set_out by lia. cbn [mbind outcome_bind]. lia.
Qed.

Lemma write_header_index (k1 k2 : Z) (result : list Z) :
  match write_header 4 0 k1 k2 result with
  | Ok result' => (8 <= length result)%nat /\ length result' = length result
  | OutOfRange Result i =>
      (length result < 8)%nat
      /\ i = (if (length result =? 0)%nat then 0 else Nat.max 4 (length result))%nat
  | _ => False
  end.
Proof.
  destruct (decide (8 <= length result)%nat) as [Hge | Hlt].
  - rewrite write_header_spec by exact Hge. split; [exact Hge | ].
    rewrite !length_app, length_drop. cbn [le32 length]. lia.
  - cbn [write_header Nat.add]. unfold vec_set.
    repeat (match goal with
            | |- context [decide (?i < ?n)%nat] =>
                destruct (decide (i < n)%nat);
                [ | cbn [mbind outcome_bind]; rewrite ?length_insert in *;
                    destruct (Nat.eqb_spec (length result) 0); lia]
            end; cbn [mbind outcome_bind]).
    rewrite ?length_insert in *. lia.
Qed.

Lemma encodeLinear_loop_outcomes (data : list double) (dataSize : nat) :
  forall (n i : nat) (k0 k1 : Z) (hbs : list Z) (ri : nat) (result : list Z),
  (length hbs <= 1)%nat -> (i + n = dataSize)%nat -> (2 <= i <= length data)%nat ->
  (ri <= length result)%nat -> (i + 14 <= 2 * ri + length hbs <= 9 * i - 2)%nat ->
  match encodeLinear_loop n i data k0 k1 hbs ri result with
  | Ok (hbs', ri', result') =>
      (length hbs' <= 1)%nat
      /\ (dataSize + 14 <= 2 * ri' + length hbs' <= 9 * dataSize - 2)%nat
      /\ (ri' <= length result)%nat /\ length result' = length result
      /\ (dataSize <= length data)%nat
  | OutOfRange Data j => j = length data /\ (length data < dataSize)%nat
  | OutOfRange Result j => j = length result /\ (2 * length result <= 9 * dataSize - 4)%nat
  | BadConversion => True
  | OutOfFuel => False
  end.
Proof.
  induction n as [| n IH]; intros i k0 k1 hbs ri result Hhbs Hi Hdata Hri Hacc.
  - cbn. lia.
  - cbn [encodeLinear_loop]. unfold vec_get.
    destruct (data !! i) as [d | ] eqn:Hd; cbn [mbind outcome_bind].
    2:{ apply lookup_ge_None in Hd. lia. }
    apply lookup_lt_Some in Hd.
    destruct (to_integer_cases 0 (2 ^ 32 - 1) (dadd (dmul d d100000) d0_5)) as [[k Hk] | Hk];
      unfold fixed_point, to_uint32; rewrite Hk; cbn [mbind outcome_bind]; [ | exact I].
    set (diff := int32 (uint32 (k - int32 (uint32 (k1 + uint32 (k1 - k0)))))).
    pose proof (length_encodeInt_pos diff (int32_range _)) as Hlen.
    set (hbs2 := hbs ++ encodeInt diff).
    assert (Hlen2 : length hbs2 = (length hbs + length (encodeInt diff))%nat)
      by apply length_app.
    pose proof (Nat.div_mod_eq (length hbs2) 2) as Hdm.
    pose proof (Nat.mod_upper_bound (length hbs2) 2 ltac:(lia)) as Hm.
    pose proof (length_carry_over hbs2) as Hco.
    pose proof (pack_pairs_outcomes hbs2 ri result Hri) as Hp.
    destruct (pack_pairs hbs2 ri result) as [[ri1 result1] | [] ? | | ];
      try (exact Hp || contradiction); cbn [mbind outcome_bind]; [ | lia].
    destruct Hp as (Hri1 & Hl1 & Hle1).
    specialize (IH (S i) k1 k (carry_over hbs2) ri1 result1
                  ltac:(lia) ltac:(lia) ltac:(lia) ltac:(lia) ltac:(lia)).
    destruct (encodeLinear_loop n (S i) data k1 k (carry_over hbs2) ri1 result1)
      as [[[hbs' ri'] result'] | [] ? | | ]; try (exact IH || contradiction); lia.
Qed.

(** X15: on any input, with [m] the larger of 2 and
    [dataSize], [encodeLinear] either returns a count [n] with
    [m + 14 <= 2 * n <= 9 * m - 1], no more than the buffer size, having read
    [m] doubles; or reads one past the doubles supplied, when they are fewer
    than [m]; or writes past the end of the buffer, in the header when it
    has fewer than 8 bytes and at its end otherwise; or meets a double whose
    conversion to [unsigned int] is out of range. *)
Theorem encodeLinear_outcomes (data : list double) (dataSize : nat) (result : list Z) :
  match encodeLinear data dataSize result with
  | Ok (res, n) =>
      (Nat.max 2 dataSize <= length data)%nat
      /\ (Nat.max 2 dataSize + 14 <= 2 * n <= 9 * Nat.max 2 dataSize - 1)%nat
      /\ (n <= length result)%nat /\ length res = length result
  | OutOfRange Data i => i = length data /\ (length data < Nat.max 2 dataSize)%nat
  | OutOfRange Result i =>
      ((length result < 8)%nat
       /\ i = (if (length result =? 0)%nat then 0 else Nat.max 4 (length result))%nat)
      \/ (i = length result /\ (2 * length result < 9 * dataSize - 2)%nat)
  | BadConversion => True
  | OutOfFuel => False
  end.
Proof.
  unfold encodeLinear, vec_get.
  destruct (data !! 0%nat) as [d0 | ] eqn:Hd0; cbn [mbind outcome_bind].
  2:{ apply lookup_ge_None in Hd0. lia. }
  apply lookup_lt_Some in Hd0.
  destruct (to_integer_cases 0 (2 ^ 32 - 1) (dadd (dmul d0 d100000) d0_5)) as [[k0 Hk0] | Hk0];
    unfold fixed_point, to_uint32; rewrite Hk0; cbn [mbind outcome_bind]; [ | exact I].
  destruct (data !! 1%nat) as [d1 | ] eqn:Hd1; cbn [mbind outcome_bind].
  2:{ apply lookup_ge_None in Hd1. lia. }
  apply lookup_lt_Some in Hd1.
  destruct (to_integer_cases 0 (2 ^ 32 - 1) (dadd (dmul d1 d100000) d0_5)) as [[k1 Hk1] | Hk1];
    rewrite Hk1; cbn [mbind outcome_bind]; [ | exact I].
  pose proof (write_header_index k0 k1 result) as Hw.
  destruct (write_header 4 0 k0 k1 result) as [result1 | [] ? | | ];
    try (exact Hw || contradiction); cbn [mbind outcome_bind]; [ | left; exact Hw].
  destruct Hw as [H8 Hl1].
  destruct (decide (dataSize <= 2)%nat) as [Hsmall | Hbig].
  - replace (dataSize - 2)%nat with 0%nat by lia. cbn [encodeLinear_loop mbind outcome_bind flush].
    lia.
  - pose proof (encodeLinear_loop_outcomes data dataSize (dataSize - 2) 2 k0 k1 [] 8 result1
                  ltac:(cbn; lia) ltac:(lia) ltac:(lia) ltac:(lia) ltac:(cbn; lia)) as Hloop.
    destruct (encodeLinear_loop (dataSize - 2) 2 data k0 k1 [] 8 result1)
      as [[[hbs' ri'] result'] | [] ? | | ]; try (exact Hloop || contradiction);
      cbn [mbind outcome_bind]; [ | lia | right; lia].
    destruct Hloop as (Hh & Hacc & Hri & Hlen & Hdata).
    destruct hbs' as [| h [| h' t]]; cbn [flush length] in *; [lia | | lia].
    destruct (decide (ri' < length result')%nat) as [Hlt | Hge].
    + rewrite vec_set_ok by exact Hlt. cbn [mbind outcome_bind]. rewrite length_insert. lia.
    + rewrite vec_set_out by lia. cbn [mbind outcome_bind]. right. lia.
Qed.

Lemma encode2ByteFloat_loop_outcomes (log : double -> double) (data : list double)
    (dataSize : nat) :
  forall (n i ri : nat) (result : list Z),
  (i + n = dataSize)%nat -> (i <= length data)%nat -> ri = (2 * i)%nat ->
  (ri <= length result)%nat ->
  match encode2ByteFloat_loop log n i data ri result with
  | Ok (res, m) =>
      m = (2 * dataSize)%nat /\ (dataSize <= length data)%nat
      /\ (m <= length result)%nat /\ length res = length result
  | OutOfRange Data j => j = length data /\ (length data < dataSize)%nat
  | OutOfRange Result j => j = length result /\ (length result < 2 * dataSize)%nat
  | BadConversion => True
  | OutOfFuel => False
  end.
Proof.
  induction n as [| n IH]; intros i ri result Hi Hdata Hri Hcap;
    cbn [encode2ByteFloat_loop].
  - lia.
  - unfold vec_get.
    destruct (data !! i) as [d | ] eqn:Hd; cbn [mbind outcome_bind].
    2:{ apply lookup_ge_None in Hd. lia. }
    apply lookup_lt_Some in Hd.
    destruct (to_integer_cases 0 65535 (dadd (dmul (log d) d3000) d0_5)) as [[fp Hfp] | Hfp];
      unfold to_ushort; rewrite Hfp; cbn [mbind outcome_bind]; [ | exact I].
    destruct (decide (ri < length result)%nat) as [H0 | H0];
      [rewrite vec_set_ok by exact H0
      | rewrite vec_set_out by lia; cbn [mbind outcome_bind]; lia].
    cbn [mbind outcome_bind].
    destruct (decide (S ri < length result)%nat) as [H1 | H1];
      [rewrite vec_set_ok by (rewrite length_insert; exact H1)
      | rewrite vec_set_out by (rewrite length_insert; lia); cbn [mbind outcome_bind]; lia].
    cbn [mbind outcome_bind].
    match goal with
    | |- context [encode2ByteFloat_loop log n (S i) data (S (S ri)) ?r] =>
        specialize (IH (S i) (S (S ri)) r ltac:(lia) ltac:(lia) ltac:(lia));
        rewrite !length_insert in IH; specialize (IH ltac:(lia));
        destruct (encode2ByteFloat_loop log n (S i) data (S (S ri)) r)
          as [[res m] | [] ? | | ]; try (exact IH || contradiction)
    end.
Qed.

(** X16: on any input, [encode2ByteFloat] either returns
    exactly [2 * dataSize], having read [dataSize] doubles and written within
    the buffer; or reads one past the doubles supplied, when they are fewer
    than [dataSize]; or writes one past the end of a buffer of fewer than
    [2 * dataSize] bytes; or meets a value whose conversion to
    [unsigned short] is out of range. *)
Theorem encode2ByteFloat_outcomes (log : double -> double) (data : list double)
    (dataSize : nat) (result : list Z) :
  match encode2ByteFloat log data dataSize result with
  | Ok (res, n) =>
      n = (2 * dataSize)%nat /\ (dataSize <= length data)%nat
      /\ (n <= length result)%nat /\ length res = length result
  | OutOfRange Data i => i = length data /\ (length data < dataSize)%nat
  | OutOfRange Result i => i = length result /\ (length result < 2 * dataSize)%nat
  | BadConversion => True
  | OutOfFuel => False
  end.
Proof.
  unfold encode2ByteFloat.
  apply (encode2ByteFloat_loop_outcomes log data dataSize dataSize 0 0 result); lia.
Qed.

(** ** Round trips beyond the signed range, and concatenation *)

(** X17: [decodeLinear] after [encodeLinear], for
    every sequence of at least two doubles whose fixed-point integers [k]
    are defined: the value returned is [k / 100000.0] when [k < 2^31] and
    [(k - 2^32) / 100000.0] otherwise, since [decodeLinear] keeps the
    integers in an [int]. *)
Theorem encodeLinear_decodeLinear_as_int (ds : list double) (ks : list Z)
    (result0 : list Z) (result : list double) :
  Forall2 (fun d k => fixed_point d = Ok k) ds ks ->
  (2 <= length ds)%nat ->
  (5 * length ds <= length result0)%nat ->
  (length ds <= length result)%nat ->
  exists res n,
    encodeLinear ds (length ds) result0 = Ok (res, n)
    /\ decodeLinear (take n res) result
       = Ok ((fun k => ddiv (of_int (if k <? 2 ^ 31 then k else k - 2 ^ 32)) d100000) <$> ks).
Proof.
  intros Hks Hn Hcap Hres.
  destruct (linear_round_trip ds ks result0 result Hks Hn Hcap Hres)
    as (res & n & He & _ & _ & Hd).
  exists res, n. split; [exact He | ]. rewrite Hd. f_equal.
  clear - Hks. induction Hks as [| d k ds ks E _ IH]; [reflexivity | ].
  cbn [fmap list_fmap]. f_equal; [ | exact IH].
  unfold unfix. do 2 f_equal.
  apply fixed_point_range in E.
  destruct (Z.ltb_spec k (2 ^ 31)) as [Hlt | Hge].
  - apply int32_small. lia.
  - unfold int32. replace (k + 2 ^ 31) with (k - 2 ^ 31 + 1 * 2 ^ 32) by lia.
    rewrite Z.mod_add, Z.mod_small by lia. lia.
Qed.

Lemma encodeLinear_decodeLinear_as_int_witness :
  exists res n,
    encodeLinear [of_int 30000; of_int 1] (length [of_int 30000; of_int 1]) (replicate 10 0)
    = Ok (res, n)
    /\ decodeLinear (take n res) (replicate 2 dzero)
       = Ok ((fun k => ddiv (of_int (if k <? 2 ^ 31 then k else k - 2 ^ 32)) d100000)
               <$> [3000000000; 100000]).
Proof.
  apply (encodeLinear_decodeLinear_as_int [of_int 30000; of_int 1] [3000000000; 100000]
           (replicate 10 0) (replicate 2 dzero)).
  - repeat constructor; vm_compute; reflexivity.
  - cbn [length]; lia.
  - cbn [length replicate]; lia.
  - cbn [length replicate]; lia.
Defined.

Lemma last_byte_even (h : list Z) : Nat.even (length h) = true -> carry_over h = [].
Proof.
  intros Heven. unfold carry_over.
  apply Nat.even_spec in Heven. destruct Heven as [k Hk]. rewrite Hk.
  rewrite Nat.mul_comm, Nat.Div0.mod_mul. reflexivity.
Qed.

Lemma packed_app_even (h1 h2 : list Z) :
  Nat.even (length h1) = true -> packed (h1 ++ h2) = packed h1 ++ packed h2.
Proof.
  intros Heven. unfold packed, last_byte.
  rewrite pack_app, carry_over_app, (last_byte_even h1 Heven). cbn [app].
  rewrite app_nil_r, app_assoc. reflexivity.
Qed.

Lemma hb_stream_app (xs ys : list Z) : hb_stream (xs ++ ys) = hb_stream xs ++ hb_stream ys.
Proof. unfold hb_stream. apply bind_app. Qed.

(** X18: two encodings concatenate when the first holds an even
    number of half bytes: [decodeCount] on the bytes of the first followed by
    the bytes of the second returns the counts of the first and then those
    of the second. *)
Theorem decodeCount_concat (ds1 ds2 : list double) (cs1 cs2 : list Z)
    (buf1 buf2 : list Z) (result : list double) :
  Forall2 (fun d c => to_size_t (dadd d d0_5) = Ok c) ds1 cs1 ->
  Forall2 (fun d c => to_size_t (dadd d d0_5) = Ok c) ds2 cs2 ->
  (5 * length ds1 <= length buf1)%nat -> (5 * length ds2 <= length buf2)%nat ->
  (length ds1 + length ds2 <= length result)%nat ->
  Nat.even (length (hb_stream (int32 <$> cs1))) = true ->
  exists res1 n1 res2 n2,
    encodeCount ds1 (length ds1) buf1 = Ok (res1, n1)
    /\ encodeCount ds2 (length ds2) buf2 = Ok (res2, n2)
    /\ decodeCount (take n1 res1 ++ take n2 res2) result
       = Ok (of_int <$> (int32 <$> (cs1 ++ cs2))).
Proof.
  intros H1 H2 Hb1 Hb2 Hres Heven.
  pose proof (Forall2_int32_range _ _ _ H1) as Hx1.
  pose proof (Forall2_int32_range _ _ _ H2) as Hx2.
  pose proof (Forall2_length _ _ _ H1) as Hl1.
  pose proof (Forall2_length _ _ _ H2) as Hl2.
  pose proof (length_hb_stream _ Hx1) as Hh1. rewrite length_fmap in Hh1.
  pose proof (length_hb_stream _ Hx2) as Hh2. rewrite length_fmap in Hh2.
  set (P1 := packed (hb_stream (int32 <$> cs1))).
  set (P2 := packed (hb_stream (int32 <$> cs2))).
  assert (HP1 : length P1 = ((length (hb_stream (int32 <$> cs1)) + 1) / 2)%nat)
    by apply length_packed.
  assert (HP2 : length P2 = ((length (hb_stream (int32 <$> cs2)) + 1) / 2)%nat)
    by apply length_packed.
  pose proof (half_up (length (hb_stream (int32 <$> cs1)))) as Hu1.
  pose proof (half_up (length (hb_stream (int32 <$> cs2)))) as Hu2.
  exists (blit 0 P1 buf1), (length P1), (blit 0 P2 buf2), (length P2).
  split; [apply encodeCount_packed; [exact H1 | fold P1; lia] | ].
  split; [apply encodeCount_packed; [exact H2 | fold P2; lia] | ].
  rewrite !take_blit_0. unfold P1, P2.
  rewrite <- packed_app_even by exact Heven.
  rewrite <- hb_stream_app, <- fmap_app.
  apply decodeCount_packed.
  - rewrite fmap_app. apply Forall_app. split; assumption.
  - rewrite length_fmap, length_app. lia.
Qed.

Lemma decodeCount_concat_witness :
  exists res1 n1 res2 n2,
    encodeCount [of_int 23; of_int 0] (length [of_int 23; of_int 0]) (replicate 10 0)
    = Ok (res1, n1)
    /\ encodeCount [of_int 7] (length [of_int 7]) (replicate 5 0) = Ok (res2, n2)
    /\ decodeCount (take n1 res1 ++ take n2 res2) (replicate 3 dzero)
       = Ok (of_int <$> (int32 <$> ([23; 0] ++ [7]))).
Proof.
  apply (decodeCount_concat [of_int 23; of_int 0] [of_int 7] [23; 0] [7]
           (replicate 10 0) (replicate 5 0) (replicate 3 dzero)).
  - repeat constructor; vm_compute; reflexivity.
  - repeat constructor; vm_compute; reflexivity.
  - cbn [length replicate]; lia.
  - cbn [length replicate]; lia.
  - cbn [length replicate]; lia.
  - reflexivity.
Defined.

(** ** The decoders on well-formed bytes *)

Lemma residual_predicted (k0 k1 r : Z) :
  - 2 ^ 31 <= r < 2 ^ 31 -> residual k0 k1 (k1 + (k1 - k0) + r) = r.
Proof.
  intros Hr. unfold residual, int32, uint32. Z.div_mod_to_equations. lia.
Qed.

Lemma residuals_predicted (rs : list Z) : forall k0 k1,
  Forall (fun r => - 2 ^ 31 <= r < 2 ^ 31) rs ->
  residuals k0 k1 (predicted k0 k1 rs) = rs.
Proof.
  induction rs as [| r rs IH]; intros k0 k1 Hrs; [reflexivity | ].
  inversion Hrs as [| ? ? Hr Hrs']; subst.
  cbn [predicted residuals]. rewrite residual_predicted by exact Hr.
  f_equal. apply IH. exact Hrs'.
Qed.

Lemma length_predicted (rs : list Z) : forall k0 k1, length (predicted k0 k1 rs) = length rs.
Proof.
  induction rs as [| r rs IH]; intros k0 k1; cbn [predicted length];
    [reflexivity | rewrite IH; reflexivity].
Qed.

(** X19: [decodeCount] on well-formed bytes: when the half
    bytes of [data], high half first, are those of [encodeInt] of the [int]s
    [xs] in order, followed by nothing or by one zero half byte, and [result]
    has room for them, [decodeCount] returns [xs], converted to doubles. *)
Theorem decodeCount_well_formed (xs : list Z) (pad : list Z) (data : list Z)
    (result : list double) :
  Forall (fun x => - 2 ^ 31 <= x < 2 ^ 31) xs ->
  pad = [] \/ pad = [0] ->
  stream data = (nibble <$> hb_stream xs) ++ pad ->
  (length xs <= length result)%nat ->
  decodeCount data result = Ok (of_int <$> xs).
Proof.
  intros Hxs Hpad Hs Hlen. unfold decodeCount.
  pose proof (decodeCount_loop_spec data pad result Hpad xs Hxs (2 * length data) 0 0 []) as Hloop.
  rewrite blit_nil in Hloop. cbn [length app Nat.add] in Hloop.
  rewrite Hloop; [ | | lia | exact Hlen].
  - cbn [mbind outcome_bind]. f_equal.
    apply resize_blit; [rewrite length_fmap; reflexivity | exact Hlen].
  - split; [auto | ]. change (pos 0 0) with 0%nat. rewrite drop_0. exact Hs.
Qed.

Lemma decodeCount_well_formed_witness :
  decodeCount [103; 24] (replicate 2 dzero) = Ok (of_int <$> [23; 0]).
Proof.
  apply (decodeCount_well_formed [23; 0] [] [103; 24] (replicate 2 dzero)).
  - repeat constructor; lia.
  - left; reflexivity.
  - reflexivity.
  - cbn [length replicate]; lia.
Defined.

(** X20: [decodeLinear] on well-formed bytes: after the
    two little-endian header words [k0] and [k1], when the half bytes are
    those of [encodeInt] of the [int]s [rs] in order, followed by nothing or
    by one zero half byte, [decodeLinear] returns the header values and then,
    for every residual, the linear extrapolation of the two integers before
    plus the residual, each read as an [int] and divided by 100000.0. *)
Theorem decodeLinear_well_formed (k0 k1 : Z) (rs : list Z) (pad : list Z) (rest : list Z)
    (result : list double) :
  0 <= k0 < 2 ^ 32 -> 0 <= k1 < 2 ^ 32 ->
  Forall (fun r => - 2 ^ 31 <= r < 2 ^ 31) rs ->
  pad = [] \/ pad = [0] ->
  stream rest = (nibble <$> hb_stream rs) ++ pad ->
  (2 + length rs <= length result)%nat ->
  decodeLinear (le32 k0 ++ le32 k1 ++ rest) result
  = Ok (unfix <$> k0 :: k1 :: predicted k0 k1 rs).
Proof.
  intros H0 H1 Hrs Hpad Hs Hlen. unfold decodeLinear.
  rewrite read_header_spec by assumption. cbn [mbind outcome_bind].
  fold (unfix k0). fold (unfix k1).
  rewrite vec_set_ok by lia. cbn [mbind outcome_bind].
  rewrite vec_set_ok by (rewrite length_insert; lia). cbn [mbind outcome_bind].
  assert (E : <[1%nat:=unfix k1]> (<[0%nat:=unfix k0]> result) = blit 0 [unfix k0; unfix k1] result).
  { destruct result as [| r0 [| r1 result]]; cbn [length] in Hlen; try lia. reflexivity. }
  rewrite E.
  set (data := le32 k0 ++ le32 k1 ++ rest).
  pose proof (decodeLinear_loop_spec data pad result Hpad (predicted k0 k1 rs)
                (2 * length data) 8 0 k0 k1 [unfix k0; unfix k1]) as Hloop.
  rewrite residuals_predicted, length_predicted in Hloop by exact Hrs.
  cbn [length] in Hloop. rewrite Hloop; [ | | lia | lia].
  - cbn [mbind outcome_bind]. f_equal.
    apply resize_blit;
      [rewrite length_fmap; cbn [length]; rewrite length_predicted; reflexivity | lia].
  - split; [auto | ]. unfold data. rewrite app_assoc, stream_app, <- Hs.
    apply drop_app_length'. unfold pos. rewrite length_stream. cbn. lia.
Qed.

Lemma decodeLinear_well_formed_witness :
  decodeLinear (le32 100000 ++ le32 200000 ++ [136]) (replicate 4 dzero)
  = Ok (unfix <$> 100000 :: 200000 :: predicted 100000 200000 [0; 0]).
Proof.
  apply (decodeLinear_well_formed 100000 200000 [0; 0] [] [136] (replicate 4 dzero)).
  - lia.
  - lia.
  - repeat constructor; lia.
  - left; reflexivity.
  - reflexivity.
  - cbn [length replicate]; lia.
Defined.

(** ** Whole numbers through the codecs *)

(** X21: whole counts from 0 to [2^31 - 1] pass
    through [encodeCount] and [decodeCount] unchanged: [n + 0.5] is computed
    exactly and truncates to [n], and the doubles returned are the doubles
    given. *)
Theorem count_codec_exact_on_whole_counts (ns : list Z)
    (result0 : list Z) (result : list double) :
  Forall (fun n => 0 <= n < 2 ^ 31) ns ->
  (5 * length ns <= length result0)%nat ->
  (length ns <= length result)%nat ->
  exists res n,
    encodeCount (of_int <$> ns) (length ns) result0 = Ok (res, n)
    /\ decodeCount (take n res) result = Ok (of_int <$> ns).
Proof.
  intros Hns Hcap Hres.
  assert (Hcs : Forall2 (fun d c => to_size_t (dadd d d0_5) = Ok c) (of_int <$> ns) ns).
  { clear - Hns. induction Hns as [| n ns Hn _ IH]; cbn [fmap list_fmap]; constructor;
      [apply to_size_t_whole; lia | exact IH]. }
  destruct (count_round_trip (of_int <$> ns) ns result0 result Hcs)
    as (res & n & He & _ & Hd); rewrite ?length_fmap; try assumption.
  rewrite length_fmap in He.
  exists res, n. split; [exact He | ]. rewrite Hd. f_equal.
  clear - Hns. induction Hns as [| n ns Hn _ IH]; [reflexivity | ].
  cbn [fmap list_fmap]. f_equal; [ | exact IH].
  f_equal. apply int32_small. lia.
Qed.

Lemma count_codec_exact_on_whole_counts_witness :
  exists res n,
    encodeCount (of_int <$> [0; 23; 2147483647]) (length [0; 23; 2147483647]) (replicate 15 0)
    = Ok (res, n)
    /\ decodeCount (take n res) (replicate 3 dzero) = Ok (of_int <$> [0; 23; 2147483647]).
Proof.
  apply (count_codec_exact_on_whole_counts [0; 23; 2147483647]
           (replicate 15 0) (replicate 3 dzero)).
  - repeat constructor; lia.
  - cbn [length replicate]; lia.
  - cbn [length replicate]; lia.
Defined.

(** X22: whole numbers from 0 to 21474 pass
    through [encodeLinear] and [decodeLinear] unchanged: [n * 100000 + 0.5]
    and [k / 100000.0] are computed exactly, and the doubles returned are the
    doubles given. *)
Theorem linear_codec_exact_on_whole_numbers (ns : list Z)
    (result0 : list Z) (result : list double) :
  Forall (fun n => 0 <= n <= 21474) ns ->
  (2 <= length ns)%nat ->
  (5 * length ns <= length result0)%nat ->
  (length ns <= length result)%nat ->
  exists res n,
    encodeLinear (of_int <$> ns) (length ns) result0 = Ok (res, n)
    /\ decodeLinear (take n res) result = Ok (of_int <$> ns).
Proof.
  intros Hns Hn Hcap Hres.
  assert (Hks : Forall2 (fun d k => fixed_point d = Ok k)
                  (of_int <$> ns) (Z.mul 100000 <$> ns)).
  { clear - Hns. induction Hns as [| n ns Hn _ IH]; cbn [fmap list_fmap]; constructor;
      [apply fixed_point_whole; lia | exact IH]. }
  destruct (linear_round_trip (of_int <$> ns) (Z.mul 100000 <$> ns) result0 result Hks)
    as (res & n & He & _ & _ & Hd); rewrite ?length_fmap; try assumption.
  rewrite length_fmap in He.
  exists res, n. split; [exact He | ]. rewrite Hd. f_equal.
  clear - Hns. induction Hns as [| n ns Hn _ IH]; [reflexivity | ].
  cbn [fmap list_fmap]. f_equal; [ | exact IH].
  apply unfix_whole. exact Hn.
Qed.

Lemma linear_codec_exact_on_whole_numbers_witness :
  exists res n,
    encodeLinear (of_int <$> [100; 0; 21474]) (length [100; 0; 21474]) (replicate 15 0)
    = Ok (res, n)
    /\ decodeLinear (take n res) (replicate 3 dzero) = Ok (of_int <$> [100; 0; 21474]).
Proof.
  apply (linear_codec_exact_on_whole_numbers [100; 0; 21474]
           (replicate 15 0) (replicate 3 dzero)).
  - repeat constructor; lia.
  - cbn [length]; lia.
  - cbn [length replicate]; lia.
  - cbn [length replicate]; lia.
Defined.

(** ** Whole numbers outside the range of the conversions *)

Lemma fixed_point_too_big (n : Z) :
  42950 <= n <= 45035996273 -> fixed_point (of_int n) = BadConversion.
Proof.
  intros Hn. unfold fixed_point, d100000.
  rewrite dmul_of_int by lia.
  unfold to_uint32, to_integer. rewrite (Z.mul_comm n), trunc_add_half by lia.
  destruct (Z.leb_spec (100000 * n) (2 ^ 32 - 1)) as [? | _]; [lia | ].
  rewrite andb_false_r. reflexivity.
Qed.

Lemma of_int_normal_neg (n : Z) : 0 < n < 2 ^ 53 -> of_int (- n) = normal true n 0.
Proof.
  intros Hn. pose proof (digits_below n 53 ltac:(lia) ltac:(lia)) as Hd.
  pose proof (Zdigits2_pos n ltac:(lia)) as Hp.
  unfold of_int, double_of.
  replace (- n) with (cond_Zopp true (n * 2 ^ 0)) by (cbn [cond_Zopp]; lia).
  apply binary_normalize_exact; lia.
Qed.

Lemma dmul_of_int_neg (a b : Z) :
  0 < a -> 0 < b -> a * b < 2 ^ 53 -> dmul (of_int (- a)) (of_int b) = of_int (- (a * b)).
Proof.
  intros Ha Hb Hab.
  assert (Ha53 : a < 2 ^ 53) by nia. assert (Hb53 : b < 2 ^ 53) by nia.
  pose proof (digits_below a 53 ltac:(lia) ltac:(lia)) as Da.
  pose proof (digits_below b 53 ltac:(lia) ltac:(lia)) as Db.
  pose proof (digits_below (a * b) 53 ltac:(nia) ltac:(lia)) as Dab.
  pose proof (Zdigits2_mul_ge a b Ha Hb) as Dge.
  pose proof (Zdigits2_pos (a * b) ltac:(nia)) as Dpos.
  rewrite !of_int_normal_neg, of_int_normal by nia.
  unfold normal at 1 2. unfold dmul, SFmul. cbn [xorb].
  rewrite Pos2Z.inj_mul, !normal_mantissa by lia.
  replace (a * 2 ^ (53 - Zdigits2 a) * (b * 2 ^ (53 - Zdigits2 b)))
    with (a * b * 2 ^ (106 - Zdigits2 a - Zdigits2 b)).
  2:{ replace (106 - Zdigits2 a - Zdigits2 b) with (53 - Zdigits2 a + (53 - Zdigits2 b)) by lia.
      rewrite Z.pow_add_r by lia. lia. }
  rewrite binary_round_aux_exact by lia.
  f_equal. lia.
Qed.

Lemma trunc_normal (s : bool) (q E : Z) :
  0 < q -> Zdigits2 q <= 53 -> E <= 0 ->
  trunc (normal s q E) = Some (cond_Zopp s (q / 2 ^ (- E))).
Proof.
  intros Hq Hd HE. unfold normal, trunc. rewrite normal_mantissa by assumption.
  do 2 f_equal.
  replace (E + Zdigits2 q - 53) with (- (53 - Zdigits2 q + - E)) by lia.
  rewrite Z.shiftl_opp_r, Z.shiftr_div_pow2, Z.pow_add_r by lia.
  assert (0 < 2 ^ (53 - Zdigits2 q)) by (apply Z.pow_pos_nonneg; lia).
  assert (0 < 2 ^ (- E)) by (apply Z.pow_pos_nonneg; lia).
  rewrite (Z.mul_comm (2 ^ (53 - Zdigits2 q))), Z.div_mul_cancel_r by lia.
  reflexivity.
Qed.

Lemma dadd_neg_half (K : Z) :
  0 < K < 2 ^ 52 -> dadd (normal true K 0) d0_5 = normal true (2 * K - 1) (-1).
Proof.
  intros HK.
  pose proof (Zdigits2_pos K ltac:(lia)) as Hp.
  pose proof (digits_below K 52 ltac:(lia) ltac:(lia)) as Hd.
  pose proof (digits_below (2 * K - 1) 53 ltac:(change (2 ^ 53) with (2 * 2 ^ 52); lia)
                ltac:(lia)) as Hd'.
  pose proof (Zdigits2_pos (2 * K - 1) ltac:(lia)) as Hp'.
  set (d := Zdigits2 K) in *.
  assert (H2 : 0 < 2 ^ (53 - d)) by (apply Z.pow_pos_nonneg; lia).
  change d0_5 with (S754_finite false 4503599627370496 (-53)).
  unfold normal at 1. fold d. unfold dadd, SFadd.
  replace (Z.min (0 + d - 53) (-53)) with (-53) by lia.
  rewrite shl_align_le by lia. rewrite shl_align_ge by lia.
  cbn [fst cond_Zopp].
  rewrite Z2Pos.id by nia.
  replace (0 + d - 53 - -53) with d by lia.
  rewrite Z2Pos.id.
  2:{ apply Z.mul_pos_pos; [nia | apply Z.pow_pos_nonneg; lia]. }
  rewrite <- Z.mul_assoc, <- Z.pow_add_r by lia.
  replace (53 - d + d) with 53 by lia.
  replace (- (K * 2 ^ 53) + 4503599627370496) with (cond_Zopp true ((2 * K - 1) * 2 ^ 52))
    by (cbn [cond_Zopp]; change (2 ^ 53) with (2 * 2 ^ 52);
        change 4503599627370496 with (2 ^ 52); lia).
  rewrite binary_normalize_exact by lia.
  f_equal.
Qed.

Lemma to_size_t_negative (n : Z) :
  2 <= n < 2 ^ 52 -> to_size_t (dadd (of_int (- n)) d0_5) = BadConversion.
Proof.
  intros Hn. rewrite of_int_normal_neg, dadd_neg_half by lia.
  pose proof (digits_below (2 * n - 1) 53 ltac:(change (2 ^ 53) with (2 * 2 ^ 52); lia)
                ltac:(lia)) as Hd.
  unfold to_size_t, to_integer. rewrite trunc_normal by lia.
  cbn [cond_Zopp]. change (2 ^ (- -1)) with 2.
  destruct (Z.leb_spec 0 (- ((2 * n - 1) / 2))) as [Hge | _]; [ | reflexivity].
  exfalso. Z.div_mod_to_equations. lia.
Qed.

Lemma fixed_point_negative (n : Z) :
  1 <= n <= 45035996273 -> fixed_point (of_int (- n)) = BadConversion.
Proof.
  intros Hn. unfold fixed_point, d100000.
  rewrite dmul_of_int_neg by lia.
  rewrite of_int_normal_neg, dadd_neg_half by lia.
  pose proof (digits_below (2 * (n * 100000) - 1) 53
                ltac:(change (2 ^ 53) with 9007199254740992; lia) ltac:(lia)) as Hd.
  unfold to_uint32, to_integer. rewrite trunc_normal by lia.
  cbn [cond_Zopp]. change (2 ^ (- -1)) with 2.
  destruct (Z.leb_spec 0 (- ((2 * (n * 100000) - 1) / 2))) as [Hge | _]; [ | reflexivity].
  exfalso. Z.div_mod_to_equations. lia.
Qed.

(** X23: the fixed-point conversion
    [(unsigned int)(d * 100000 + 0.5)] of [encodeLinear] on a whole number
    [n]: it is [100000 * n] from 0 to 42949, and out of the range of
    [unsigned int] from 42950 on and for every negative [n] (within the whole
    numbers whose product with 100000 is exact). *)
Theorem fixed_point_whole_range (n : Z) :
  (0 <= n <= 42949 -> fixed_point (of_int n) = Ok (100000 * n))
  /\ (42950 <= n <= 45035996273 -> fixed_point (of_int n) = BadConversion)
  /\ (- 45035996273 <= n <= -1 -> fixed_point (of_int n) = BadConversion).
Proof.
  split; [apply fixed_point_whole | ]. split; [apply fixed_point_too_big | ].
  intros Hn. replace n with (- (- n)) by lia. apply fixed_point_negative. lia.
Qed.

Lemma fixed_point_whole_range_witness :
  fixed_point (of_int 42949) = Ok (100000 * 42949)
  /\ fixed_point (of_int 42950) = BadConversion
  /\ fixed_point (of_int (-1)) = BadConversion.
Proof.
  pose proof (fixed_point_whole_range 42949) as (Ha & _ & _).
  pose proof (fixed_point_whole_range 42950) as (_ & Hb & _).
  pose proof (fixed_point_whole_range (-1)) as (_ & _ & Hc).
  split; [apply Ha | split; [apply Hb | apply Hc]]; lia.
Defined.

(** X24: the conversion [(size_t)(d + 0.5)] of [encodeCount] on a whole
    number [n]: it is [n] from 0 up to [2^52], it is 0 for -1 (the sum -0.5
    truncates to 0), and it is out of the range of [size_t] for every [n]
    from -2 down to [-2^52]. *)
Theorem count_conversion_whole_range (n : Z) :
  (0 <= n < 2 ^ 52 -> to_size_t (dadd (of_int n) d0_5) = Ok n)
  /\ (n = -1 -> to_size_t (dadd (of_int n) d0_5) = Ok 0)
  /\ (- 2 ^ 52 < n <= -2 -> to_size_t (dadd (of_int n) d0_5) = BadConversion).
Proof.
  split; [apply to_size_t_whole | ]. split; [intros ->; vm_compute; reflexivity | ].
  intros Hn. replace n with (- (- n)) by lia. apply to_size_t_negative. lia.
Qed.

Lemma count_conversion_whole_range_witness :
  to_size_t (dadd (of_int 23) d0_5) = Ok 23
  /\ to_size_t (dadd (of_int (-1)) d0_5) = Ok 0
  /\ to_size_t (dadd (of_int (-2)) d0_5) = BadConversion.
Proof.
  pose proof (count_conversion_whole_range 23) as (Ha & _ & _).
  pose proof (count_conversion_whole_range (-1)) as (_ & Hb & _).
  pose proof (count_conversion_whole_range (-2)) as (_ & _ & Hc).
  split; [apply Ha | split; [apply Hb | apply Hc]]; lia.
Defined.
